(** * Causal knowledge graph (DKG) of the ChaosChain SDK: model and properties

    The development embeds [src/dkg/DKG.ts] (classes [DKG] and [DKGNode]) and
    [VerifierAgent.auditCausality] and [VerifierAgent.computeNodeDepth] of
    [src/ChaosChainSDK.ts].

    Modelling conventions.
    - A JavaScript [Map<string, V>] is an association list kept in insertion
      order ([JsMap]): [set] on a key that is present replaces the value in
      place, [set] on a fresh key appends.  Iteration ([keys], [entries])
      follows that order, as in JavaScript.
    - A JavaScript [Set<string>] is a list of its members in insertion order.
    - Timestamps are integers ([Z]); [ts.toString()] is the decimal
      representation [pretty].
    - A hex-encoded byte string (a digest, the argument of [ethers.concat]) is
      modelled by the bytes it denotes, as a [string]; [ethers.toUtf8Bytes] is
      then the identity and [ethers.concat] is concatenation.
    - [keccak256] is a parameter of the development.
    - A JavaScript number that is not an integer count is an IEEE 754
      binary64 value ([number]): a finite value is held as the rational it
      denotes and every operation rounds its exact result to the nearest
      binary64 value, ties to even.
    - Recursive closures ([visit], [count]) and the [while] loops take a fuel
      argument; each is run with a fuel proved sufficient for every input.
      [computeNodeDepth], which does not return on a cyclic graph, keeps its
      fuel as an argument. *)

From Stdlib Require Import String Ascii ZArith List Lia QArith Qround Qabs Qpower Lqa.
From Stdlib Require PrimFloat FloatOps SpecFloat.
From stdpp Require Import base tactics option list numbers strings pretty sorting relations.

Local Open Scope string_scope.
Local Open Scope nat_scope.
Local Open Scope list_scope.

(** ** JavaScript [Map] with string keys *)

Module JsMap.
Section Ops.
Context {V : Type}.

Definition t := list (string * V).

Definition empty : t := [].

Fixpoint get (m : t) (k : string) : option V :=
  match m with
  | [] => None
  | (k', v) :: m' => if decide (k' = k) then Some v else get m' k
  end.

Definition has (m : t) (k : string) : bool :=
  match get m k with Some _ => true | None => false end.

Fixpoint set (m : t) (k : string) (v : V) : t :=
  match m with
  | [] => [(k, v)]
  | (k', v') :: m' =>
      if decide (k' = k) then (k, v) :: m' else (k', v') :: set m' k v
  end.

Definition keys (m : t) : list string := m.*1.
Definition values (m : t) : list V := m.*2.
Definition entries (m : t) : list (string * V) := m.
Definition size (m : t) : nat := length m.
End Ops.
Arguments t : clear implicits.
End JsMap.

(** ** [DKGNode] *)

(** The field [sig] of the source is [sig_] here ([sig] is a type of the
    prelude); [metadata] (an untyped record no operation reads) is left out. *)
Record DKGNode := mkDKGNode {
  author : string;
  sig_ : string;
  ts : Z;
  xmtpMsgId : string;
  artifactIds : list string;
  payloadHash : string;
  parents : list string;
  vlc : option string;
  agentId : option Z;
  content : option string;
  nodeType : string
}.

(** ** [DKG] *)

Record DKG := mkDKG {
  nodes : JsMap.t DKGNode;
  edges : JsMap.t (list string);
  rootNodes : list string
}.

Definition DKG_new : DKG :=
  {| nodes := JsMap.empty; edges := JsMap.empty; rootNodes := [] |}.

(** [nodeId || node.xmtpMsgId]: an absent or empty [nodeId] is falsy. *)
Definition resolveId (node : DKGNode) (nodeId : option string) : string :=
  match nodeId with
  | Some s => if decide (s = "") then xmtpMsgId node else s
  | None => xmtpMsgId node
  end.

(** One iteration of the edge-building loop of [addNode]. *)
Definition addEdge (id : string) (es : JsMap.t (list string)) (parentId : string)
  : JsMap.t (list string) :=
  let es1 := if JsMap.has es parentId then es else JsMap.set es parentId [] in
  match JsMap.get es1 parentId with
  | Some children => JsMap.set es1 parentId (children ++ [id])
  | None => es1
  end.

Definition addNode (g : DKG) (node : DKGNode) (nodeId : option string) : DKG * string :=
  let id := resolveId node nodeId in
  let nodes' := JsMap.set (nodes g) id node in
  let edges' := foldl (addEdge id) (edges g) (parents node) in
  let roots' :=
    if decide (length (parents node) = 0) then
      if decide (id ∈ rootNodes g) then rootNodes g else rootNodes g ++ [id]
    else rootNodes g in
  ({| nodes := nodes'; edges := edges'; rootNodes := roots' |}, id).

Definition getNode (g : DKG) (nodeId : string) : option DKGNode :=
  JsMap.get (nodes g) nodeId.

Definition getChildren (g : DKG) (nodeId : string) : list string :=
  match JsMap.get (edges g) nodeId with
  | Some children => children
  | None => []
  end.

(** Stores built by the constructor and [addNode] only. *)
Inductive built : DKG → Prop :=
  | built_new : built DKG_new
  | built_add g node nodeId : built g → built (addNode g node nodeId).1.

(** [edgeCount] of the audit report:
    [Array.from(dkg.edges.values()).reduce((sum, c) => sum + c.length, 0)]. *)
Definition totalLength (es : JsMap.t (list string)) : nat :=
  foldl (λ sum children, sum + length children) 0 (JsMap.values es).

Definition edgeCount (g : DKG) : nat := totalLength (edges g).

(** ** Canonical hash ([DKGNode.computeCanonicalHash]) *)

(** [Array.prototype.join]. *)
Fixpoint join (sep : string) (l : list string) : string :=
  match l with
  | [] => ""
  | [x] => x
  | x :: l' => x ++ sep ++ join sep l'
  end.

(** [[...this.parents].sort()]: the default sort orders strings by their code
    units; it is a merge sort on the lexicographic order of [string]. *)
Definition sortStrings (l : list string) : list string := merge_sort String.le l.

(** The fields that enter the hash, before they are joined. *)
Definition canonicalFields (n : DKGNode) : list string :=
  [author n; pretty (ts n); xmtpMsgId n; payloadHash n; join "|" (sortStrings (parents n))].

Definition canonical (n : DKGNode) : string := join "|" (canonicalFields n).

(** ** Topological sort ([DKG.topologicalSort]) *)

(** The two [Error]s [visit] throws. *)
Inductive SortError :=
  | CycleDetected (nodeId : string)
  | NodeNotFound (nodeId : string).

Definition errorMessage (e : SortError) : string :=
  match e with
  | CycleDetected nodeId => "Cycle detected in DKG at node " ++ nodeId
  | NodeNotFound nodeId => "Node " ++ nodeId ++ " not found"
  end.

(** The three variables the closure [visit] captures. *)
Record SortState := mkSortState {
  visited : list string;
  visiting : list string;
  result : list DKGNode
}.

(** A computation that may throw [E]; [None] stands for exhausted fuel. *)
Definition Run (E A : Type) : Type := option (E + A).

(** [for (const x of l) { f(x) }] in a state [S], stopping at the first throw. *)
Fixpoint forEach {E S A : Type} (f : A → S → Run E S) (l : list A) (st : S) : Run E S :=
  match l with
  | [] => Some (inr st)
  | x :: l' =>
      match f x st with
      | Some (inr st') => forEach f l' st'
      | r => r
      end
  end.

Fixpoint visit (fuel : nat) (g : DKG) (nodeId : string) (st : SortState)
  : Run SortError SortState :=
  match fuel with
  | 0 => None
  | S fuel' =>
      if decide (nodeId ∈ visiting st) then Some (inl (CycleDetected nodeId))
      else if decide (nodeId ∈ visited st) then Some (inr st)
      else
        let st1 := {| visited := visited st;
                      visiting := visiting st ++ [nodeId];
                      result := result st |} in
        match JsMap.get (nodes g) nodeId with
        | None => Some (inl (NodeNotFound nodeId))
        | Some node =>
            match forEach (visit fuel' g) (parents node) st1 with
            | Some (inr st2) =>
                Some (inr {| visited := visited st2 ++ [nodeId];
                             visiting := filter (λ x, x ≠ nodeId) (visiting st2);
                             result := result st2 ++ [node] |})
            | r => r
            end
        end
  end.

Definition sortInit : SortState := {| visited := []; visiting := []; result := [] |}.

(** [if (!visited.has(nodeId)) { visit(nodeId) }]. *)
Definition visitIfNew (fuel : nat) (g : DKG) (nodeId : string) (st : SortState)
  : Run SortError SortState :=
  if decide (nodeId ∈ visited st) then Some (inr st) else visit fuel g nodeId st.

(** The outer loop over [this.nodes.keys()]. *)
Definition sortLoop (fuel : nat) (g : DKG) : Run SortError SortState :=
  forEach (visitIfNew fuel g) (JsMap.keys (nodes g)) sortInit.

(** The nesting of [visit] never exceeds the number of nodes plus one
    ([sortLoop_fuel] below). *)
Definition sortFuel (g : DKG) : nat := S (JsMap.size (nodes g)).

Definition sortRun (g : DKG) : SortError + SortState :=
  match sortLoop (sortFuel g) g with
  | Some r => r
  | None => inr sortInit
  end.

Definition topologicalSort (g : DKG) : SortError + list DKGNode :=
  match sortRun g with
  | inl e => inl e
  | inr st => inr (result st)
  end.

(** ** Causal chain ([DKG.traceCausalChain]) *)

(** One queue entry [{ nodeId, path }] is a pair. *)
Definition pushChildren (visited : list string) (path : list string)
    (queue : list (string * list string)) (children : list string)
  : list (string * list string) :=
  foldl (λ q childId, if decide (childId ∈ visited) then q
                      else q ++ [(childId, path ++ [childId])])
        queue children.

Fixpoint bfs (fuel : nat) (g : DKG) (toNodeId : string)
    (queue : list (string * list string)) (visited : list string)
  : option (list string) :=
  match fuel with
  | 0 => None
  | S fuel' =>
      match queue with
      | [] => Some []
      | (nodeId, path) :: queue' =>
          if decide (nodeId = toNodeId) then Some path
          else if decide (nodeId ∈ visited) then bfs fuel' g toNodeId queue' visited
          else
            let visited' := visited ++ [nodeId] in
            bfs fuel' g toNodeId
                (pushChildren visited' path queue' (getChildren g nodeId)) visited'
      end
  end.

(** The loop runs at most [edgeCount g + 2] times ([bfs_fuel] below). *)
Definition traceFuel (g : DKG) : nat := S (S (edgeCount g)).

(** The ids of the path found, before they are mapped to nodes. *)
Definition tracePath (g : DKG) (fromNodeId toNodeId : string) : list string :=
  if negb (JsMap.has (nodes g) fromNodeId) || negb (JsMap.has (nodes g) toNodeId)
  then []
  else match bfs (traceFuel g) g toNodeId [(fromNodeId, [fromNodeId])] [] with
       | Some path => path
       | None => []
       end.

(** [path.map((id) => this.nodes.get(id)!).filter(Boolean)]. *)
Definition traceCausalChain (g : DKG) (fromNodeId toNodeId : string) : list DKGNode :=
  omap (JsMap.get (nodes g)) (tracePath g fromNodeId toNodeId).

(** ** Descendant count ([DKG.countDescendants]) *)

(** The loop [for (const childId of children) total += count(childId)]. *)
Fixpoint countLoop (count : string → list string → option (nat * list string))
    (children : list string) (total : nat) (visited : list string)
  : option (nat * list string) :=
  match children with
  | [] => Some (total, visited)
  | childId :: rest =>
      match count childId visited with
      | Some (n, visited') => countLoop count rest (total + n) visited'
      | None => None
      end
  end.

(** The closure [count], with the set [visited] it captures threaded. *)
Fixpoint count (fuel : nat) (g : DKG) (id : string) (visited : list string)
  : option (nat * list string) :=
  match fuel with
  | 0 => None
  | S fuel' =>
      if decide (id ∈ visited) then Some (0, visited)
      else
        let visited1 := visited ++ [id] in
        let children := getChildren g id in
        countLoop (count fuel' g) children (length children) visited1
  end.

(** The nesting of [count] never exceeds [edgeCount g + 2] ([count_fuel]). *)
Definition countFuel (g : DKG) : nat := S (S (edgeCount g)).

Definition countDescendants (g : DKG) (nodeId : string) : nat :=
  match count (countFuel g) g nodeId [] with
  | Some (n, _) => n
  | None => 0
  end.

(** ** Numbers: IEEE 754 binary64 *)

(** A JavaScript number is a binary64 floating-point value.  A finite value
    is held as the rational it denotes; every operation returns the exact
    result rounded to the nearest binary64 value, ties to even, and overflows
    to an infinity.  The sign of zero is not modelled: nothing here divides
    by zero or prints a zero. *)
Inductive number :=
  | Fin (q : Q)
  | PosInf
  | NegInf
  | NaN.

Definition pow2 (e : Z) : Q := (2 ^ e)%Q.

(** The integer nearest to [x], a tie going to the even neighbour. *)
Definition rne (x : Q) : Z :=
  let f := Qfloor x in
  match (x - inject_Z f ?= 1 # 2)%Q with
  | Lt => f
  | Gt => (f + 1)%Z
  | Eq => if Z.even f then f else (f + 1)%Z
  end.

(** For [x > 0], the [k] with [2^k <= x < 2^(k+1)]. *)
Definition ilog2 (x : Q) : Z :=
  let k := (Z.log2 (Qnum x) - Z.log2 (Zpos (Qden x)))%Z in
  if Qle_bool (pow2 k) x then k else (k - 1)%Z.

(** The exponent of the unit in the last place at [x]: 53 significant bits,
    and never below the subnormal spacing [2^-1074]. *)
Definition ulpExp (x : Q) : Z := Z.max (ilog2 (Qabs x) - 52) (-1074).

(** Rounding to the nearest binary64 value, the exponent unbounded above. *)
Definition round (x : Q) : Q :=
  let e := ulpExp x in Qred (inject_Z (rne (x / pow2 e)) * pow2 e)%Q.

(** The binary64 value of the exact result [x]: rounded, and an infinity when
    the rounded magnitude reaches [2^1024]. *)
Definition ofQ (x : Q) : number :=
  let r := round x in
  if Qle_bool (pow2 1024) r then PosInf
  else if Qle_bool r (- pow2 1024)%Q then NegInf
  else Fin r.

(** [a + b]. *)
Definition fadd (a b : number) : number :=
  match a, b with
  | NaN, _ | _, NaN => NaN
  | PosInf, NegInf | NegInf, PosInf => NaN
  | PosInf, _ | _, PosInf => PosInf
  | NegInf, _ | _, NegInf => NegInf
  | Fin x, Fin y => ofQ (x + y)%Q
  end.

(** The sign of an infinite product or quotient. *)
Definition signedInf (negative : bool) : number := if negative then NegInf else PosInf.

Definition isNeg (x : Q) : bool := negb (Qle_bool 0 x).

(** [a * b]. *)
Definition fmul (a b : number) : number :=
  match a, b with
  | NaN, _ | _, NaN => NaN
  | Fin x, Fin y => ofQ (x * y)%Q
  | Fin x, PosInf | PosInf, Fin x => if Qeq_bool x 0 then NaN else signedInf (isNeg x)
  | Fin x, NegInf | NegInf, Fin x => if Qeq_bool x 0 then NaN else signedInf (negb (isNeg x))
  | PosInf, PosInf | NegInf, NegInf => PosInf
  | PosInf, NegInf | NegInf, PosInf => NegInf
  end.

(** [a / b]; a zero divisor is read as [+0]. *)
Definition fdiv (a b : number) : number :=
  match a, b with
  | NaN, _ | _, NaN => NaN
  | Fin x, Fin y =>
      if Qeq_bool y 0
      then (if Qeq_bool x 0 then NaN else signedInf (isNeg x))
      else ofQ (x / y)%Q
  | Fin _, (PosInf | NegInf) => Fin 0
  | PosInf, Fin y => signedInf (isNeg y)
  | NegInf, Fin y => signedInf (negb (isNeg y))
  | (PosInf | NegInf), (PosInf | NegInf) => NaN
  end.

(** The number of a natural number (an array length, a count); exact below
    [2^53]. *)
Definition ofNat (n : nat) : number := ofQ (inject_Z (Z.of_nat n)).

(** [x || 0]: [0] and [NaN] are falsy. *)
Definition orZero (x : number) : number :=
  match x with
  | NaN => Fin 0
  | Fin q => if Qeq_bool q 0 then Fin 0 else x
  | _ => x
  end.

(** The number a binary64 value of the machine denotes; used to compare the
    operations above with the hardware's on sample inputs. *)
Definition ofSpec (f : SpecFloat.spec_float) : number :=
  match f with
  | SpecFloat.S754_zero _ => Fin 0
  | SpecFloat.S754_infinity s => if s then NegInf else PosInf
  | SpecFloat.S754_nan => NaN
  | SpecFloat.S754_finite s m e =>
      Fin (Qred ((if s then -1 else 1) * inject_Z (Z.pos m) * pow2 e)%Q)
  end.

(** ** Contribution weights ([DKG.computeContributionWeights]) *)

(** [node.agentId ? node.agentId.toString() : node.author]; [0n] is falsy. *)
Definition agentKey (node : DKGNode) : string :=
  match agentId node with
  | Some a => if decide (a = 0%Z) then author node else pretty a
  | None => author node
  end.

(** The literal [0.1]: the binary64 value nearest to one tenth. *)
Definition tenth : number := ofQ (1 # 10).

(** [1 + descendants * 0.1]. *)
Definition nodeWeight (g : DKG) (nodeId : string) : number :=
  fadd (Fin 1) (fmul (ofNat (countDescendants g nodeId)) tenth).

Definition addContribution (g : DKG) (acc : JsMap.t number) (e : string * DKGNode)
  : JsMap.t number :=
  let agent := agentKey e.2 in
  let current := match JsMap.get acc agent with Some c => orZero c | None => Fin 0 end in
  JsMap.set acc agent (fadd current (nodeWeight g e.1)).

Definition agentContributions (g : DKG) : JsMap.t number :=
  foldl (addContribution g) JsMap.empty (JsMap.entries (nodes g)).

(** [Array.from(m.values()).reduce((a, b) => a + b, 0)]. *)
Definition sumValues (m : JsMap.t number) : number :=
  foldl fadd (Fin 0) (JsMap.values m).

Definition computeContributionWeights (g : DKG) : JsMap.t number :=
  let contributions := agentContributions g in
  let total := sumValues contributions in
  foldl (λ weights e, JsMap.set weights e.1 (fdiv e.2 total))
        JsMap.empty (JsMap.entries contributions).

(** ** Hashing: canonical hash and thread root *)

Section Hashing.
Variable keccak256 : string → string.

Definition computeCanonicalHash (n : DKGNode) : string := keccak256 (canonical n).

(** [ethers.ZeroHash]: thirty-two zero bytes. *)
Definition ZeroHash : string := string_of_list_ascii (replicate 32 zero).

(** The values [0, 2, 4, ...] the loop variable [i] takes below [len]. *)
Definition pairIndices (len : nat) : list nat :=
  (λ k, 2 * k) <$> seq 0 (Nat.div2 (S len)).

(** Body of [for (let i = 0; i < current.length; i += 2)]. *)
Definition pairStep (current : list string) (next : list string) (i : nat) : list string :=
  if decide (i + 1 < length current)
  then next ++ [keccak256 (nth i current "" ++ nth (i + 1) current "")]
  else next ++ [nth i current ""].

Definition pairRound (current : list string) : list string :=
  foldl (pairStep current) [] (pairIndices (length current)).

(** [while (current.length > 1) { ... current = next }]. *)
Fixpoint reduceLoop (fuel : nat) (current : list string) : option (list string) :=
  match fuel with
  | 0 => None
  | S fuel' =>
      if decide (1 < length current) then reduceLoop fuel' (pairRound current)
      else Some current
  end.

Definition computeThreadRoot (g : DKG) : SortError + string :=
  match topologicalSort g with
  | inl e => inl e
  | inr sortedNodes =>
      if decide (length sortedNodes = 0) then inr ZeroHash
      else
        let hashes := computeCanonicalHash <$> sortedNodes in
        if decide (length hashes = 1) then inr (nth 0 hashes "")
        else
          match reduceLoop (S (length hashes)) hashes with
          | Some current => inr (nth 0 current "")
          | None => inr ""
          end
  end.

(** The reduction as the specification words it: one round hashes adjacent
    pairs from the left and carries an unpaired last element over. *)
Fixpoint hashPairs (l : list string) : list string :=
  match l with
  | a :: b :: rest => keccak256 (a ++ b) :: hashPairs rest
  | _ => l
  end.

(** [root] is what remains when rounds are repeated until one digest is left;
    [k] is the number of rounds. *)
Definition foldsTo (hashes : list string) (root : string) : Prop :=
  ∃ k, Nat.iter k hashPairs hashes = [root] ∧
       ∀ j, j < k → 1 < length (Nat.iter j hashPairs hashes).

End Hashing.

(** ** Causal audit ([VerifierAgent.auditCausality]) *)

Record AuditReport := mkAuditReport {
  passed : bool;
  issues : list string;
  nodeCount : nat;
  reportEdgeCount : nat;
  rootNodeCount : nat
}.

Definition missingParentIssue (nodeId parentId : string) : string :=
  "Node " ++ nodeId ++ " references missing parent " ++ parentId.

Definition timestampIssue (nodeId : string) (node : DKGNode)
    (parentId : string) (parent : DKGNode) : string :=
  "Node " ++ nodeId ++ " has timestamp " ++ pretty (ts node) ++
  " before parent " ++ parentId ++ " (" ++ pretty (ts parent) ++ ")".

Definition cycleIssue (e : SortError) : string :=
  "Cycle detected in DKG: " ++ errorMessage e.

(** First loop: all parents exist. *)
Definition checkParents (g : DKG) (issues : list string) : list string :=
  foldl (λ issues e,
           foldl (λ issues parentId,
                    if JsMap.has (nodes g) parentId then issues
                    else issues ++ [missingParentIssue e.1 parentId])
                 issues (parents e.2))
        issues (JsMap.entries (nodes g)).

(** Second loop: timestamps are monotonic. *)
Definition checkTimestamps (g : DKG) (issues : list string) : list string :=
  foldl (λ issues e,
           foldl (λ issues parentId,
                    match JsMap.get (nodes g) parentId with
                    | Some parent =>
                        if decide (ts parent > ts e.2)%Z
                        then issues ++ [timestampIssue e.1 e.2 parentId parent]
                        else issues
                    | None => issues
                    end)
                 issues (parents e.2))
        issues (JsMap.entries (nodes g)).

(** [try { dkg.topologicalSort() } catch (error) { issues.push(...) }]. *)
Definition checkCycles (g : DKG) (issues : list string) : list string :=
  match topologicalSort g with
  | inl e => issues ++ [cycleIssue e]
  | inr _ => issues
  end.

Definition auditCausality (g : DKG) : AuditReport :=
  let issues := checkCycles g (checkTimestamps g (checkParents g [])) in
  {| passed := bool_decide (length issues = 0);
     issues := issues;
     nodeCount := JsMap.size (nodes g);
     reportEdgeCount := edgeCount g;
     rootNodeCount := length (rootNodes g) |}.

(** ** Notions the properties are stated with *)

(** Number of occurrences of [x] in [l]. *)
Definition occurrences (x : string) (l : list string) : nat :=
  length (filter (λ y, y = x) l).

(** [p] is a declared parent of the node stored under [c]. *)
Definition parentOf (g : DKG) (c p : string) : Prop :=
  ∃ node, JsMap.get (nodes g) c = Some node ∧ p ∈ parents node.

(** No node is its own ancestor. *)
Definition acyclic (g : DKG) : Prop := ∀ x, ¬ tc (parentOf g) x x.

(** Every declared parent is stored. *)
Definition parentsPresent (g : DKG) : Prop :=
  ∀ c p, parentOf g c p → p ∈ JsMap.keys (nodes g).

(** A forward edge of the store: [c] is in the children list of [p]. *)
Definition childOf (g : DKG) (p c : string) : Prop := c ∈ getChildren g p.

(** [path] follows forward edges. *)
Fixpoint chain (g : DKG) (path : list string) : Prop :=
  match path with
  | x :: (y :: _) as rest => childOf g x y ∧ chain g rest
  | _ => True
  end.

(** [path] leads from [a] to [b] along forward edges, both ends included. *)
Definition pathFromTo (g : DKG) (a b : string) (path : list string) : Prop :=
  head path = Some a ∧ last path = Some b ∧ chain g path.

(** The (child, parent) references whose parent is not stored, in the order
    the audit meets them. *)
Definition missingRefs (g : DKG) : list (string * string) :=
  e ← JsMap.entries (nodes g);
  p ← filter (λ p, p ∉ JsMap.keys (nodes g)) (parents e.2);
  [(e.1, p)].

(** The (child, parent) references whose stored parent has a later timestamp
    than the child. *)
Definition timestampViolations (g : DKG) : list ((string * DKGNode) * (string * DKGNode)) :=
  e ← JsMap.entries (nodes g);
  p ← parents e.2;
  match JsMap.get (nodes g) p with
  | Some parent => if decide (ts parent > ts e.2)%Z then [(e, (p, parent))] else []
  | None => []
  end.

(** The node [n] with its parent list replaced. *)
Definition withParents (n : DKGNode) (ps : list string) : DKGNode :=
  {| author := author n; sig_ := sig_ n; ts := ts n; xmtpMsgId := xmtpMsgId n;
     artifactIds := artifactIds n; payloadHash := payloadHash n; parents := ps;
     vlc := vlc n; agentId := agentId n; content := content n;
     nodeType := nodeType n |}.

(** The tuple of hashed fields: author, timestamp as a decimal string, id,
    payload fingerprint, sorted parents. *)
Definition hashedTuple (n : DKGNode)
  : string * string * string * string * list string :=
  (author n, pretty (ts n), xmtpMsgId n, payloadHash n, sortStrings (parents n)).

(** [s] does not contain the separator ["|"]. *)
Fixpoint sepFree (s : string) : bool :=
  match s with
  | EmptyString => true
  | String c s' => negb (Ascii.eqb c "|") && sepFree s'
  end.

(** The string fields of [n] are free of the separator and no parent id is
    the empty string. *)
Definition separable (n : DKGNode) : Prop :=
  sepFree (author n) ∧ sepFree (xmtpMsgId n) ∧ sepFree (payloadHash n) ∧
  Forall (λ p, sepFree p ∧ p ≠ "") (parents n).

(** Every child recorded in the forward adjacency is a stored node. *)
Definition childrenStored (g : DKG) : Prop :=
  ∀ p c, childOf g p c → c ∈ JsMap.keys (nodes g).

(** Parents come before children in [order]. *)
Definition parentsFirst (g : DKG) (order : list string) : Prop :=
  ∀ i c p, order !! i = Some c → parentOf g c p →
           ∃ j, (j < i)%nat ∧ order !! j = Some p.

(** [sorted] lists the nodes stored under the ids [order]. *)
Definition nodesAt (g : DKG) (order : list string) (sorted : list DKGNode) : Prop :=
  Forall2 (λ id n, JsMap.get (nodes g) id = Some n) order sorted.

(** Invariant of the sort: the visited ids are distinct, [result] holds their
    nodes in the same order, parents come first, and no visited id is in
    progress. *)
Record sortInv (g : DKG) (st : SortState) : Prop := mkSortInv {
  inv_nodup : NoDup (visited st);
  inv_nodes : nodesAt g (visited st) (result st);
  inv_order : parentsFirst g (visited st);
  inv_disjoint : ∀ x, x ∈ visited st → x ∉ visiting st
}.

(** What a successful [visit] of [x] from [st] guarantees of its final state. *)
Definition visitPost (g : DKG) (x : string) (st st' : SortState) : Prop :=
  sortInv g st' ∧ visiting st' = visiting st ∧ x ∈ visited st' ∧
  visited st ⊆ visited st'.

(** The store was filled in causal order: the parents of each entry are keys
    of earlier entries ([seen] holds the keys met so far). *)
Fixpoint insertionOrdered (seen : list string) (es : list (string * DKGNode)) : bool :=
  match es with
  | [] => true
  | e :: es' =>
      forallb (λ p, bool_decide (p ∈ seen)) (parents e.2) &&
      insertionOrdered (seen ++ [e.1]) es'
  end.

(** The ids that occur in some children list. *)
Definition childIds (g : DKG) : list string := concat (JsMap.values (edges g)).

(** Measure of [count]: the entries of the children lists not yet visited. *)
Definition unvisited (g : DKG) (visited : list string) : nat :=
  length (filter (λ c, c ∉ visited) (childIds g)).

(** The descendants of [x]: the ids reached from [x] by one or more forward
    edges. *)
Definition descendant (g : DKG) (x y : string) : Prop := tc (childOf g) x y.

(** Measure of the search loop: the children of the keys not yet visited. *)
Definition pending (es : JsMap.t (list string)) (visited : list string) : nat :=
  sum_list ((λ e, if decide (e.1 ∈ visited) then 0 else length e.2) <$> es).

(** Invariant of the search for [t] from [s]: every queued path leads from
    [s] to its node; the queued paths have one length, or a length and then
    its successor; and every path from [s] to [t] passes, after all its
    visited nodes, through a queued node whose path is no longer than the
    part of the path up to it. *)
Record bfsInv (g : DKG) (s t : string)
    (queue : list (string * list string)) (visited : list string) : Prop := mkBfsInv {
  bfs_paths : ∀ n p, (n, p) ∈ queue → pathFromTo g s n p;
  bfs_levels : ∃ L A B, queue = A ++ B ∧
                 Forall (λ e, length e.2 = L) A ∧ Forall (λ e, length e.2 = S L) B;
  bfs_frontier : ∀ π, pathFromTo g s t π →
                 ∃ π1 n π2 p, π = π1 ++ n :: π2 ∧ (n, p) ∈ queue ∧
                   length p ≤ S (length π1) ∧ (n ∉ visited) ∧
                   Forall (λ m, m ∉ visited) π2
}.

(** ** Further operations *)

(** Stores built by the constructor and [addNode], no id being added twice. *)
Inductive builtOnce : DKG → Prop :=
  | builtOnce_new : builtOnce DKG_new
  | builtOnce_add g node nodeId :
      builtOnce g → resolveId node nodeId ∉ JsMap.keys (nodes g) →
      builtOnce (addNode g node nodeId).1.

(** [Array.prototype.sort] with a comparator: a stable sort, [x] going before
    [y] when [cmp x y] is negative.  For a comparator that orders by a key
    every stable sort returns the same list; it is computed here by insertion,
    each element going after the elements it does not precede. *)
Fixpoint insertWith {A : Type} (cmp : A → A → Z) (x : A) (l : list A) : list A :=
  match l with
  | [] => [x]
  | y :: l' =>
      if decide (cmp x y < 0)%Z then x :: y :: l' else y :: insertWith cmp x l'
  end.

Definition sortWith {A : Type} (cmp : A → A → Z) (l : list A) : list A :=
  foldl (λ acc x, insertWith cmp x acc) [] l.

(** The comparator [(a, b) => key(b) - key(a)]: larger keys first. *)
Definition byKeyDesc {A : Type} (key : A → nat) (a b : A) : Z :=
  (Z.of_nat (key b) - Z.of_nat (key a))%Z.

(** [DKG.findCriticalNodes]; an absent [threshold] is 3, and a threshold is
    an integer. *)
Definition findCriticalNodes (g : DKG) (threshold : option Z) : list string :=
  let threshold := match threshold with Some t => t | None => 3%Z end in
  let critical :=
    foldl (λ critical nodeId,
             if decide (Z.of_nat (countDescendants g nodeId) >= threshold)%Z
             then critical ++ [nodeId] else critical)
          [] (JsMap.keys (nodes g)) in
  sortWith (byKeyDesc (countDescendants g)) critical.

(** ** Node depth ([VerifierAgent.computeNodeDepth]) *)

(** The loop over [node.parents], [depth] being the recursive call. *)
Fixpoint depthLoop (depth : DKGNode → option nat) (g : DKG)
    (parentIds : list string) (maxParentDepth : nat) : option nat :=
  match parentIds with
  | [] => Some maxParentDepth
  | parentId :: rest =>
      match JsMap.get (nodes g) parentId with
      | Some parent =>
          match depth parent with
          | Some d => depthLoop depth g rest (Nat.max maxParentDepth d)
          | None => None
          end
      | None => depthLoop depth g rest maxParentDepth
      end
  end.

(** The recursion has no guard against cycles; [None] stands for a call that
    needs more nested calls than [fuel]. *)
Fixpoint computeNodeDepth (fuel : nat) (g : DKG) (node : DKGNode) : option nat :=
  match fuel with
  | 0 => None
  | S fuel' =>
      if decide (length (parents node) = 0) then Some 1
      else match depthLoop (computeNodeDepth fuel' g) g (parents node) 0 with
           | Some maxParentDepth => Some (maxParentDepth + 1)
           | None => None
           end
  end.

(** Parent timestamps do not exceed child timestamps. *)
Definition timestampsMonotone (g : DKG) : Prop :=
  ∀ c p node parent,
    JsMap.get (nodes g) c = Some node → p ∈ parents node →
    JsMap.get (nodes g) p = Some parent → (ts parent ≤ ts node)%Z.

(** The ids reached from [x], [x] included, along paths that avoid [V]. *)
Definition reachAvoiding (g : DKG) (V : list string) (x y : string) : Prop :=
  ∃ path, pathFromTo g x y path ∧ Forall (λ z, z ∉ V) path.

(** The number of forward edges that leave the ids of [l]. *)
Definition outEdges (g : DKG) (l : list string) : nat :=
  sum_list ((λ y, length (getChildren g y)) <$> l).

(** What a call of [count] on [id] with the visited ids [V] guarantees of the
    number [n] and the visited ids [V'] it returns: the ids added are distinct
    and new, each is reached from [id] outside [V], their children are all in
    [V'], and [n] is the number of edges leaving them. *)
Definition countPost (g : DKG) (id : string) (V : list string) (n : nat)
    (V' : list string) : Prop :=
  ∃ new, V' = V ++ new ∧ NoDup new ∧ (∀ y, y ∈ new → y ∉ V) ∧
         (∀ y, y ∈ new → reachAvoiding g V id y) ∧
         (∀ u c, u ∈ new → childOf g u c → c ∈ V') ∧
         id ∈ V' ∧ n = outEdges g new.

(** [l] follows declared parents that are stored: each id is followed by one
    of the parents of its node, and that parent is a key of the store. *)
Fixpoint ancestry (g : DKG) (l : list string) : Prop :=
  match l with
  | x :: (y :: _) as rest =>
      parentOf g x y ∧ y ∈ JsMap.keys (nodes g) ∧ ancestry g rest
  | _ => True
  end.

(** The unit roundoff of binary64. *)
Definition unitRoundoff : Q := pow2 (-53).

Definition natQ (n : nat) : Q := inject_Z (Z.of_nat n).

(** The exact sum of a list of rationals. *)
Definition sumQ (l : list Q) : Q := foldr Qplus 0%Q l.

(** [q] is a binary64 value. *)
Definition representable (q : Q) : Prop := (round q == q)%Q.

(** [v] is a finite binary64 value between [lo] and [hi]. *)
Definition finiteIn (lo hi : Q) (v : number) : Prop :=
  ∃ q, v = Fin q ∧ (lo <= q)%Q ∧ (q <= hi)%Q ∧ representable q.

(** What holds of an accumulated contribution after [k] nodes: it is a
    binary64 value of at least 1 whose size is bounded through [k]. *)
Definition boundedContribution (k : nat) (v : number) : Prop :=
  ∃ q, v = Fin q ∧ (1 <= q)%Q ∧ representable q ∧
       (q * (1 - natQ k * unitRoundoff) <= natQ k * pow2 52)%Q.

(** [v] is a finite number of at least 1, or [+Infinity]. *)
Definition atLeastOne (v : number) : Prop :=
  (∃ q, v = Fin q ∧ (1 <= q)%Q) ∨ v = PosInf.

(** The weights of the nodes of an agent, added up in insertion order. *)
Definition agentWeight (g : DKG) (agent : string) : number :=
  foldl fadd (Fin 0)
        ((λ e, nodeWeight g e.1) <$>
         filter (λ e, agentKey e.2 = agent) (JsMap.entries (nodes g))).

(** * Properties *)

(** ** Basic facts on [JsMap] *)

Section JsMapFacts.
Context {V : Type}.
Implicit Types (m : JsMap.t V) (k : string) (v : V).

Lemma JsMap_get_set_eq m k v : JsMap.get (JsMap.set m k v) k = Some v.
Proof.
  induction m as [|[k' v'] m IH]; simpl.
  - by rewrite decide_True.
  - destruct (decide (k' = k)) as [->|Hne]; simpl.
    + by rewrite decide_True.
    + by rewrite decide_False.
Qed.

Lemma JsMap_get_set_ne m k k' v :
  k ≠ k' → JsMap.get (JsMap.set m k v) k' = JsMap.get m k'.
Proof.
  intros Hne. induction m as [|[k0 v0] m IH]; simpl.
  - by rewrite decide_False.
  - destruct (decide (k0 = k)) as [->|Hne0]; simpl.
    + by rewrite !decide_False.
    + by rewrite IH.
Qed.

Lemma JsMap_get_Some_elem m k v : JsMap.get m k = Some v → (k, v) ∈ m.
Proof.
  induction m as [|[k0 v0] m IH]; simpl; [done|].
  destruct (decide (k0 = k)) as [->|Hne]; intros H.
  - injection H as ->. left.
  - right. auto.
Qed.

Lemma JsMap_get_Some_key m k v : JsMap.get m k = Some v → k ∈ JsMap.keys m.
Proof.
  intros H%JsMap_get_Some_elem. unfold JsMap.keys.
  apply list_elem_of_fmap. by exists (k, v).
Qed.

Lemma JsMap_get_None m k : JsMap.get m k = None ↔ k ∉ JsMap.keys m.
Proof.
  unfold JsMap.keys. induction m as [|[k0 v0] m IH]; simpl.
  - split; [intros _; apply not_elem_of_nil | done].
  - rewrite not_elem_of_cons. destruct (decide (k0 = k)) as [->|Hne].
    + split; [done | intros [? _]; done].
    + rewrite IH. split; [intros ?; split; [congruence | done] | by intros [_ ?]].
Qed.

Lemma JsMap_key_get m k : k ∈ JsMap.keys m → is_Some (JsMap.get m k).
Proof.
  intros Hin. destruct (JsMap.get m k) eqn:E; [by eexists|].
  by apply JsMap_get_None in E.
Qed.

Lemma JsMap_has_true m k : JsMap.has m k = true ↔ k ∈ JsMap.keys m.
Proof.
  unfold JsMap.has. destruct (JsMap.get m k) eqn:E.
  - split; [intros _; by eapply JsMap_get_Some_key | done].
  - apply JsMap_get_None in E. split; [done | intros; done].
Qed.

Lemma JsMap_elem_get m k v :
  NoDup (JsMap.keys m) → (k, v) ∈ m → JsMap.get m k = Some v.
Proof.
  unfold JsMap.keys. induction m as [|[k0 v0] m IH]; simpl.
  - intros _ H. by apply elem_of_nil in H.
  - intros [Hk0 Hnd]%NoDup_cons [Heq|Hin]%elem_of_cons.
    + injection Heq as -> ->. by rewrite decide_True.
    + destruct (decide (k0 = k)) as [->|Hne]; [|auto].
      exfalso. apply Hk0. apply list_elem_of_fmap. by exists (k, v).
Qed.

Lemma JsMap_keys_set_present m k v :
  k ∈ JsMap.keys m → JsMap.keys (JsMap.set m k v) = JsMap.keys m.
Proof.
  unfold JsMap.keys. induction m as [|[k0 v0] m IH]; simpl.
  - intros H. by apply elem_of_nil in H.
  - intros Hin. destruct (decide (k0 = k)) as [->|Hne]; simpl; [done|].
    f_equal. apply IH. apply elem_of_cons in Hin as [?|?]; [congruence|done].
Qed.

Lemma JsMap_keys_set_fresh m k v :
  k ∉ JsMap.keys m → JsMap.keys (JsMap.set m k v) = JsMap.keys m ++ [k].
Proof.
  unfold JsMap.keys. induction m as [|[k0 v0] m IH]; simpl; [done|].
  intros [Hne Hnin]%not_elem_of_cons.
  rewrite decide_False by congruence. simpl. f_equal. by apply IH.
Qed.

Lemma JsMap_set_NoDup m k v :
  NoDup (JsMap.keys m) → NoDup (JsMap.keys (JsMap.set m k v)).
Proof.
  intros Hnd. destruct (decide (k ∈ JsMap.keys m)) as [Hin|Hnin].
  - by rewrite JsMap_keys_set_present.
  - rewrite JsMap_keys_set_fresh by done.
    apply NoDup_app. split_and!; [done| |apply NoDup_singleton].
    intros x Hx ->%list_elem_of_singleton. done.
Qed.

End JsMapFacts.

(** ** Occurrences *)

Lemma occurrences_app x l1 l2 :
  occurrences x (l1 ++ l2) = occurrences x l1 + occurrences x l2.
Proof. unfold occurrences. by rewrite filter_app, length_app. Qed.

Lemma occurrences_cons x y l :
  occurrences x (y :: l) = (if decide (y = x) then 1 else 0) + occurrences x l.
Proof.
  unfold occurrences. destruct (decide (y = x)).
  - by rewrite filter_cons_True.
  - by rewrite filter_cons_False.
Qed.

Lemma occurrences_not_elem x l : x ∉ l → occurrences x l = 0.
Proof.
  induction l as [|y l IH]; [done|].
  intros [Hne Hnin]%not_elem_of_cons. rewrite occurrences_cons, IH by done.
  by rewrite decide_False by congruence.
Qed.

Lemma occurrences_NoDup x l : NoDup l → x ∈ l → occurrences x l = 1.
Proof.
  induction l as [|y l IH]; intros Hnd Hin.
  - by apply elem_of_nil in Hin.
  - apply NoDup_cons in Hnd as [Hy Hnd]. rewrite occurrences_cons.
    destruct (decide (y = x)) as [->|Hne].
    + by rewrite occurrences_not_elem.
    + apply elem_of_cons in Hin as [?|Hin]; [congruence|]. by rewrite IH.
Qed.

Lemma occurrences_pos x l : x ∈ l → 0 < occurrences x l.
Proof.
  induction l as [|y l IH]; intros Hin.
  - by apply elem_of_nil in Hin.
  - rewrite occurrences_cons. destruct (decide (y = x)); [lia|].
    apply elem_of_cons in Hin as [?|Hin]; [congruence|]. apply IH in Hin. lia.
Qed.

(** ** [addNode] *)

Lemma totalLength_sum es : totalLength es = sum_list (length <$> JsMap.values es).
Proof.
  unfold totalLength. generalize (JsMap.values es). intros l.
  cut (∀ a, foldl (λ sum (children : list string), sum + length children) a l
            = a + sum_list (length <$> l)).
  { intros H. by rewrite H. }
  induction l as [|c l IH]; intros a; simpl; [lia|].
  by rewrite IH, Nat.add_assoc.
Qed.

Lemma totalLength_cons k (cs : list string) es :
  totalLength ((k, cs) :: es) = length cs + totalLength es.
Proof. by rewrite !totalLength_sum. Qed.

Lemma totalLength_set_fresh es k (cs : list string) :
  k ∉ JsMap.keys es → totalLength (JsMap.set es k cs) = totalLength es + length cs.
Proof.
  unfold JsMap.keys. induction es as [|[k0 c0] es IH]; simpl.
  - intros _. rewrite totalLength_cons. by rewrite Nat.add_comm.
  - intros [Hne Hnin]%not_elem_of_cons. rewrite decide_False by congruence.
    rewrite !totalLength_cons, IH by done. lia.
Qed.

Lemma totalLength_set_present es k (old cs : list string) :
  JsMap.get es k = Some old →
  totalLength (JsMap.set es k cs) + length old = totalLength es + length cs.
Proof.
  induction es as [|[k0 c0] es IH]; simpl; [done|].
  destruct (decide (k0 = k)) as [->|Hne].
  - intros [= ->]. rewrite !totalLength_cons. lia.
  - intros H. rewrite !totalLength_cons. apply IH in H. lia.
Qed.

(** Effect of [addEdge] on one children list. *)
Lemma addEdge_get id es p q :
  JsMap.get (addEdge id es p) q =
  if decide (p = q) then Some (default [] (JsMap.get es p) ++ [id]) else JsMap.get es q.
Proof.
  unfold addEdge, JsMap.has. destruct (JsMap.get es p) as [cs|] eqn:Hp.
  - rewrite Hp. destruct (decide (p = q)) as [->|Hne].
    + by rewrite JsMap_get_set_eq.
    + by rewrite JsMap_get_set_ne.
  - rewrite JsMap_get_set_eq. destruct (decide (p = q)) as [->|Hne].
    + by rewrite JsMap_get_set_eq.
    + by rewrite !JsMap_get_set_ne.
Qed.

Lemma addEdge_totalLength id es p :
  totalLength (addEdge id es p) = S (totalLength es).
Proof.
  unfold addEdge, JsMap.has. destruct (JsMap.get es p) as [cs|] eqn:Hp.
  - rewrite Hp. pose proof (totalLength_set_present es p cs (cs ++ [id]) Hp) as H.
    rewrite length_app in H. simpl in H. lia.
  - rewrite JsMap_get_set_eq. apply JsMap_get_None in Hp.
    pose proof (totalLength_set_present (JsMap.set es p []) p [] [id]
                  (JsMap_get_set_eq _ _ _)) as H.
    rewrite (totalLength_set_fresh es p []) in H by done. simpl in H. simpl. lia.
Qed.

Lemma addEdges_children id ps es q :
  default [] (JsMap.get (foldl (addEdge id) es ps) q) =
  default [] (JsMap.get es q) ++ replicate (occurrences q ps) id.
Proof.
  revert es. induction ps as [|p ps IH]; intros es; simpl.
  - by rewrite app_nil_r.
  - rewrite IH, addEdge_get, occurrences_cons.
    destruct (decide (p = q)) as [->|Hne]; simpl.
    + by rewrite <-app_assoc.
    + done.
Qed.

Lemma addEdges_totalLength id ps es :
  totalLength (foldl (addEdge id) es ps) = totalLength es + length ps.
Proof.
  revert es. induction ps as [|p ps IH]; intros es; simpl; [lia|].
  rewrite IH, addEdge_totalLength. lia.
Qed.

Lemma getChildren_default g q : getChildren g q = default [] (JsMap.get (edges g) q).
Proof. unfold getChildren. by destruct (JsMap.get (edges g) q). Qed.

Lemma occurrences_replicate x n : occurrences x (replicate n x) = n.
Proof.
  induction n as [|n IH]; [done|]. simpl. rewrite occurrences_cons, IH.
  by rewrite decide_True.
Qed.

Lemma addNode_children g node nodeId q :
  getChildren (addNode g node nodeId).1 q =
  getChildren g q ++ replicate (occurrences q (parents node)) (resolveId node nodeId).
Proof. rewrite !getChildren_default. simpl. apply addEdges_children. Qed.

Lemma addNode_edgeCount g node nodeId :
  edgeCount (addNode g node nodeId).1 = edgeCount g + length (parents node).
Proof. unfold edgeCount. simpl. apply addEdges_totalLength. Qed.

Lemma addNode_keys_NoDup g node nodeId :
  NoDup (JsMap.keys (nodes g)) → NoDup (JsMap.keys (nodes (addNode g node nodeId).1)).
Proof. simpl. apply JsMap_set_NoDup. Qed.

Lemma addNode_key g node nodeId :
  resolveId node nodeId ∈ JsMap.keys (nodes (addNode g node nodeId).1).
Proof. simpl. eapply JsMap_get_Some_key, JsMap_get_set_eq. Qed.

(** In a store built by [addNode] the keys are distinct and no root is
    listed twice. *)
Lemma built_wf g : built g → NoDup (JsMap.keys (nodes g)) ∧ NoDup (rootNodes g).
Proof.
  induction 1 as [|g node nodeId _ [IHk IHr]]; [split; apply NoDup_nil_2|].
  split; [by apply addNode_keys_NoDup|]. simpl.
  destruct (decide (length (parents node) = 0)); [|done].
  destruct (decide (resolveId node nodeId ∈ rootNodes g)) as [|Hnin]; [done|].
  apply NoDup_app. split_and!; [done| |apply NoDup_singleton].
  intros x Hx ->%list_elem_of_singleton. done.
Qed.

(** C10. Adding a node twice (two nodes with the same id and parent list) is
    not idempotent on the edges: the node map keeps exactly one entry for the
    id, every children list gains the id twice for each occurrence of its
    owner among the parents (so a parent listed once holds the id twice when
    it did not hold it before), the audit's edge count grows by twice the
    number of parents, and a parentless node is listed once among the roots. *)
Theorem addNode_twice_duplicates_edges
    (g : DKG) (n1 n2 : DKGNode) (nodeId1 nodeId2 : option string) :
  NoDup (JsMap.keys (nodes g)) →
  (occurrences (resolveId n1 nodeId1) (rootNodes g) ≤ 1)%nat →
  resolveId n2 nodeId2 = resolveId n1 nodeId1 →
  parents n2 = parents n1 →
  let id := resolveId n1 nodeId1 in
  let g2 := (addNode (addNode g n1 nodeId1).1 n2 nodeId2).1 in
  occurrences id (JsMap.keys (nodes g2)) = 1 ∧
  (∀ p, occurrences id (getChildren g2 p) =
        occurrences id (getChildren g p) + 2 * occurrences p (parents n1)) ∧
  (∀ p, p ∈ parents n1 → (2 ≤ occurrences id (getChildren g2 p))%nat) ∧
  edgeCount g2 = edgeCount g + 2 * length (parents n1) ∧
  reportEdgeCount (auditCausality g2) = edgeCount g + 2 * length (parents n1) ∧
  (parents n1 = [] → occurrences id (rootNodes g2) = 1).
Proof.
  intros Hnd Hroot Hid Hps id g2.
  assert (Hchildren : ∀ p, occurrences id (getChildren g2 p) =
            occurrences id (getChildren g p) + 2 * occurrences p (parents n1)).
  { intros p. unfold g2. rewrite !addNode_children, Hid, Hps.
    rewrite !occurrences_app, !occurrences_replicate. lia. }
  assert (Hcount : edgeCount g2 = edgeCount g + 2 * length (parents n1)).
  { unfold g2. rewrite !addNode_edgeCount, Hps. lia. }
  split_and!; try done.
  - apply occurrences_NoDup.
    + by do 2 apply addNode_keys_NoDup.
    + unfold id. rewrite <-Hid. apply addNode_key.
  - intros p Hp%occurrences_pos. rewrite Hchildren. lia.
  - intros Hnil. unfold g2. simpl. rewrite Hps, Hnil, Hid. simpl. fold id.
    destruct (decide (id ∈ rootNodes g)) as [Hin|Hnin].
    + rewrite decide_True by done. apply occurrences_pos in Hin. fold id in Hroot. lia.
    + rewrite decide_True by (apply elem_of_app; right; left).
      rewrite occurrences_app, occurrences_not_elem by done.
      rewrite occurrences_cons, decide_True by done. done.
Qed.

Lemma addNode_twice_duplicates_edges_witness :
  let n := mkDKGNode "A" "" 1 "c" [] "h" ["p"] None None None "message" in
  let g2 := (addNode (addNode DKG_new n None).1 n None).1 in
  occurrences "c" (JsMap.keys (nodes g2)) = 1 ∧
  occurrences "c" (getChildren g2 "p") = 2 ∧
  edgeCount g2 = 2.
Proof.
  intros n g2.
  destruct (addNode_twice_duplicates_edges DKG_new n n None None)
    as (H1 & H2 & _ & H3 & _).
  - apply NoDup_nil_2.
  - vm_compute. lia.
  - reflexivity.
  - reflexivity.
  - split_and!; [exact H1 | exact (H2 "p") | exact H3].
Defined.
(** ** Canonical serialisation *)

Lemma sortStrings_Permutation l : sortStrings l ≡ₚ l.
Proof. apply merge_sort_Permutation. Qed.

Lemma sortStrings_Sorted l : Sorted String.le (sortStrings l).
Proof. apply (Sorted_merge_sort String.le). Qed.

(** Sorting forgets the order of its input. *)
Lemma sortStrings_perm l1 l2 : l1 ≡ₚ l2 → sortStrings l1 = sortStrings l2.
Proof.
  intros Hp. apply (Sorted_unique String.le); try apply sortStrings_Sorted.
  by rewrite !sortStrings_Permutation.
Qed.

Section HashFacts.
Variable keccak256 : string → string.

(** C6. The canonical hash of a node does not depend on the order of its
    parents: replacing the parent list by any permutation of it leaves the
    hash unchanged. *)
Theorem computeCanonicalHash_parent_order (n : DKGNode) (ps : list string) :
  parents n ≡ₚ ps →
  computeCanonicalHash keccak256 (withParents n ps) = computeCanonicalHash keccak256 n.
Proof.
  intros Hp. unfold computeCanonicalHash, canonical, canonicalFields. simpl.
  by rewrite (sortStrings_perm _ _ Hp).
Qed.

End HashFacts.

Lemma computeCanonicalHash_parent_order_witness :
  let n := mkDKGNode "A" "" 3 "d" [] "h" ["c"; "b"; "a"] None None None "message" in
  computeCanonicalHash (λ s, s) (withParents n ["b"; "a"; "c"]) =
  computeCanonicalHash (λ s, s) n.
Proof.
  intros n. apply computeCanonicalHash_parent_order.
  apply (bool_decide_unpack _). vm_compute. reflexivity.
Defined.
Lemma sepFree_cons c s : sepFree (String c s) ↔ c ≠ "|"%char ∧ sepFree s.
Proof.
  simpl. rewrite andb_True, negb_True.
  destruct (Ascii.eqb_spec c "|") as [->|Hne]; simpl; tauto.
Qed.

Lemma sepFree_app a b : sepFree (a +:+ b) ↔ sepFree a ∧ sepFree b.
Proof.
  induction a as [|c a IH].
  - simpl. tauto.
  - change (String c a +:+ b) with (String c (a +:+ b)).
    rewrite !sepFree_cons, IH. tauto.
Qed.

(** A separator-free prefix is determined by the text that follows it. *)
Lemma sep_split_unique a a' r r' :
  sepFree a → sepFree a' → a +:+ "|" +:+ r = a' +:+ "|" +:+ r' → a = a' ∧ r = r'.
Proof.
  revert a'. induction a as [|c a IH]; intros [|c' a'] Ha Ha' Heq.
  - simpl in Heq. by injection Heq.
  - apply sepFree_cons in Ha' as [Hc' _]. simpl in Heq. injection Heq as <- _. done.
  - apply sepFree_cons in Ha as [Hc _]. simpl in Heq. injection Heq as -> _. done.
  - apply sepFree_cons in Ha as [_ Ha]. apply sepFree_cons in Ha' as [_ Ha'].
    simpl in Heq. injection Heq as -> Heq.
    destruct (IH a' Ha Ha' Heq) as [-> ->]. done.
Qed.

Lemma sepFree_no_sep a a' r : sepFree a → a ≠ a' +:+ "|" +:+ r.
Proof.
  intros Ha ->. apply sepFree_app in Ha as [_ Ha]. by simpl in Ha.
Qed.

Lemma join_cons_cons sep x y l : join sep (x :: y :: l) = x +:+ sep +:+ join sep (y :: l).
Proof. done. Qed.

Lemma app_empty_inv (a b : string) : a +:+ b = "" → a = "".
Proof. by destruct a. Qed.

(** Joining separator-free, non-empty items is injective. *)
Lemma join_inj l l' :
  Forall (λ p, sepFree p ∧ p ≠ "") l → Forall (λ p, sepFree p ∧ p ≠ "") l' →
  join "|" l = join "|" l' → l = l'.
Proof.
  intros Hl. revert l'. induction Hl as [|x l [Hx Hxne] Hl IH]; intros l' Hl' Heq.
  - destruct Hl' as [|x' l' [_ Hne'] Hl']; [done|]. exfalso.
    destruct l' as [|y' l'].
    + simpl in Heq. congruence.
    + rewrite join_cons_cons in Heq. symmetry in Heq. by apply app_empty_inv in Heq.
  - destruct Hl' as [|x' l' [Hx' Hxne'] Hl'].
    + exfalso. destruct l as [|y l].
      * simpl in Heq. congruence.
      * rewrite join_cons_cons in Heq. by apply app_empty_inv in Heq.
    + destruct l as [|y l], l' as [|y' l'].
      * simpl in Heq. by subst.
      * exfalso. rewrite join_cons_cons in Heq. change (join "|" [x]) with x in Heq.
        exact (sepFree_no_sep _ _ _ Hx Heq).
      * exfalso. rewrite join_cons_cons in Heq. change (join "|" [x']) with x' in Heq.
        symmetry in Heq. exact (sepFree_no_sep _ _ _ Hx' Heq).
      * rewrite !join_cons_cons in Heq.
        apply sep_split_unique in Heq as [-> Heq]; [|done..].
        f_equal. by apply IH.
Qed.

(** The decimal representation of an integer has no separator. *)
Lemma pretty_N_char_sepFree x s : sepFree s → sepFree (String (pretty_N_char x) s).
Proof.
  intros Hs. apply sepFree_cons. split; [|done].
  unfold pretty_N_char. by repeat case_match.
Qed.

Lemma pretty_N_go_sepFree x s : sepFree s → sepFree (pretty_N_go x s).
Proof.
  revert s. induction (N.lt_wf_0 x) as [x _ IH]; intros s Hs.
  assert (x = 0 ∨ 0 < x)%N as [->|Hpos] by lia.
  - by rewrite pretty_N_go_0.
  - rewrite pretty_N_go_step by done. apply IH.
    + by apply N.div_lt.
    + by apply pretty_N_char_sepFree.
Qed.

Lemma pretty_N_sepFree (x : N) : sepFree (pretty x).
Proof.
  unfold pretty, pretty_N. case_decide; [done|]. by apply pretty_N_go_sepFree.
Qed.

Lemma pretty_Z_sepFree (z : Z) : sepFree (pretty z).
Proof.
  destruct z as [|p|p]; unfold pretty, pretty_Z; [done|..].
  - apply pretty_N_sepFree.
  - apply sepFree_cons. split; [done|]. apply pretty_N_sepFree.
Qed.

Lemma canonical_unfold n :
  canonical n = author n +:+ "|" +:+ pretty (ts n) +:+ "|" +:+ xmtpMsgId n ++ "|" ++
                payloadHash n +:+ "|" +:+ join "|" (sortStrings (parents n)).
Proof. done. Qed.

Lemma separable_sorted n :
  separable n → Forall (λ p, sepFree p ∧ p ≠ "") (sortStrings (parents n)).
Proof. intros (_ & _ & _ & H). by rewrite sortStrings_Permutation. Qed.

(** C5 (amended). For nodes whose author, id, payload fingerprint and parent
    ids contain no separator and whose parent ids are non-empty, the
    serialisation that is hashed determines the tuple of hashed fields: two
    such nodes with different tuples have different serialisations, and in
    particular nodes whose sorted parent lists differ have different
    serialisations. *)
Theorem canonical_unambiguous (n1 n2 : DKGNode) :
  separable n1 → separable n2 →
  (hashedTuple n1 ≠ hashedTuple n2 → canonical n1 ≠ canonical n2) ∧
  (sortStrings (parents n1) ≠ sortStrings (parents n2) → canonical n1 ≠ canonical n2).
Proof.
  intros H1 H2.
  assert (Hinj : canonical n1 = canonical n2 → hashedTuple n1 = hashedTuple n2).
  { intros Heq. rewrite !canonical_unfold in Heq.
    pose proof (separable_sorted _ H1) as Hp1.
    pose proof (separable_sorted _ H2) as Hp2.
    destruct H1 as (Ha1 & Hi1 & Hh1 & _), H2 as (Ha2 & Hi2 & Hh2 & _).
    apply sep_split_unique in Heq as [Ea Heq]; [|done..].
    apply sep_split_unique in Heq as [Et Heq]; [|apply pretty_Z_sepFree..].
    apply sep_split_unique in Heq as [Ei Heq]; [|done..].
    apply sep_split_unique in Heq as [Eh Heq]; [|done..].
    apply join_inj in Heq; [|done..].
    unfold hashedTuple. by rewrite Ea, Et, Ei, Eh, Heq. }
  split.
  - intros Hne Heq. by apply Hne, Hinj.
  - intros Hne Heq. apply Hinj in Heq. unfold hashedTuple in Heq.
    by injection Heq.
Qed.

Lemma canonical_unambiguous_witness :
  let n1 := mkDKGNode "A" "" 3 "d" [] "h" ["b"; "c"] None None None "message" in
  let n2 := mkDKGNode "A" "" 3 "d" [] "h" ["b"] None None None "message" in
  canonical n1 ≠ canonical n2.
Proof.
  intros n1 n2.
  refine (proj1 (canonical_unambiguous n1 n2 _ _) _).
  - unfold separable. simpl. repeat split; repeat constructor; done.
  - unfold separable. simpl. repeat split; repeat constructor; done.
  - vm_compute. discriminate.
Defined.

(** C5, as stated, fails: the fields are arbitrary strings, so the separator
    can occur inside one of them, and an empty parent id is serialised like
    no parent at all.  In both cases two nodes with different tuples (and
    different parentage) have the same serialisation. *)
Lemma canonical_ambiguous :
  let n1 := mkDKGNode "A" "" 3 "d" [] "h" ["q"; "r"] None None None "message" in
  let n2 := mkDKGNode "A" "" 3 "d" [] "h" ["q|r"] None None None "message" in
  let n3 := mkDKGNode "A" "" 3 "d" [] "h" [] None None None "message" in
  let n4 := mkDKGNode "A" "" 3 "d" [] "h" [""] None None None "message" in
  (hashedTuple n1 ≠ hashedTuple n2 ∧ canonical n1 = canonical n2) ∧
  (hashedTuple n3 ≠ hashedTuple n4 ∧ canonical n3 = canonical n4).
Proof. vm_compute. repeat split; discriminate. Qed.
(** ** Thread root *)

Section ThreadRoot.
Variable keccak256 : string → string.


Lemma nth_after (pre : list string) x l i :
  length pre = i → nth i (pre ++ x :: l) "" = x.
Proof. intros <-. apply nth_middle. Qed.

Lemma nth_after_next (pre : list string) x y l i :
  length pre + 1 = i → nth i (pre ++ x :: y :: l) "" = y.
Proof.
  intros <-. replace (pre ++ x :: y :: l) with ((pre ++ [x]) ++ y :: l)
    by (by rewrite <-app_assoc).
  apply nth_after. rewrite length_app. simpl. lia.
Qed.

(** The loop over [i = 2a, 2a+2, ...] on [pre ++ l], where [pre] holds the
    [2a] elements already consumed, appends [hashPairs keccak256 l]. *)
Lemma pairLoop_hashPairs n : ∀ l pre a acc,
  length l ≤ n → length pre = 2 * a →
  foldl (pairStep keccak256 (pre ++ l)) acc ((λ k, 2 * k) <$> seq a (Nat.div2 (S (length l))))
  = acc ++ hashPairs keccak256 l.
Proof.
  induction n as [|n IH]; intros l pre a acc Hn Hpre.
  - destruct l; [|simpl in Hn; lia]. simpl. by rewrite app_nil_r.
  - destruct l as [|x [|y l]].
    + simpl. by rewrite app_nil_r.
    + simpl. unfold pairStep. rewrite length_app. simpl.
      rewrite decide_False by lia.
      rewrite nth_after by lia. done.
    + change (Nat.div2 (S (length (x :: y :: l)))) with (S (Nat.div2 (S (length l)))).
      simpl seq. rewrite fmap_cons. simpl foldl.
      replace (pre ++ x :: y :: l) with ((pre ++ [x; y]) ++ l)
        by (by rewrite <-app_assoc).
      rewrite (IH l (pre ++ [x; y]) (S a)).
      * unfold pairStep. rewrite !length_app. simpl length.
        rewrite decide_True by lia.
        rewrite <-(app_assoc pre [x; y] l). simpl app.
        rewrite nth_after by lia. rewrite nth_after_next by lia.
        by rewrite <-app_assoc.
      * simpl in Hn. lia.
      * rewrite length_app. simpl. lia.
Qed.

(** One round of the source is one round of the specification. *)
Lemma pairRound_hashPairs l : pairRound keccak256 l = hashPairs keccak256 l.
Proof.
  unfold pairRound, pairIndices.
  exact (pairLoop_hashPairs (length l) l [] 0 [] (le_n _) eq_refl).
Qed.

Lemma hashPairs_length_lt l : 1 < length l → length (hashPairs keccak256 l) < length l.
Proof.
  remember (length l) as n eqn:Hn. revert l Hn.
  induction (lt_wf n) as [n _ IH]; intros l -> Hlen.
  destruct l as [|x [|y l]]; simpl in *; try lia.
  destruct l as [|z [|w l]]; simpl in *; try lia.
  specialize (IH (S (S (length l))) ltac:(lia) (z :: w :: l) eq_refl ltac:(simpl; lia)).
  simpl in IH. lia.
Qed.

Lemma hashPairs_nonempty l : l ≠ [] → hashPairs keccak256 l ≠ [].
Proof. by destruct l as [|x [|y l]]. Qed.

(** The [while] loop stops, with fuel to spare, on the digest the
    specification describes. *)
Lemma reduceLoop_foldsTo fuel l :
  l ≠ [] → length l ≤ fuel →
  ∃ root, reduceLoop keccak256 fuel l = Some [root] ∧ foldsTo keccak256 l root.
Proof.
  revert l. induction fuel as [|fuel IH]; intros l Hne Hlen.
  - destruct l; [done | simpl in Hlen; lia].
  - simpl. destruct (decide (1 < length l)) as [Hgt|Hle].
    + rewrite pairRound_hashPairs.
      destruct (IH (hashPairs keccak256 l)) as (root & Hrun & k & Hk & Hmin).
      { by apply hashPairs_nonempty. }
      { pose proof (hashPairs_length_lt l Hgt). lia. }
      exists root. split; [done|]. exists (S k). split.
      * by rewrite Nat.iter_succ_r.
      * intros [|j] Hj; [done|]. rewrite Nat.iter_succ_r. apply Hmin. lia.
    + destruct l as [|x [|y l]]; [done| |simpl in Hle; lia].
      exists x. split; [done|]. exists 0. split; [done|]. intros j Hj. lia.
Qed.

Lemma foldsTo_unique l r1 r2 : foldsTo keccak256 l r1 → foldsTo keccak256 l r2 → r1 = r2.
Proof.
  intros (k1 & H1 & M1) (k2 & H2 & M2).
  destruct (Nat.lt_trichotomy k1 k2) as [Hlt|[->|Hlt]].
  - specialize (M2 k1 Hlt). rewrite H1 in M2. simpl in M2. lia.
  - rewrite H1 in H2. by injection H2.
  - specialize (M1 k2 Hlt). rewrite H2 in M1. simpl in M1. lia.
Qed.

Lemma ZeroHash_zero :
  String.length ZeroHash = 32 ∧ Forall (λ c, c = zero) (list_ascii_of_string ZeroHash).
Proof. split; [done|]. vm_compute. repeat constructor. Qed.

Lemma computeThreadRoot_sorted g sorted :
  topologicalSort g = inr sorted → sorted ≠ [] →
  ∃ root, computeThreadRoot keccak256 g = inr root ∧
          foldsTo keccak256 (computeCanonicalHash keccak256 <$> sorted) root.
Proof.
  intros Hsort Hne. unfold computeThreadRoot. rewrite Hsort.
  rewrite decide_False by (by destruct sorted).
  set (hashes := computeCanonicalHash keccak256 <$> sorted).
  assert (Hh : hashes ≠ []) by (by destruct sorted).
  destruct (reduceLoop_foldsTo (S (length hashes)) hashes Hh) as (root & Hrun & Hfold);
    [lia|].
  destruct (decide (length hashes = 1)) as [H1|H1].
  - destruct hashes as [|h [|??]] eqn:E; try done. simpl.
    exists h. split; [done|]. exists 0. split; [done|]. intros; lia.
  - rewrite Hrun. simpl. eauto.
Qed.


Lemma topologicalSort_empty g : nodes g = [] → topologicalSort g = inr [].
Proof.
  intros Hn. unfold topologicalSort, sortRun, sortLoop, sortFuel. by rewrite Hn.
Qed.

Lemma topologicalSort_single g id n :
  nodes g = [(id, n)] → parents n = [] → topologicalSort g = inr [n].
Proof.
  intros Hn Hp. unfold topologicalSort, sortRun, sortLoop, sortFuel.
  rewrite Hn. simpl. unfold visitIfNew. simpl. rewrite Hn. simpl.
  rewrite decide_True by done. by rewrite Hp.
Qed.

(** C1 (amended). [computeThreadRoot] returns the digest of thirty-two zero
    bytes on the empty graph; it fails with the error of [topologicalSort]
    when the sort fails; on a graph whose single node has no parents, and
    whenever the sort returns one node, it returns that node's canonical
    hash; and when the sort returns more nodes it returns the digest obtained
    from their canonical hashes by rounds of hashing adjacent pairs from the
    left, an unpaired last element being carried over, until one digest
    remains. *)
Theorem computeThreadRoot_spec (g : DKG) :
  (nodes g = [] →
   computeThreadRoot keccak256 g = inr ZeroHash ∧ String.length ZeroHash = 32 ∧
   Forall (λ c, c = zero) (list_ascii_of_string ZeroHash)) ∧
  (∀ e, topologicalSort g = inl e → computeThreadRoot keccak256 g = inl e) ∧
  (∀ id n, nodes g = [(id, n)] → parents n = [] →
           computeThreadRoot keccak256 g = inr (computeCanonicalHash keccak256 n)) ∧
  (∀ n, topologicalSort g = inr [n] →
        computeThreadRoot keccak256 g = inr (computeCanonicalHash keccak256 n)) ∧
  (∀ sorted, topologicalSort g = inr sorted → 1 < length sorted →
     ∃ root, computeThreadRoot keccak256 g = inr root ∧
             foldsTo keccak256 (computeCanonicalHash keccak256 <$> sorted) root).
Proof.
  assert (Hone : ∀ n, topologicalSort g = inr [n] →
            computeThreadRoot keccak256 g = inr (computeCanonicalHash keccak256 n)).
  { intros n Hs. unfold computeThreadRoot. by rewrite Hs. }
  split_and!.
  - intros Hn. split; [|apply ZeroHash_zero].
    unfold computeThreadRoot. by rewrite (topologicalSort_empty g Hn).
  - intros e He. unfold computeThreadRoot. by rewrite He.
  - intros id n Hn Hp. apply Hone. by eapply topologicalSort_single.
  - exact Hone.
  - intros sorted Hs Hlen. apply computeThreadRoot_sorted; [done|].
    intros ->. simpl in Hlen. lia.
Qed.

End ThreadRoot.

(** C1, as stated, fails on a single-node graph whose node names a parent:
    the sort throws and so does [computeThreadRoot]. *)
Lemma computeThreadRoot_single_node_throws :
  let n := mkDKGNode "A" "" 1 "a" [] "h" ["ghost"] None None None "message" in
  let g := (addNode DKG_new n None).1 in
  nodes g = [("a", n)] ∧
  computeThreadRoot (λ s, s) g = inl (NodeNotFound "ghost") ∧
  computeThreadRoot (λ s, s) g ≠ inr (computeCanonicalHash (λ s, s) n).
Proof. vm_compute. repeat split; discriminate. Qed.
(** ** Causal audit *)

Lemma foldl_collect {A} (step : list string → A → list string) (f : A → list string)
    (l : list A) (acc : list string) :
  (∀ acc x, step acc x = acc ++ f x) →
  foldl step acc l = acc ++ (l ≫= f).
Proof.
  intros Hstep. revert acc. induction l as [|x l IH]; intros acc; simpl.
  - by rewrite app_nil_r.
  - by rewrite IH, Hstep, <-app_assoc.
Qed.

Lemma fmap_list_bind {A B C} (f : B → C) (h : A → list B) (l : list A) :
  f <$> (l ≫= h) = l ≫= (λ x, f <$> h x).
Proof. induction l as [|x l IH]; [done|]. by rewrite !bind_cons, fmap_app, IH. Qed.

Lemma checkParents_missingRefs g acc :
  checkParents g acc =
  acc ++ ((λ r, missingParentIssue r.1 r.2) <$> missingRefs g).
Proof.
  unfold checkParents, missingRefs, JsMap.entries.
  rewrite (foldl_collect _
    (λ e, (λ r, missingParentIssue r.1 r.2) <$>
          (p ← filter (λ p, p ∉ JsMap.keys (nodes g)) (parents e.2); [(e.1, p)]))).
  - by rewrite fmap_list_bind.
  - intros a e.
    rewrite (foldl_collect _
      (λ p, if JsMap.has (nodes g) p then [] else [missingParentIssue e.1 p])).
    + f_equal. induction (parents e.2) as [|p ps IH]; [done|]. rewrite bind_cons.
      destruct (JsMap.has (nodes g) p) eqn:Hhas.
      * rewrite JsMap_has_true in Hhas.
        rewrite filter_cons_False by (by intros ?). done.
      * assert (p ∉ JsMap.keys (nodes g)) as Hnin.
        { rewrite <-JsMap_has_true. by rewrite Hhas. }
        rewrite filter_cons_True by done. by rewrite bind_cons, fmap_app, <-IH.
    + intros a' p. destruct (JsMap.has (nodes g) p); [by rewrite app_nil_r | done].
Qed.

Lemma checkTimestamps_violations g acc :
  checkTimestamps g acc =
  acc ++ ((λ v, timestampIssue v.1.1 v.1.2 v.2.1 v.2.2) <$> timestampViolations g).
Proof.
  unfold checkTimestamps, timestampViolations, JsMap.entries.
  rewrite (foldl_collect _
    (λ e, (λ v, timestampIssue v.1.1 v.1.2 v.2.1 v.2.2) <$>
          (p ← parents e.2;
           match JsMap.get (nodes g) p with
           | Some parent =>
               if decide (ts parent > ts e.2)%Z then [(e, (p, parent))] else []
           | None => []
           end))).
  - by rewrite fmap_list_bind.
  - intros a e.
    rewrite (foldl_collect _
      (λ p, match JsMap.get (nodes g) p with
            | Some parent =>
                if decide (ts parent > ts e.2)%Z
                then [timestampIssue e.1 e.2 p parent] else []
            | None => []
            end)).
    + f_equal. induction (parents e.2) as [|p ps IH]; [done|].
      rewrite !bind_cons, fmap_app, IH. f_equal.
      destruct (JsMap.get (nodes g) p); [|done]. by case_decide.
    + intros a' p. destruct (JsMap.get (nodes g) p); [|by rewrite app_nil_r].
      case_decide; [done | by rewrite app_nil_r].
Qed.

(** The issues of the audit, in the order they are pushed. *)
Lemma auditCausality_issues_list (g : DKG) :
  issues (auditCausality g) =
    ((λ r, missingParentIssue r.1 r.2) <$> missingRefs g) ++
    ((λ v, timestampIssue v.1.1 v.1.2 v.2.1 v.2.2) <$> timestampViolations g) ++
    (match topologicalSort g with inl e => [cycleIssue e] | inr _ => [] end).
Proof.
  simpl. unfold checkCycles.
  rewrite checkTimestamps_violations, checkParents_missingRefs. simpl.
  destruct (topologicalSort g); [by rewrite <-app_assoc | by rewrite app_nil_r].
Qed.

Lemma auditCausality_passed (g : DKG) :
  passed (auditCausality g) = true ↔ issues (auditCausality g) = [].
Proof.
  unfold auditCausality at 1. simpl passed.
  rewrite bool_decide_eq_true. apply length_zero_iff_nil.
Qed.

(** X20. The issues of the audit are, in order: one entry per reference to
    a parent that is not stored, one entry per reference to a stored parent
    whose timestamp exceeds the child's, and one entry, labelled as a
    detected cycle, whenever the topological sort throws, be it for a cycle
    or for a parent that is not stored; nothing is skipped after a first
    violation.  [passed] holds exactly when there is no issue. *)
Theorem auditCausality_issues (g : DKG) :
  issues (auditCausality g) =
    ((λ r, missingParentIssue r.1 r.2) <$> missingRefs g) ++
    ((λ v, timestampIssue v.1.1 v.1.2 v.2.1 v.2.2) <$> timestampViolations g) ++
    (match topologicalSort g with inl e => [cycleIssue e] | inr _ => [] end) ∧
  length (issues (auditCausality g)) =
    length (missingRefs g) + length (timestampViolations g) +
    (match topologicalSort g with inl _ => 1 | inr _ => 0 end) ∧
  (passed (auditCausality g) = true ↔ issues (auditCausality g) = []).
Proof.
  split_and!.
  - apply auditCausality_issues_list.
  - rewrite auditCausality_issues_list, !length_app, !length_fmap.
    destruct (topologicalSort g); simpl; lia.
  - apply auditCausality_passed.
Qed.

(** Two instances: a dangling reference is reported once by the first loop
    and once more through the error of the sort, and a later parent listed
    twice by a child is reported twice. *)
Example auditCausality_instances :
  let mk := λ id t ps, mkDKGNode "A" "" t id [] "h" ps None None None "message" in
  let g := (addNode DKG_new (mk "a" 1%Z ["ghost"]) None).1 in
  let g' := (addNode (addNode DKG_new (mk "p" 5%Z []) None).1
               (mk "c" 1%Z ["p"; "p"]) None).1 in
  issues (auditCausality g) =
    ["Node a references missing parent ghost";
     "Cycle detected in DKG: Node ghost not found"] ∧
  issues (auditCausality g') =
    ["Node c has timestamp 1 before parent p (5)";
     "Node c has timestamp 1 before parent p (5)"].
Proof. vm_compute. by split. Qed.


(** ** Contribution weights *)

Lemma JsMap_set_fresh {V} (m : JsMap.t V) k v :
  k ∉ JsMap.keys m → JsMap.set m k v = m ++ [(k, v)].
Proof.
  unfold JsMap.keys. induction m as [|[k0 v0] m IH]; simpl; [done|].
  intros [Hne Hnin]%not_elem_of_cons.
  rewrite decide_False by congruence. by rewrite IH.
Qed.

Lemma JsMap_set_values_Forall {V} (P : V → Prop) (m : JsMap.t V) k v :
  Forall P (JsMap.values m) → P v → Forall P (JsMap.values (JsMap.set m k v)).
Proof.
  unfold JsMap.values. induction m as [|[k0 v0] m IH]; simpl; intros Hm Hv.
  - by constructor.
  - apply Forall_cons in Hm as [H0 Hm]. destruct (decide (k0 = k)); simpl.
    + by constructor.
    + constructor; [done|]. by apply IH.
Qed.

Lemma JsMap_get_values_Forall {V} (P : V → Prop) (m : JsMap.t V) k v :
  Forall P (JsMap.values m) → JsMap.get m k = Some v → P v.
Proof.
  intros Hm Hget%JsMap_get_Some_elem. rewrite Forall_forall in Hm. apply Hm.
  unfold JsMap.values. apply list_elem_of_fmap. by exists (k, v).
Qed.

Lemma JsMap_set_nonempty {V} (m : JsMap.t V) k v : JsMap.set m k v ≠ [].
Proof. destruct m as [|[k0 v0] m]; simpl; [done|]. by destruct (decide (k0 = k)). Qed.

(** Writing the entries of a map one by one into an empty map rebuilds it. *)
Lemma JsMap_rebuild {V W} (f : V → W) (m : JsMap.t V) (acc : JsMap.t W) :
  NoDup (JsMap.keys acc ++ JsMap.keys m) →
  foldl (λ w e, JsMap.set w e.1 (f e.2)) acc m = acc ++ ((λ e, (e.1, f e.2)) <$> m).
Proof.
  revert acc. induction m as [|[k v] m IH]; intros acc Hnd; simpl.
  - by rewrite app_nil_r.
  - unfold JsMap.keys in Hnd. simpl in Hnd.
    rewrite JsMap_set_fresh.
    + rewrite IH.
      * by rewrite <-app_assoc.
      * unfold JsMap.keys. rewrite fmap_app. simpl. rewrite <-app_assoc. done.
    + apply NoDup_app in Hnd as (_ & Hdisj & _). intros Hin.
      apply (Hdisj k Hin). left.
Qed.

(** ** Topological sort *)

(** A successful [forEach] establishes [I] of the whole list; a failing one
    fails at some element, from a state in which [I] held of the elements
    before it. *)
Lemma forEach_spec {E S A} (f : A → S → Run E S) (I : list A → S → Prop) ps st :
  I [] st →
  (∀ done x st st', I done st → x ∈ ps → f x st = Some (inr st') → I (done ++ [x]) st') →
  match forEach f ps st with
  | Some (inr st') => I ps st'
  | r => ∃ done x st1, I done st1 ∧ x ∈ ps ∧ f x st1 = r
  end.
Proof.
  intros Hinit Hstep.
  cut (∀ done rest st, I done st → done ++ rest = ps →
         match forEach f rest st with
         | Some (inr st') => I ps st'
         | r => ∃ done x st1, I done st1 ∧ x ∈ ps ∧ f x st1 = r
         end).
  { intros H. by apply (H [] ps st). }
  clear st Hinit. intros done rest. revert done.
  induction rest as [|x rest IH]; intros done st HI Heq; simpl.
  - rewrite app_nil_r in Heq. by subst.
  - assert (Hx : x ∈ ps).
    { rewrite <-Heq. apply elem_of_app. right. left. }
    destruct (f x st) as [[e|st']|] eqn:Hf.
    + exists done, x, st. done.
    + apply (IH (done ++ [x])).
      * by eapply Hstep.
      * by rewrite <-app_assoc.
    + exists done, x, st. done.
Qed.

Lemma visit_S fuel g x st :
  visit (S fuel) g x st =
  if decide (x ∈ visiting st) then Some (inl (CycleDetected x))
  else if decide (x ∈ visited st) then Some (inr st)
  else match JsMap.get (nodes g) x with
       | None => Some (inl (NodeNotFound x))
       | Some node =>
           match forEach (visit fuel g) (parents node)
                   {| visited := visited st; visiting := visiting st ++ [x];
                      result := result st |} with
           | Some (inr st2) =>
               Some (inr {| visited := visited st2 ++ [x];
                            visiting := filter (λ y, y ≠ x) (visiting st2);
                            result := result st2 ++ [node] |})
           | r => r
           end
       end.
Proof. done. Qed.

Lemma elem_of_snoc {A} (l : list A) (x y : A) : y ∈ l ++ [x] ↔ y ∈ l ∨ y = x.
Proof. by rewrite elem_of_app, list_elem_of_singleton. Qed.

Lemma filter_ne_snoc (x : string) l : x ∉ l → filter (λ y, y ≠ x) (l ++ [x]) = l.
Proof.
  intros Hx. rewrite filter_app, filter_cons_False, filter_nil, app_nil_r by (by intros ?).
  induction l as [|y l IH]; [done|].
  apply not_elem_of_cons in Hx as [Hne Hx].
  rewrite filter_cons_True by congruence. by rewrite IH.
Qed.

Lemma parentsFirst_snoc g V x :
  parentsFirst g V → (∀ p, parentOf g x p → p ∈ V) → parentsFirst g (V ++ [x]).
Proof.
  intros HV Hx i c p Hi Hp.
  destruct (decide (i < length V)) as [Hlt|Hge].
  - rewrite lookup_app_l in Hi by done.
    destruct (HV i c p Hi Hp) as (j & Hj & Hjp).
    exists j. split; [done|]. rewrite lookup_app_l by lia. done.
  - rewrite lookup_app_r in Hi by lia.
    destruct (i - length V) as [|k] eqn:Hk; [|by destruct k].
    simpl in Hi. injection Hi as <-.
    apply Hx, list_elem_of_lookup in Hp as [j Hj].
    exists j. split.
    + apply lookup_lt_Some in Hj. lia.
    + apply lookup_app_l_Some. done.
Qed.

Lemma sortInv_init g : sortInv g sortInit.
Proof.
  split; simpl.
  - apply NoDup_nil_2.
  - constructor.
  - intros i c p Hi. by rewrite lookup_nil in Hi.
  - intros x Hx. by apply elem_of_nil in Hx.
Qed.

(** A successful [visit] keeps the invariant, restores [visiting], and leaves
    its argument visited. *)
Lemma visit_post g fuel : ∀ x st st',
  sortInv g st → visit fuel g x st = Some (inr st') → visitPost g x st st'.
Proof.
  induction fuel as [|fuel IH]; intros x st st' Hinv Hrun; [done|].
  rewrite visit_S in Hrun.
  destruct (decide (x ∈ visiting st)) as [|Hnw]; [done|].
  destruct (decide (x ∈ visited st)) as [Hv|Hnv].
  { injection Hrun as <-. by split_and!. }
  destruct (JsMap.get (nodes g) x) as [node|] eqn:Hget; [|done].
  set (st1 := {| visited := visited st; visiting := visiting st ++ [x];
                 result := result st |}) in Hrun.
  pose proof (forEach_spec (visit fuel g)
    (λ done s, sortInv g s ∧ visiting s = visiting st1 ∧
               (∀ p, p ∈ done → p ∈ visited s) ∧ visited st ⊆ visited s)
    (parents node) st1) as Hloop.
  destruct (forEach (visit fuel g) (parents node) st1) as [[e|st2]|]; [done| |done].
  injection Hrun as <-.
  destruct Hloop as (Hinv2 & Hw2 & Hps & Hsub).
  { destruct Hinv as [H1 H2 H3 H4]. split_and!; [split; simpl; try done| done | | done].
    - intros y Hy [Hin| ->]%elem_of_snoc; [by eapply H4 | done].
    - intros p Hp. by apply elem_of_nil in Hp. }
  { intros done p s s' (Hs & Hw & Hdone & Hsub) _ Hvis.
    destruct (IH p s s' Hs Hvis) as (Hs' & Hw' & Hp' & Hsub').
    split_and!; [done | congruence | | set_solver].
    intros q [Hq| ->]%elem_of_snoc; [|done].
    apply Hsub'. by apply Hdone. }
  destruct Hinv2 as [H1 H2 H3 H4]. simpl in Hw2.
  assert (Hx2 : x ∉ visited st2).
  { intros Hin. apply (H4 x Hin). rewrite Hw2. apply elem_of_app. right. left. }
  unfold visitPost. simpl. split_and!.
  - split; simpl.
    + apply NoDup_app. split_and!; [done| |apply NoDup_singleton].
      intros y Hy ->%list_elem_of_singleton. done.
    + apply Forall2_app; [done|]. by constructor.
    + apply parentsFirst_snoc; [done|].
      intros p (node' & Hget' & Hp). rewrite Hget in Hget'. injection Hget' as <-.
      by apply Hps.
    + rewrite Hw2, filter_ne_snoc by done.
      intros y [Hy| ->]%elem_of_snoc; [|done].
      intros Hyw. apply (H4 y Hy). rewrite Hw2. apply elem_of_app. by left.
  - rewrite Hw2. by apply filter_ne_snoc.
  - apply elem_of_app. right. left.
  - intros y Hy. apply elem_of_app. left. by apply Hsub.
Qed.

Lemma visitIfNew_post g fuel x st st' :
  sortInv g st → visitIfNew fuel g x st = Some (inr st') → visitPost g x st st'.
Proof.
  unfold visitIfNew. intros Hinv Hrun.
  destruct (decide (x ∈ visited st)) as [Hv|Hnv]; [|by eapply visit_post].
  injection Hrun as <-. by split_and!.
Qed.

(** A successful run of the outer loop visits every key. *)
Lemma sortLoop_post g fuel st :
  sortLoop fuel g = Some (inr st) →
  sortInv g st ∧ visiting st = [] ∧ JsMap.keys (nodes g) ⊆ visited st.
Proof.
  unfold sortLoop. intros Hrun.
  pose proof (forEach_spec (visitIfNew fuel g)
    (λ done s, sortInv g s ∧ visiting s = [] ∧ (∀ p, p ∈ done → p ∈ visited s))
    (JsMap.keys (nodes g)) sortInit) as Hloop.
  rewrite Hrun in Hloop. apply Hloop.
  - split_and!; [apply sortInv_init | done |].
    intros p Hp. by apply elem_of_nil in Hp.
  - intros done p s s' (Hs & Hw & Hdone) _ Hvis.
    destruct (visitIfNew_post g fuel p s s' Hs Hvis) as (Hs' & Hw' & Hp' & Hsub').
    split_and!; [done | congruence |].
    intros q [Hq| ->]%elem_of_snoc; [|done].
    apply Hsub'. by apply Hdone.
Qed.
Lemma sortInv_enter g st x :
  sortInv g st → x ∉ visited st →
  sortInv g {| visited := visited st; visiting := visiting st ++ [x];
               result := result st |}.
Proof.
  intros [H1 H2 H3 H4] Hx. split; simpl; try done.
  intros y Hy [Hin| ->]%elem_of_snoc; [by eapply H4 | done].
Qed.

Lemma NoDup_subseteq_length (l k : list string) :
  NoDup l → l ⊆ k → length l ≤ length k.
Proof. intros Hnd Hsub. by apply submseteq_length, NoDup_submseteq. Qed.

(** [visit] never runs out of fuel when the fuel exceeds the number of keys
    that are not in progress. *)
Lemma visit_fuel g fuel : ∀ x st,
  sortInv g st → NoDup (visiting st) → visiting st ⊆ JsMap.keys (nodes g) →
  length (JsMap.keys (nodes g)) < fuel + length (visiting st) →
  visit fuel g x st ≠ None.
Proof.
  induction fuel as [|fuel IH]; intros x st Hinv Hnd Hsub Hlen.
  - pose proof (NoDup_subseteq_length _ _ Hnd Hsub). simpl in Hlen. lia.
  - rewrite visit_S.
    destruct (decide (x ∈ visiting st)) as [|Hnw]; [done|].
    destruct (decide (x ∈ visited st)) as [Hv|Hnv]; [done|].
    destruct (JsMap.get (nodes g) x) as [node|] eqn:Hget; [|done].
    set (st1 := {| visited := visited st; visiting := visiting st ++ [x];
                   result := result st |}).
    pose proof (forEach_spec (visit fuel g)
      (λ _ s, sortInv g s ∧ visiting s = visiting st1) (parents node) st1) as Hloop.
    destruct (forEach (visit fuel g) (parents node) st1) as [[e|st2]|]; [done..|].
    exfalso. destruct Hloop as (done & p & s1 & (Hs1 & Hw1) & _ & Hnone).
    + split; [by apply sortInv_enter | done].
    + intros _ p s s' (Hs & Hw) _ Hvis.
      destruct (visit_post g fuel p s s' Hs Hvis) as (Hs' & Hw' & _).
      split; [done | congruence].
    + revert Hnone. apply IH; [done|..]; rewrite Hw1; simpl.
      * apply NoDup_app. split_and!; [done| |apply NoDup_singleton].
        intros y Hy ->%list_elem_of_singleton. done.
      * intros y [Hy| ->]%elem_of_snoc; [by apply Hsub|].
        by eapply JsMap_get_Some_key.
      * rewrite length_app. simpl. lia.
Qed.

(** The outer loop has enough fuel. *)
Lemma sortLoop_fuel g : sortLoop (sortFuel g) g ≠ None.
Proof.
  unfold sortLoop.
  pose proof (forEach_spec (visitIfNew (sortFuel g) g)
    (λ _ s, sortInv g s ∧ visiting s = []) (JsMap.keys (nodes g)) sortInit) as Hloop.
  destruct (forEach _ _ _) as [[e|st2]|]; [done..|]. exfalso.
  destruct Hloop as (done & p & s1 & (Hs1 & Hw1) & _ & Hnone).
  - split; [apply sortInv_init | done].
  - intros _ p s s' (Hs & Hw) _ Hvis.
    destruct (visitIfNew_post g _ p s s' Hs Hvis) as (Hs' & Hw' & _).
    split; [done | congruence].
  - unfold visitIfNew in Hnone. destruct (decide (p ∈ visited s1)); [done|].
    refine (visit_fuel g _ p s1 Hs1 _ _ _ Hnone); rewrite Hw1.
    + apply NoDup_nil_2.
    + intros y Hy. by apply elem_of_nil in Hy.
    + unfold sortFuel, JsMap.size, JsMap.keys. rewrite length_fmap. simpl. lia.
Qed.

Lemma sortRun_loop g : sortLoop (sortFuel g) g = Some (sortRun g).
Proof.
  unfold sortRun. pose proof (sortLoop_fuel g) as H.
  by destruct (sortLoop (sortFuel g) g).
Qed.

(** What an error of [visit] means: a reported cycle is a cycle of the parent
    relation, a node reported missing is not stored and is the argument or a
    declared parent. *)
Lemma visit_error g fuel : ∀ x st e,
  sortInv g st → (∀ w, w ∈ visiting st → tc (parentOf g) w x) →
  visit fuel g x st = Some (inl e) →
  match e with
  | CycleDetected q => tc (parentOf g) q q
  | NodeNotFound q =>
      (q ∉ JsMap.keys (nodes g)) ∧ (q = x ∨ (∃ c, parentOf g c q))
  end.
Proof.
  induction fuel as [|fuel IH]; intros x st e Hinv Hchain Hrun; [done|].
  rewrite visit_S in Hrun.
  destruct (decide (x ∈ visiting st)) as [Hw|Hnw].
  { injection Hrun as <-. by apply Hchain. }
  destruct (decide (x ∈ visited st)) as [Hv|Hnv]; [done|].
  destruct (JsMap.get (nodes g) x) as [node|] eqn:Hget.
  2:{ injection Hrun as <-. split; [by apply JsMap_get_None | by left]. }
  set (st1 := {| visited := visited st; visiting := visiting st ++ [x];
                 result := result st |}) in Hrun.
  pose proof (forEach_spec (visit fuel g)
    (λ _ s, sortInv g s ∧ visiting s = visiting st1) (parents node) st1) as Hloop.
  destruct (forEach (visit fuel g) (parents node) st1) as [[e'|st2]|]; [|done..].
  injection Hrun as ->.
  destruct Hloop as (done & p & s1 & (Hs1 & Hw1) & Hp & Herr).
  - split; [by apply sortInv_enter | done].
  - intros _ p s s' (Hs & Hw) _ Hvis.
    destruct (visit_post g fuel p s s' Hs Hvis) as (Hs' & Hw' & _).
    split; [done | congruence].
  - assert (Hxp : parentOf g x p) by (by exists node).
    specialize (IH p s1 e Hs1). destruct e as [q|q].
    + apply IH; [|done]. rewrite Hw1. simpl.
      intros w [Hw| ->]%elem_of_snoc; [|by apply tc_once].
      eapply tc_r; [by apply Hchain | done].
    + destruct IH as [Hq Hor]; [|done|].
      * rewrite Hw1. simpl.
        intros w [Hw| ->]%elem_of_snoc; [|by apply tc_once].
        eapply tc_r; [by apply Hchain | done].
      * split; [done|]. right. destruct Hor as [->|Hor]; [by exists x | done].
Qed.

Lemma sortLoop_error g fuel e :
  sortLoop fuel g = Some (inl e) →
  match e with
  | CycleDetected q => tc (parentOf g) q q
  | NodeNotFound q => (q ∉ JsMap.keys (nodes g)) ∧ (∃ c, parentOf g c q)
  end.
Proof.
  unfold sortLoop. intros Hrun.
  pose proof (forEach_spec (visitIfNew fuel g)
    (λ _ s, sortInv g s ∧ visiting s = []) (JsMap.keys (nodes g)) sortInit) as Hloop.
  rewrite Hrun in Hloop.
  destruct Hloop as (done & p & s1 & (Hs1 & Hw1) & Hp & Herr).
  - split; [apply sortInv_init | done].
  - intros _ p s s' (Hs & Hw) _ Hvis.
    destruct (visitIfNew_post g _ p s s' Hs Hvis) as (Hs' & Hw' & _).
    split; [done | congruence].
  - unfold visitIfNew in Herr. destruct (decide (p ∈ visited s1)); [done|].
    apply visit_error in Herr; [|done|].
    + destruct e as [q|q]; [done|]. destruct Herr as [Hq [->|Hor]]; done.
    + rewrite Hw1. intros w Hw. by apply elem_of_nil in Hw.
Qed.

Lemma nodesAt_keys g order sorted :
  nodesAt g order sorted → order ⊆ JsMap.keys (nodes g).
Proof.
  induction 1 as [|id n order sorted Hget _ IH].
  - intros x Hx. by apply elem_of_nil in Hx.
  - intros x [->|Hx]%elem_of_cons; [by eapply JsMap_get_Some_key | by apply IH].
Qed.

(** What a successful sort returns, for any graph. *)
Lemma topologicalSort_inr g sorted :
  NoDup (JsMap.keys (nodes g)) → topologicalSort g = inr sorted →
  ∃ order, order ≡ₚ JsMap.keys (nodes g) ∧ nodesAt g order sorted ∧
           parentsFirst g order.
Proof.
  intros Hnd. unfold topologicalSort. pose proof (sortRun_loop g) as Hloop.
  destruct (sortRun g) as [e|st]; [done|]. intros [= <-].
  apply sortLoop_post in Hloop as ([H1 H2 H3 H4] & _ & Hall).
  exists (visited st). split_and!; [|done..].
  apply NoDup_Permutation; [done..|].
  intros x. split; [|by apply Hall]. by apply (nodesAt_keys g _ _ H2).
Qed.

(** C7. On a graph without cycles in which every declared parent is stored,
    [topologicalSort] succeeds; the list it returns holds the nodes of an
    ordering of the keys of the store in which each key occurs exactly once
    and every declared parent of a node comes at a smaller index than the
    node. *)
Theorem topologicalSort_valid (g : DKG) :
  NoDup (JsMap.keys (nodes g)) → acyclic g → parentsPresent g →
  ∃ order sorted,
    topologicalSort g = inr sorted ∧
    order ≡ₚ JsMap.keys (nodes g) ∧ NoDup order ∧
    nodesAt g order sorted ∧ parentsFirst g order.
Proof.
  intros Hnd Hacyc Hpres.
  destruct (topologicalSort g) as [e|sorted] eqn:Hsort.
  - exfalso. unfold topologicalSort in Hsort. pose proof (sortRun_loop g) as Hloop.
    destruct (sortRun g) as [e'|st]; [|done]. injection Hsort as ->.
    apply sortLoop_error in Hloop. destruct e as [q|q].
    + by apply (Hacyc q).
    + destruct Hloop as (Hq & c & Hc). by apply Hq, (Hpres c).
  - destruct (topologicalSort_inr g sorted Hnd Hsort) as (order & Hperm & Hat & Hord).
    exists order, sorted. split_and!; try done. by rewrite Hperm.
Qed.
Lemma insertionOrdered_lookup seen es :
  insertionOrdered seen es = true →
  ∀ i e p, es !! i = Some e → p ∈ parents e.2 →
           p ∈ seen ∨ (∃ j, j < i ∧ es.*1 !! j = Some p).
Proof.
  revert seen. induction es as [|e0 es IH]; intros seen Hord i e p Hi Hp.
  - by rewrite lookup_nil in Hi.
  - simpl in Hord. apply andb_true_iff in Hord as [Hps Hrest].
    destruct i as [|i]; simpl in Hi.
    + injection Hi as ->. left.
      rewrite forallb_forall in Hps. apply list_elem_of_In, Hps in Hp.
      by apply bool_decide_eq_true in Hp.
    + destruct (IH _ Hrest i e p Hi Hp) as [[Hs| ->]%elem_of_snoc|(j & Hj & Hjp)].
      * by left.
      * right. exists 0. split; [lia | done].
      * right. exists (S j). split; [lia | done].
Qed.

Lemma insertionOrdered_parentsFirst g :
  NoDup (JsMap.keys (nodes g)) → insertionOrdered [] (nodes g) = true →
  parentsFirst g (JsMap.keys (nodes g)).
Proof.
  intros Hnd Hord i c p Hi (node & Hget & Hp).
  unfold JsMap.keys in Hi. apply list_lookup_fmap_Some in Hi as ([c' node'] & -> & Hi).
  simpl in Hget.
  assert (node' = node) as ->.
  { apply list_elem_of_lookup_2, (JsMap_elem_get _ _ _ Hnd) in Hi. congruence. }
  destruct (insertionOrdered_lookup [] _ Hord i _ p Hi Hp) as [Hnil|H]; [|done].
  by apply elem_of_nil in Hnil.
Qed.

(** Along the parent relation the position in a parents-first order
    decreases. *)
Lemma parentsFirst_tc g order x y :
  parentsFirst g order → tc (parentOf g) x y →
  ∀ i, order !! i = Some x → ∃ j, j < i ∧ order !! j = Some y.
Proof.
  intros Hord. induction 1 as [x y Hxy|x y z Hxy _ IH]; intros i Hi.
  - by eapply Hord.
  - destruct (Hord i x y Hi Hxy) as (j & Hj & Hjy).
    destruct (IH j Hjy) as (k & Hk & Hkz). exists k. split; [lia | done].
Qed.

(** A store filled in causal order has no cycle and no dangling parent. *)
Lemma insertionOrdered_acyclic g :
  NoDup (JsMap.keys (nodes g)) → insertionOrdered [] (nodes g) = true →
  acyclic g ∧ parentsPresent g.
Proof.
  intros Hnd Hord. pose proof (insertionOrdered_parentsFirst g Hnd Hord) as Hpf.
  assert (Hkey : ∀ c p, parentOf g c p → c ∈ JsMap.keys (nodes g)).
  { intros c p (node & Hget & _). by eapply JsMap_get_Some_key. }
  split.
  - intros x Htc.
    assert (x ∈ JsMap.keys (nodes g)) as [i Hi]%list_elem_of_lookup.
    { inversion Htc; subst; by eapply Hkey. }
    destruct (parentsFirst_tc g _ x x Hpf Htc i Hi) as (j & Hj & Hjx).
    pose proof (NoDup_lookup _ _ _ _ Hnd Hi Hjx). lia.
  - intros c p Hcp.
    pose proof (Hkey c p Hcp) as [i Hi]%list_elem_of_lookup.
    destruct (Hpf i c p Hi Hcp) as (j & _ & Hj). by eapply list_elem_of_lookup_2.
Qed.

Lemma topologicalSort_valid_witness :
  let mk := λ a id t ps, mkDKGNode a "" t id [] "h" ps None None None "message" in
  let g := (addNode (addNode (addNode DKG_new (mk "A" "root" 1000%Z []) None).1
                       (mk "B" "mid" 2000%Z ["root"]) None).1
              (mk "A" "leaf" 3000%Z ["mid"]) None).1 in
  ∃ order sorted,
    topologicalSort g = inr sorted ∧
    order ≡ₚ JsMap.keys (nodes g) ∧ NoDup order ∧
    nodesAt g order sorted ∧ parentsFirst g order.
Proof.
  intros mk g.
  assert (Hnd : NoDup (JsMap.keys (nodes g))).
  { apply (bool_decide_unpack _). vm_compute. reflexivity. }
  destruct (insertionOrdered_acyclic g Hnd) as [Hacyc Hpres].
  { vm_compute. reflexivity. }
  exact (topologicalSort_valid g Hnd Hacyc Hpres).
Defined.

Lemma missingRefs_elem g c p :
  parentOf g c p → p ∉ JsMap.keys (nodes g) → (c, p) ∈ missingRefs g.
Proof.
  intros (node & Hget & Hp) Hmiss. unfold missingRefs.
  apply list_elem_of_bind. exists (c, node). split.
  - apply list_elem_of_bind. exists p. split; [simpl; left|].
    apply list_elem_of_filter. done.
  - by apply JsMap_get_Some_elem.
Qed.

(** C8 (amended). When a stored node declares a parent that is not stored,
    [topologicalSort] fails: with an error that names a missing id that some
    node declares as a parent (the error carries that id only, not the
    child), or with a cycle error when a cycle of the parent relation is met
    first.  The audit lists the reference, naming both the child and the
    missing parent, and does not pass. *)
Theorem dangling_parent_reported (g : DKG) (c p : string) :
  parentOf g c p → p ∉ JsMap.keys (nodes g) →
  (∃ e, topologicalSort g = inl e ∧
        match e with
        | CycleDetected q => tc (parentOf g) q q
        | NodeNotFound q => (q ∉ JsMap.keys (nodes g)) ∧ (∃ c', parentOf g c' q)
        end) ∧
  missingParentIssue c p ∈ issues (auditCausality g) ∧
  passed (auditCausality g) = false.
Proof.
  intros Hcp Hmiss.
  assert (Hissue : missingParentIssue c p ∈ issues (auditCausality g)).
  { rewrite auditCausality_issues_list.
    apply elem_of_app. left. apply list_elem_of_fmap.
    exists (c, p). split; [done|]. by apply missingRefs_elem. }
  split_and!; [|done|].
  - unfold topologicalSort. pose proof (sortRun_loop g) as Hloop.
    destruct (sortRun g) as [e|st].
    + exists e. split; [done|]. by apply sortLoop_error in Hloop.
    + exfalso. apply sortLoop_post in Hloop as ([H1 H2 H3 H4] & _ & Hall).
      assert (c ∈ visited st) as [i Hi]%list_elem_of_lookup.
      { apply Hall. destruct Hcp as (node & Hget & _). by eapply JsMap_get_Some_key. }
      destruct (H3 i c p Hi Hcp) as (j & _ & Hj).
      apply Hmiss, (nodesAt_keys g _ _ H2). by eapply list_elem_of_lookup_2.
  - destruct (passed (auditCausality g)) eqn:Hpassed; [|done].
    apply auditCausality_passed in Hpassed.
    rewrite Hpassed in Hissue. by apply elem_of_nil in Hissue.
Qed.

Lemma dangling_parent_reported_witness :
  let n := mkDKGNode "A" "" 1 "a" [] "h" ["ghost"] None None None "message" in
  let g := (addNode DKG_new n None).1 in
  topologicalSort g = inl (NodeNotFound "ghost") ∧
  "Node a references missing parent ghost" ∈ issues (auditCausality g) ∧
  passed (auditCausality g) = false.
Proof.
  intros n g.
  destruct (dangling_parent_reported g "a" "ghost") as (He & Hissue & Hpassed).
  - exists n. split; [reflexivity | left].
  - vm_compute. intros H. repeat (apply elem_of_cons in H as [H|H]; [discriminate|]).
    by apply elem_of_nil in H.
  - split_and!; [reflexivity | exact Hissue | exact Hpassed].
Defined.

(** C8, as stated, fails: the error of the sort carries the missing id only,
    so two stores whose dangling references come from different children
    fail with the same error; and when a cycle is met before the dangling
    reference the sort fails with a cycle error instead. *)
Lemma sort_error_omits_child :
  let mk := λ id ps, mkDKGNode "A" "" 1 id [] "h" ps None None None "message" in
  let g1 := (addNode DKG_new (mk "a" ["ghost"]) None).1 in
  let g2 := (addNode DKG_new (mk "b" ["ghost"]) None).1 in
  let g3 := (addNode (addNode DKG_new (mk "a" ["a"]) None).1 (mk "b" ["ghost"]) None).1 in
  topologicalSort g1 = inl (NodeNotFound "ghost") ∧
  topologicalSort g2 = inl (NodeNotFound "ghost") ∧
  errorMessage (NodeNotFound "ghost") = "Node ghost not found" ∧
  JsMap.get (nodes g3) "b" = Some (mk "b" ["ghost"]) ∧
  JsMap.has (nodes g3) "ghost" = false ∧
  topologicalSort g3 = inl (CycleDetected "a").
Proof. vm_compute. repeat split. Qed.
(** ** Descendant count *)

Lemma count_S fuel g id visited :
  count (S fuel) g id visited =
  if decide (id ∈ visited) then Some (0, visited)
  else countLoop (count fuel g) (getChildren g id) (length (getChildren g id))
         (visited ++ [id]).
Proof. done. Qed.

Lemma getChildren_childIds g id : getChildren g id ⊆ childIds g.
Proof.
  unfold getChildren, childIds. intros c Hc.
  destruct (JsMap.get (edges g) id) as [cs|] eqn:Hget; [|by apply elem_of_nil in Hc].
  apply JsMap_get_Some_elem in Hget. apply list_elem_of_In, in_concat.
  exists cs. split; [|by apply list_elem_of_In].
  apply list_elem_of_In. unfold JsMap.values. apply list_elem_of_fmap. by exists (id, cs).
Qed.

Lemma childIds_length g : length (childIds g) = edgeCount g.
Proof.
  unfold childIds, edgeCount. rewrite totalLength_sum.
  induction (JsMap.values (edges g)) as [|cs l IH]; [done|].
  simpl. rewrite length_app, IH. done.
Qed.

Lemma filter_notin_cons (V : list string) c l :
  filter (λ c, c ∉ V) (c :: l) =
  if decide (c ∈ V) then filter (λ c, c ∉ V) l else c :: filter (λ c, c ∉ V) l.
Proof.
  destruct (decide (c ∈ V)) as [Hin|Hnin].
  - apply filter_cons_False. by intros H.
  - by apply filter_cons_True.
Qed.

Lemma filter_notin_mono (V V' l : list string) :
  V ⊆ V' → length (filter (λ c, c ∉ V') l) ≤ length (filter (λ c, c ∉ V) l).
Proof.
  intros Hsub. induction l as [|c l IH]; [done|].
  rewrite !filter_notin_cons.
  destruct (decide (c ∈ V)) as [Hin|Hnin].
  - by rewrite decide_True by (by apply Hsub).
  - destruct (decide (c ∈ V')); simpl; lia.
Qed.

Lemma unvisited_mono g V V' : V ⊆ V' → unvisited g V' ≤ unvisited g V.
Proof. apply filter_notin_mono. Qed.

Lemma unvisited_enter g V id :
  id ∈ childIds g → id ∉ V → unvisited g (V ++ [id]) < unvisited g V.
Proof.
  unfold unvisited. induction (childIds g) as [|c l IH]; intros Hin Hnin.
  - by apply elem_of_nil in Hin.
  - rewrite !filter_notin_cons.
    assert (Hsub : V ⊆ V ++ [id]) by (intros x Hx; apply elem_of_snoc; by left).
    pose proof (filter_notin_mono V (V ++ [id]) l Hsub) as Hmono.
    destruct (decide (c = id)) as [->|Hne].
    + rewrite decide_True by (apply elem_of_snoc; by right).
      rewrite decide_False by done. simpl. lia.
    + apply elem_of_cons in Hin as [?|Hin]; [congruence|]. specialize (IH Hin Hnin).
      destruct (decide (c ∈ V)) as [HcV|HcV].
      * by rewrite decide_True by (by apply Hsub).
      * rewrite decide_False; [simpl; lia|].
        intros [?| ->]%elem_of_snoc; done.
Qed.

Lemma countLoop_some g fuel :
  (∀ id V, id ∈ childIds g → unvisited g V < fuel →
           ∃ n V', count fuel g id V = Some (n, V') ∧ V ⊆ V') →
  ∀ children total V, children ⊆ childIds g → unvisited g V < fuel →
    ∃ n V', countLoop (count fuel g) children total V = Some (n, V') ∧ V ⊆ V'.
Proof.
  intros Hcount children. induction children as [|c cs IH]; intros total V Hsub Hlt; simpl.
  - by exists total, V.
  - destruct (Hcount c V) as (n & V1 & -> & HV1); [apply Hsub; left | done |].
    destruct (IH (total + n) V1) as (n' & V' & -> & HV').
    + intros x Hx. apply Hsub. by right.
    + pose proof (unvisited_mono g V V1 HV1). lia.
    + exists n', V'. split; [done|]. by etrans.
Qed.

Lemma count_some g fuel : ∀ id V,
  id ∈ childIds g → unvisited g V < fuel →
  ∃ n V', count fuel g id V = Some (n, V') ∧ V ⊆ V'.
Proof.
  induction fuel as [|fuel IH]; intros id V Hid Hlt; [lia|].
  rewrite count_S. destruct (decide (id ∈ V)) as [Hin|Hnin].
  - by exists 0, V.
  - destruct (countLoop_some g fuel IH (getChildren g id)
                (length (getChildren g id)) (V ++ [id])) as (n & V' & -> & HV').
    + apply getChildren_childIds.
    + pose proof (unvisited_enter g V id Hid Hnin). lia.
    + exists n, V'. split; [done|]. intros x Hx. apply HV', elem_of_snoc. by left.
Qed.

(** [count] has enough fuel on every graph and start node. *)
Lemma count_fuel g nodeId : is_Some (count (countFuel g) g nodeId []).
Proof.
  unfold countFuel. rewrite count_S.
  rewrite decide_False by apply not_elem_of_nil.
  destruct (countLoop_some g (S (edgeCount g)) (count_some g _) (getChildren g nodeId)
              (length (getChildren g nodeId)) ([] ++ [nodeId])) as (n & V' & -> & _).
  - apply getChildren_childIds.
  - unfold unvisited. rewrite <-childIds_length.
    pose proof (length_filter (λ c, c ∉ [] ++ [nodeId]) (childIds g)). lia.
  - by eexists.
Qed.

(** C4 fails on the diamond a → b, a → c, b → d, c → d: the descendants of
    [a] are the three ids b, c and d, and [countDescendants] returns 4,
    because it adds the length of every children list it meets and so counts
    d once for each of its two parents. *)
Theorem countDescendants_counts_edges :
  let mk := λ id ps, mkDKGNode "A" "" 1 id [] "h" ps None None None "message" in
  let g := (addNode (addNode (addNode (addNode DKG_new (mk "a" []) None).1
                                (mk "b" ["a"]) None).1
                       (mk "c" ["a"]) None).1
              (mk "d" ["b"; "c"]) None).1 in
  (∀ y, descendant g "a" y ↔ y ∈ ["b"; "c"; "d"]) ∧
  countDescendants g "a" = 4.
Proof.
  intros mk g. split; [|by vm_compute].
  assert (Hedges : edges g = [("a", ["b"; "c"]); ("b", ["d"]); ("c", ["d"])])
    by (by vm_compute).
  assert (Hchild : ∀ x y, childOf g x y → y ∈ ["b"; "c"; "d"]).
  { intros x y. unfold childOf, getChildren. rewrite Hedges. simpl.
    repeat case_decide; intros Hy;
      repeat (apply elem_of_cons in Hy as [->|Hy]);
      try (by apply elem_of_nil in Hy); repeat constructor. }
  assert (Hab : childOf g "a" "b") by (vm_compute; repeat constructor).
  assert (Hbd : childOf g "b" "d") by (vm_compute; repeat constructor).
  assert (Hac : childOf g "a" "c") by (vm_compute; repeat constructor).
  intros y. split.
  - unfold descendant. generalize "a". intros x Htc.
    induction Htc as [x y Hxy|x z y _ _ IH]; [by eapply Hchild | done].
  - intros Hy. unfold descendant.
    repeat (apply elem_of_cons in Hy as [->|Hy]);
      [by apply tc_once | by apply tc_once | by eapply tc_l, tc_once |].
    by apply elem_of_nil in Hy.
Qed.
(** ** Causal chain *)

Lemma bfs_S fuel g t queue V :
  bfs (S fuel) g t queue V =
  match queue with
  | [] => Some []
  | (n, p) :: queue' =>
      if decide (n = t) then Some p
      else if decide (n ∈ V) then bfs fuel g t queue' V
      else bfs fuel g t (pushChildren (V ++ [n]) p queue' (getChildren g n)) (V ++ [n])
  end.
Proof. done. Qed.

Lemma pushChildren_spec V p queue cs :
  pushChildren V p queue cs =
  queue ++ ((λ c, (c, p ++ [c])) <$> filter (λ c, c ∉ V) cs).
Proof.
  unfold pushChildren. revert queue. induction cs as [|c cs IH]; intros queue; simpl.
  - by rewrite app_nil_r.
  - rewrite IH, filter_notin_cons. destruct (decide (c ∈ V)); [done|].
    by rewrite fmap_cons, <-app_assoc.
Qed.

Lemma chain_app_r g l1 l2 : chain g (l1 ++ l2) → chain g l2.
Proof.
  induction l1 as [|x l1 IH]; [done|]. intros H. apply IH.
  destruct l1 as [|y l1]; simpl in *.
  - by destruct l2 as [|z l2]; [|destruct H].
  - by destruct H.
Qed.

Lemma chain_snoc g p n c :
  chain g p → last p = Some n → childOf g n c → chain g (p ++ [c]).
Proof.
  intros Hp Hlast Hc. induction p as [|x p IH]; [done|].
  destruct p as [|y p].
  - simpl in Hlast. injection Hlast as ->. by split.
  - destruct Hp as [Hxy Hp]. split; [done|]. apply IH; [done|].
    by rewrite last_cons_cons in Hlast.
Qed.

Lemma pathFromTo_refl g s : pathFromTo g s s [s].
Proof. by split_and!. Qed.

Lemma pathFromTo_snoc g s n p c :
  pathFromTo g s n p → childOf g n c → pathFromTo g s c (p ++ [c]).
Proof.
  intros (Hh & Hl & Hc) Hnc. split_and!.
  - rewrite head_snoc. by rewrite Hh.
  - apply last_snoc.
  - by eapply chain_snoc.
Qed.

Lemma pathFromTo_length g s t π : pathFromTo g s t π → 0 < length π.
Proof. intros (Hh & _). destruct π; [done | simpl; lia]. Qed.

(** After the head is taken, the queue holds paths of the head's length and
    then paths one longer. *)
Lemma levels_pop (n : string) (p : list string) (queue : list (string * list string)) :
  (∃ L A B, (n, p) :: queue = A ++ B ∧
     Forall (λ e, length e.2 = L) A ∧ Forall (λ e, length e.2 = S L) B) →
  ∃ A B, queue = A ++ B ∧
     Forall (λ e, length e.2 = length p) A ∧ Forall (λ e, length e.2 = S (length p)) B.
Proof.
  intros (L & A & B & Heq & HA & HB). destruct A as [|a A].
  - simpl in Heq. subst B. apply Forall_cons in HB as [Hp HB]. simpl in Hp.
    exists queue, []. rewrite app_nil_r, Hp. by split_and!.
  - simpl in Heq. injection Heq as <- ->. apply Forall_cons in HA as [Hp HA].
    simpl in Hp. subst L. by exists A, B.
Qed.

Lemma levels_head_min (n : string) (p : list string) queue e :
  (∃ A B, queue = A ++ B ∧
     Forall (λ e, length e.2 = length p) A ∧
     Forall (λ e : string * list string, length e.2 = S (length p)) B) →
  e ∈ (n, p) :: queue → length p ≤ length e.2.
Proof.
  intros (A & B & -> & HA & HB) [->|[He|He]%elem_of_app]%elem_of_cons.
  - done.
  - rewrite Forall_forall in HA. by rewrite (HA e He).
  - rewrite Forall_forall in HB. rewrite (HB e He). lia.
Qed.

Lemma bfsInv_init g s t : bfsInv g s t [(s, [s])] [].
Proof.
  split.
  - intros n p Hin. apply list_elem_of_singleton in Hin. injection Hin as -> ->.
    apply pathFromTo_refl.
  - exists 1, [(s, [s])], []. split_and!; [done | by repeat constructor | done].
  - intros π (Hh & _). destruct π as [|x π2]; [done|]. injection Hh as ->.
    exists [], s, π2, [s]. split_and!; [done | left | done | apply not_elem_of_nil |].
    apply Forall_forall. intros m _. apply not_elem_of_nil.
Qed.

(** The head of the queue, when it is the target, is a shortest path. *)
Lemma bfsInv_found g s t p queue V :
  bfsInv g s t ((t, p) :: queue) V →
  pathFromTo g s t p ∧ ∀ π, pathFromTo g s t π → length p ≤ length π.
Proof.
  intros [Hpaths Hlev Hfront]. split; [apply Hpaths; left|].
  intros π Hπ. destruct (Hfront π Hπ) as (π1 & n & π2 & q & -> & Hq & Hlen & _).
  pose proof (levels_head_min t p queue (n, q) (levels_pop _ _ _ Hlev) Hq) as Hmin.
  simpl in Hmin. rewrite length_app. simpl. lia.
Qed.

Lemma bfsInv_skip g s t n p queue V :
  bfsInv g s t ((n, p) :: queue) V → n ∈ V → bfsInv g s t queue V.
Proof.
  intros [Hpaths Hlev Hfront] HnV. split.
  - intros m q Hq. apply Hpaths. by right.
  - destruct (levels_pop _ _ _ Hlev) as (A & B & HAB). by exists (length p), A, B.
  - intros π Hπ. destruct (Hfront π Hπ) as (π1 & m & π2 & q & -> & Hq & Hlen & Hm & Hrest).
    exists π1, m, π2, q. split_and!; try done.
    apply elem_of_cons in Hq as [[= -> ->]|Hq]; done.
Qed.

Lemma bfsInv_visit g s t n p queue V :
  bfsInv g s t ((n, p) :: queue) V → n ≠ t → n ∉ V →
  bfsInv g s t (pushChildren (V ++ [n]) p queue (getChildren g n)) (V ++ [n]).
Proof.
  intros [Hpaths Hlev Hfront] Hnt HnV. rewrite pushChildren_spec.
  pose proof (levels_pop _ _ _ Hlev) as Hpop.
  split.
  - intros m q [Hq|Hq]%elem_of_app.
    + apply Hpaths. by right.
    + apply list_elem_of_fmap in Hq as (c & [= -> ->] & Hc).
      apply list_elem_of_filter in Hc as [_ Hc].
      eapply pathFromTo_snoc; [apply Hpaths; left | done].
  - destruct Hpop as (A & B & -> & HA & HB).
    exists (length p), A, (B ++ ((λ c, (c, p ++ [c])) <$>
                                filter (λ c, c ∉ V ++ [n]) (getChildren g n))).
    split_and!; [by rewrite app_assoc | done |].
    apply Forall_app. split; [done|]. apply Forall_fmap, Forall_forall.
    intros c _. simpl. rewrite length_app. simpl. lia.
  - intros π Hπ.
    destruct (Hfront π Hπ) as (π1 & m & π2 & q & -> & Hq & Hlen & Hm & Hrest).
    pose proof (levels_head_min n p queue (m, q) Hpop Hq) as Hmin. simpl in Hmin.
    destruct (decide (n ∈ m :: π2)) as [Hin|Hnin].
    + (* the path meets [n] again: continue from the child after its last
         occurrence *)
      apply list_elem_of_split_r in Hin as (l1 & l2 & Heq & Hl2).
      destruct Hπ as (_ & Hlast & Hchain).
      rewrite Heq in Hlast, Hchain.
      destruct l2 as [|c l3].
      { rewrite app_assoc, last_snoc in Hlast. congruence. }
      assert (Hnc : childOf g n c).
      { apply chain_app_r, chain_app_r in Hchain. by destruct Hchain. }
      assert (Hall : Forall (λ x, x ∉ V) (m :: π2)) by (by constructor).
      rewrite Heq in Hall. apply Forall_app in Hall as [_ Hall].
      apply Forall_cons in Hall as [_ Hall]. apply Forall_cons in Hall as [HcV Hl3].
      apply not_elem_of_cons in Hl2 as [Hcn Hl3n].
      exists (π1 ++ l1 ++ [n]), c, l3, (p ++ [c]). split_and!.
      * rewrite Heq. by rewrite <-!app_assoc.
      * apply elem_of_app. right. apply list_elem_of_fmap. exists c. split; [done|].
        apply list_elem_of_filter. split; [|done].
        intros [?| ->]%elem_of_snoc; done.
      * rewrite !length_app. simpl. lia.
      * intros [?| ->]%elem_of_snoc; done.
      * rewrite Forall_forall in Hl3. apply Forall_forall. intros x Hx.
        intros [HxV| ->]%elem_of_snoc; [by apply (Hl3 x) | done].
    + apply not_elem_of_cons in Hnin as [Hnm Hnπ2].
      exists π1, m, π2, q. split_and!; try done.
      * apply elem_of_app. left.
        apply elem_of_cons in Hq as [[= -> ->]|Hq]; done.
      * intros [?| ->]%elem_of_snoc; done.
      * rewrite Forall_forall in Hrest. apply Forall_forall. intros x Hx.
        intros [HxV| ->]%elem_of_snoc; [by apply (Hrest x) | done].
Qed.

(** The search returns a shortest path, or the empty list when there is no
    path. *)
Lemma bfs_correct g s t fuel : ∀ queue V r,
  bfsInv g s t queue V → bfs fuel g t queue V = Some r →
  (r = [] ∧ ∀ π, ¬ pathFromTo g s t π) ∨
  (pathFromTo g s t r ∧ ∀ π, pathFromTo g s t π → length r ≤ length π).
Proof.
  induction fuel as [|fuel IH]; intros queue V r Hinv Hrun; [done|].
  rewrite bfs_S in Hrun. destruct queue as [|[n p] queue].
  - injection Hrun as <-. left. split; [done|]. intros π Hπ.
    destruct (bfs_frontier _ _ _ _ _ Hinv π Hπ) as (? & ? & ? & ? & _ & Hq & _).
    by apply elem_of_nil in Hq.
  - destruct (decide (n = t)) as [->|Hnt].
    { injection Hrun as <-. right. by eapply bfsInv_found. }
    destruct (decide (n ∈ V)) as [HnV|HnV].
    + eapply IH; [|done]. by eapply bfsInv_skip.
    + eapply IH; [|done]. by eapply bfsInv_visit.
Qed.
Lemma pending_cons k (cs : list string) es V :
  pending ((k, cs) :: es) V = (if decide (k ∈ V) then 0 else length cs) + pending es V.
Proof. done. Qed.

Lemma pending_nil es : pending es [] = totalLength es.
Proof.
  induction es as [|[k cs] es IH]; [done|].
  rewrite pending_cons, totalLength_cons, IH.
  by rewrite decide_False by apply not_elem_of_nil.
Qed.

Lemma pending_mono es V V' : V ⊆ V' → pending es V' ≤ pending es V.
Proof.
  intros Hsub. induction es as [|[k cs] es IH]; [done|]. rewrite !pending_cons.
  destruct (decide (k ∈ V)) as [Hin|Hnin].
  - rewrite decide_True by (by apply Hsub). lia.
  - destruct (decide (k ∈ V')); lia.
Qed.

(** Visiting [n] takes its children out of the pending ones. *)
Lemma pending_visit es V n :
  n ∉ V →
  pending es (V ++ [n]) + length (default [] (JsMap.get es n)) ≤ pending es V.
Proof.
  intros HnV.
  assert (Hsub : V ⊆ V ++ [n]) by (intros x Hx; apply elem_of_snoc; by left).
  induction es as [|[k cs] es IH]; [done|]. rewrite !pending_cons. simpl.
  destruct (decide (k = n)) as [->|Hne].
  - rewrite decide_True by (apply elem_of_snoc; by right).
    rewrite decide_False by done. simpl.
    pose proof (pending_mono es V (V ++ [n]) Hsub). lia.
  - destruct (decide (k ∈ V)) as [Hin|Hnin].
    + rewrite decide_True by (by apply Hsub). lia.
    + rewrite decide_False; [lia|]. intros [?| ->]%elem_of_snoc; done.
Qed.

Lemma pushChildren_length V p queue cs :
  length (pushChildren V p queue cs) ≤ length queue + length cs.
Proof.
  rewrite pushChildren_spec, length_app, length_fmap.
  pose proof (length_filter (λ c, c ∉ V) cs). lia.
Qed.

(** The search loop never runs out of fuel when the fuel exceeds the length
    of the queue plus the pending children. *)
Lemma bfs_fuel g t fuel : ∀ queue V,
  length queue + pending (edges g) V < fuel → bfs fuel g t queue V ≠ None.
Proof.
  induction fuel as [|fuel IH]; intros queue V Hlt; [lia|].
  rewrite bfs_S. destruct queue as [|[n p] queue]; [done|].
  destruct (decide (n = t)); [done|]. simpl in Hlt.
  destruct (decide (n ∈ V)) as [HnV|HnV].
  - apply IH. lia.
  - apply IH.
    pose proof (pushChildren_length (V ++ [n]) p queue (getChildren g n)).
    pose proof (pending_visit (edges g) V n HnV) as Hp.
    rewrite <-getChildren_default in Hp. lia.
Qed.

Lemma tracePath_bfs g a b :
  a ∈ JsMap.keys (nodes g) → b ∈ JsMap.keys (nodes g) →
  bfs (traceFuel g) g b [(a, [a])] [] = Some (tracePath g a b).
Proof.
  intros Ha Hb. unfold tracePath.
  apply JsMap_has_true in Ha, Hb. rewrite Ha, Hb. cbn [negb orb].
  destruct (bfs (traceFuel g) g b [(a, [a])] []) eqn:Hrun; [done|].
  exfalso. revert Hrun. apply bfs_fuel.
  rewrite pending_nil. unfold traceFuel, edgeCount. simpl. lia.
Qed.

Lemma tracePath_absent g a b :
  a ∉ JsMap.keys (nodes g) ∨ b ∉ JsMap.keys (nodes g) → tracePath g a b = [].
Proof.
  unfold tracePath. rewrite <-!JsMap_has_true.
  intros [H|H]; destruct (JsMap.has (nodes g) a), (JsMap.has (nodes g) b); done.
Qed.

Lemma JsMap_keys_set_elem {V} (m : JsMap.t V) k v k' :
  k' ∈ JsMap.keys m → k' ∈ JsMap.keys (JsMap.set m k v).
Proof.
  intros [v' Hget]%JsMap_key_get. destruct (decide (k = k')) as [->|Hne].
  - eapply JsMap_get_Some_key, JsMap_get_set_eq.
  - eapply JsMap_get_Some_key. rewrite JsMap_get_set_ne by done. exact Hget.
Qed.

(** In a store built by [addNode] every recorded child is a stored node. *)
Lemma built_childrenStored g : built g → childrenStored g.
Proof.
  induction 1 as [|g node nodeId Hb IH]; intros p c Hc.
  - by apply elem_of_nil in Hc.
  - unfold childOf in Hc. rewrite addNode_children in Hc.
    apply elem_of_app in Hc as [Hc|Hc].
    + simpl. apply JsMap_keys_set_elem. by apply (IH p).
    + apply elem_of_replicate in Hc as [-> _]. apply addNode_key.
Qed.

Lemma path_stored g s n p :
  childrenStored g → s ∈ JsMap.keys (nodes g) → pathFromTo g s n p →
  Forall (λ x, x ∈ JsMap.keys (nodes g)) p.
Proof.
  intros Hst Hs (Hh & _ & Hc). revert s Hs Hh Hc.
  induction p as [|x p IH]; intros s Hs Hh Hc; [done|].
  injection Hh as ->. constructor; [done|].
  destruct p as [|y p]; [done|]. destruct Hc as [Hxy Hc].
  apply (IH y); [by apply (Hst s) | done | done].
Qed.

Lemma omap_get_nodesAt g p :
  Forall (λ x, x ∈ JsMap.keys (nodes g)) p → nodesAt g p (omap (JsMap.get (nodes g)) p).
Proof.
  induction 1 as [|x p Hx _ IH]; [constructor|].
  apply JsMap_key_get in Hx as [node Hget]. simpl. rewrite Hget.
  by constructor.
Qed.

(** C9. When both ids are stored and some path of forward edges leads from
    [fromNodeId] to [toNodeId], [traceCausalChain] returns the nodes of such
    a path, from [fromNodeId] to [toNodeId] inclusive, and no path between
    them is shorter; when an id is not stored or there is no such path it
    returns the empty list.  (The ids of the path are all stored, so that
    none is filtered out, when the recorded children are stored nodes, which
    holds of every store built by [addNode].) *)
Theorem traceCausalChain_shortest (g : DKG) (fromNodeId toNodeId : string) :
  (fromNodeId ∈ JsMap.keys (nodes g) → toNodeId ∈ JsMap.keys (nodes g) →
   (∃ π, pathFromTo g fromNodeId toNodeId π) →
   ∃ path,
     pathFromTo g fromNodeId toNodeId path ∧
     (∀ π, pathFromTo g fromNodeId toNodeId π → length path ≤ length π) ∧
     traceCausalChain g fromNodeId toNodeId = omap (JsMap.get (nodes g)) path ∧
     (childrenStored g → nodesAt g path (traceCausalChain g fromNodeId toNodeId))) ∧
  (fromNodeId ∉ JsMap.keys (nodes g) ∨ toNodeId ∉ JsMap.keys (nodes g) ∨
   (∀ π, ¬ pathFromTo g fromNodeId toNodeId π) →
   traceCausalChain g fromNodeId toNodeId = []).
Proof.
  split.
  - intros Ha Hb [π Hπ]. exists (tracePath g fromNodeId toNodeId).
    pose proof (tracePath_bfs g _ _ Ha Hb) as Hrun.
    apply (bfs_correct g fromNodeId) in Hrun as [[_ Hno]|[Hpath Hmin]];
      [by destruct (Hno π) | | apply bfsInv_init].
    split_and!; [done..|]. intros Hst.
    apply omap_get_nodesAt. exact (path_stored g _ _ _ Hst Ha Hpath).
  - unfold traceCausalChain.
    destruct (decide (fromNodeId ∈ JsMap.keys (nodes g))) as [Ha|Ha];
      [|intros _; rewrite tracePath_absent; [done | by left]].
    destruct (decide (toNodeId ∈ JsMap.keys (nodes g))) as [Hb|Hb];
      [|intros _; rewrite tracePath_absent; [done | by right]].
    intros [?|[?|Hno]]; [done..|].
    pose proof (tracePath_bfs g _ _ Ha Hb) as Hrun.
    apply (bfs_correct g fromNodeId) in Hrun as [[-> _]|[Hpath _]];
      [done | by destruct (Hno _ Hpath) | apply bfsInv_init].
Qed.

Lemma traceCausalChain_shortest_witness :
  let mk := λ a id t ps, mkDKGNode a "" t id [] "h" ps None None None "message" in
  let g := (addNode (addNode (addNode DKG_new (mk "A" "root" 1000%Z []) None).1
                       (mk "B" "mid" 2000%Z ["root"]) None).1
              (mk "A" "leaf" 3000%Z ["mid"]) None).1 in
  ∃ path,
    pathFromTo g "root" "leaf" path ∧
    (∀ π, pathFromTo g "root" "leaf" π → length path ≤ length π) ∧
    nodesAt g path (traceCausalChain g "root" "leaf").
Proof.
  intros mk g.
  destruct (proj1 (traceCausalChain_shortest g "root" "leaf"))
    as (path & Hpath & Hmin & _ & Hnodes).
  - vm_compute. repeat constructor.
  - vm_compute. repeat constructor.
  - exists ["root"; "mid"; "leaf"]. vm_compute. repeat split; repeat constructor.
  - exists path. split_and!; [done..|]. apply Hnodes.
    apply built_childrenStored. unfold g. repeat apply built_add. apply built_new.
Defined.

(** ** The three-node scenario

    [root] (author A, no parents), [mid] (author B, parent [root]) and
    [leaf] (author A, parent [mid]), added in that order. *)

Example scenario_sort_trace_weights :
  let mk := λ a id t ps, mkDKGNode a "" t id [] "h" ps None None None "message" in
  let g := (addNode (addNode (addNode DKG_new (mk "A" "root" 1000%Z []) None).1
                       (mk "B" "mid" 2000%Z ["root"]) None).1
              (mk "A" "leaf" 3000%Z ["mid"]) None).1 in
  topologicalSort g =
    inr [mk "A" "root" 1000%Z []; mk "B" "mid" 2000%Z ["root"];
         mk "A" "leaf" 3000%Z ["mid"]] ∧
  xmtpMsgId <$> traceCausalChain g "root" "leaf" = ["root"; "mid"; "leaf"] ∧
  traceCausalChain g "leaf" "root" = [] ∧
  JsMap.get (computeContributionWeights g) "A" = Some (Fin (6004799503160661 # 9007199254740992)) ∧
  JsMap.get (computeContributionWeights g) "B" = Some (Fin (6004799503160661 # 18014398509481984)) ∧
  passed (auditCausality g) = true.
Proof. vm_compute. repeat split. Qed.
(** * Further properties *)

(** ** Store construction *)

(** X1. [addNode] returns the id under which it stores the node; afterwards
    [getNode] returns the node for that id and what it returned before for
    every other id, and the number of stored nodes grows by one exactly when
    the id was not stored yet. *)
Theorem addNode_getNode (g : DKG) (node : DKGNode) (nodeId : option string) (id' : string) :
  (addNode g node nodeId).2 = resolveId node nodeId ∧
  getNode (addNode g node nodeId).1 id' =
    (if decide (id' = resolveId node nodeId) then Some node else getNode g id') ∧
  JsMap.size (nodes (addNode g node nodeId).1) =
    (if decide (resolveId node nodeId ∈ JsMap.keys (nodes g))
     then JsMap.size (nodes g) else S (JsMap.size (nodes g))).
Proof.
  split_and!; [done| |].
  - unfold getNode. simpl. destruct (decide (id' = resolveId node nodeId)) as [->|Hne].
    + apply JsMap_get_set_eq.
    + by apply JsMap_get_set_ne.
  - simpl. unfold JsMap.size.
    rewrite <-!(length_fmap fst). fold (JsMap.keys (nodes g)).
    fold (JsMap.keys (JsMap.set (nodes g) (resolveId node nodeId) node)).
    destruct (decide (resolveId node nodeId ∈ JsMap.keys (nodes g))) as [Hin|Hnin].
    + by rewrite JsMap_keys_set_present.
    + rewrite JsMap_keys_set_fresh by done. rewrite length_app. simpl. lia.
Qed.

Lemma built_roots_stored g : built g → rootNodes g ⊆ JsMap.keys (nodes g).
Proof.
  induction 1 as [|g node nodeId Hb IH]; intros x Hx.
  - by apply elem_of_nil in Hx.
  - simpl in Hx. simpl.
    destruct (decide (length (parents node) = 0));
      [destruct (decide (resolveId node nodeId ∈ rootNodes g))|].
    + apply JsMap_keys_set_elem. by apply IH.
    + apply elem_of_snoc in Hx as [Hx| ->].
      * apply JsMap_keys_set_elem. by apply IH.
      * eapply JsMap_get_Some_key, JsMap_get_set_eq.
    + apply JsMap_keys_set_elem. by apply IH.
Qed.

Lemma addEdge_keys_NoDup id es p :
  NoDup (JsMap.keys es) → NoDup (JsMap.keys (addEdge id es p)).
Proof.
  intros Hnd. unfold addEdge.
  destruct (JsMap.has es p).
  - destruct (JsMap.get es p); [by apply JsMap_set_NoDup | done].
  - pose proof (JsMap_set_NoDup es p [] Hnd) as Hnd'.
    destruct (JsMap.get _ p); [by apply JsMap_set_NoDup | done].
Qed.

Lemma built_edges_NoDup g : built g → NoDup (JsMap.keys (edges g)).
Proof.
  induction 1 as [|g node nodeId Hb IH]; [apply NoDup_nil_2|]. simpl.
  revert IH. generalize (edges g). induction (parents node) as [|p ps IHps];
    intros es Hes; simpl; [done|].
  apply IHps. by apply addEdge_keys_NoDup.
Qed.

(** X2. Every store built by [addNode] keeps these invariants: the keys of
    the node map and of the edge map are distinct, no root id is listed
    twice, every root id is a stored node, and every child recorded in the
    edge map is a stored node (a parent need not be). *)
Theorem built_invariants (g : DKG) :
  built g →
  NoDup (JsMap.keys (nodes g)) ∧ NoDup (JsMap.keys (edges g)) ∧
  NoDup (rootNodes g) ∧ rootNodes g ⊆ JsMap.keys (nodes g) ∧
  (∀ p c, c ∈ getChildren g p → c ∈ JsMap.keys (nodes g)).
Proof.
  intros Hb. destruct (built_wf g Hb) as [Hk Hr]. split_and!; try done.
  - by apply built_edges_NoDup.
  - by apply built_roots_stored.
  - intros p c Hc. by apply (built_childrenStored g Hb p c).
Qed.

Lemma built_invariants_witness :
  let mk := λ id ps, mkDKGNode "A" "" 1 id [] "h" ps None None None "message" in
  let g := (addNode (addNode DKG_new (mk "b" ["a"]) None).1 (mk "b" []) None).1 in
  NoDup (JsMap.keys (nodes g)) ∧ NoDup (JsMap.keys (edges g)) ∧
  NoDup (rootNodes g) ∧ rootNodes g ⊆ JsMap.keys (nodes g) ∧
  (∀ p c, c ∈ getChildren g p → c ∈ JsMap.keys (nodes g)).
Proof.
  intros mk g. apply built_invariants.
  unfold g. repeat apply built_add. apply built_new.
Defined.

Lemma builtOnce_built g : builtOnce g → built g.
Proof. induction 1; [apply built_new | by apply built_add]. Qed.

(** In a store built without adding an id twice, the children lists hold the
    declared parents, with their multiplicities. *)
Lemma builtOnce_children g :
  builtOnce g →
  ∀ p c, occurrences c (getChildren g p) =
         match getNode g c with
         | Some n => occurrences p (parents n)
         | None => 0
         end.
Proof.
  induction 1 as [|g node nodeId Hb IH Hfresh]; intros p c.
  - done.
  - rewrite addNode_children, occurrences_app, IH. unfold getNode. simpl.
    destruct (decide (c = resolveId node nodeId)) as [->|Hne].
    + rewrite JsMap_get_set_eq, occurrences_replicate.
      apply JsMap_get_None in Hfresh. unfold getNode. by rewrite Hfresh.
    + rewrite JsMap_get_set_ne by done.
      rewrite occurrences_not_elem; [lia|].
      intros [-> _]%elem_of_replicate. done.
Qed.

Lemma builtOnce_roots g :
  builtOnce g →
  rootNodes g = (filter (λ e, parents e.2 = []) (JsMap.entries (nodes g))).*1.
Proof.
  induction 1 as [|g node nodeId Hb IH Hfresh]; [done|].
  unfold addNode. cbn [fst nodes rootNodes].
  rewrite JsMap_set_fresh by done. unfold JsMap.entries in *. rewrite filter_app, fmap_app, <-IH.
  destruct (decide (length (parents node) = 0)) as [Hlen|Hlen].
  - apply length_zero_iff_nil in Hlen.
    rewrite filter_cons_True by done. rewrite filter_nil. simpl.
    rewrite decide_False; [done|]. intros Hin. apply Hfresh.
    by apply (built_roots_stored g (builtOnce_built g Hb)).
  - rewrite filter_cons_False; [by rewrite filter_nil, app_nil_r|].
    simpl. intros Hnil. rewrite Hnil in Hlen. done.
Qed.

Lemma sum_list_append (l k : list nat) : sum_list (l ++ k) = sum_list l + sum_list k.
Proof. induction l as [|x l IH]; simpl; [done|]. rewrite IH. lia. Qed.

Lemma builtOnce_edgeCount g :
  builtOnce g → edgeCount g = sum_list ((λ e, length (parents e.2)) <$> JsMap.entries (nodes g)).
Proof.
  induction 1 as [|g node nodeId Hb IH Hfresh]; [done|].
  rewrite addNode_edgeCount, IH. unfold addNode. cbn [fst nodes].
  rewrite JsMap_set_fresh by done. unfold JsMap.entries.
  rewrite fmap_app, sum_list_append. simpl. lia.
Qed.

(** X3. In a store built by [addNode] without adding an id twice, the edge
    map is the inverse of the declared parents: [c] is a child of [p] exactly
    when the node stored under [c] lists [p] among its parents, as many times
    as it lists it; and the root ids are the keys of the parentless nodes, in
    insertion order. *)
Theorem builtOnce_edges_mirror_parents (g : DKG) :
  builtOnce g →
  (∀ p c, childOf g p c ↔ parentOf g c p) ∧
  (∀ p c n, getNode g c = Some n →
            occurrences c (getChildren g p) = occurrences p (parents n)) ∧
  rootNodes g = (filter (λ e, parents e.2 = []) (JsMap.entries (nodes g))).*1.
Proof.
  intros Hb. pose proof (builtOnce_children g Hb) as Hocc. split_and!.
  - intros p c. unfold childOf, parentOf. split.
    + intros Hc%occurrences_pos. rewrite Hocc in Hc. unfold getNode in Hc.
      destruct (JsMap.get (nodes g) c) as [n|]; [|lia].
      exists n. split; [done|].
      destruct (decide (p ∈ parents n)) as [|Hnin]; [done|].
      rewrite occurrences_not_elem in Hc by done. lia.
    + intros (n & Hget & Hp%occurrences_pos).
      destruct (decide (c ∈ getChildren g p)) as [|Hnin]; [done|].
      pose proof (Hocc p c) as H. unfold getNode in H. rewrite Hget in H.
      rewrite occurrences_not_elem in H by done. lia.
  - intros p c n Hget. by rewrite Hocc, Hget.
  - by apply builtOnce_roots.
Qed.

Lemma builtOnce_edges_mirror_parents_witness :
  let mk := λ id ps, mkDKGNode "A" "" 1 id [] "h" ps None None None "message" in
  let g := (addNode (addNode DKG_new (mk "a" []) None).1 (mk "b" ["a"; "a"]) None).1 in
  occurrences "b" (getChildren g "a") = 2 ∧ rootNodes g = ["a"].
Proof.
  intros mk g.
  destruct (builtOnce_edges_mirror_parents g) as (_ & Hocc & Hroots).
  - unfold g. apply builtOnce_add; [apply builtOnce_add; [apply builtOnce_new|]|];
      vm_compute; intros H; repeat (apply elem_of_cons in H as [H|H]; [discriminate|]);
      by apply elem_of_nil in H.
  - split.
    + exact (Hocc "a" "b" (mk "b" ["a"; "a"]) eq_refl).
    + exact Hroots.
Defined.

(** X4. For a store built without adding an id twice the audit reports the
    number of stored nodes, the number of parent references summed over the
    nodes as edge count, and the number of parentless nodes as root count. *)
Theorem auditCausality_counts (g : DKG) :
  builtOnce g →
  nodeCount (auditCausality g) = length (JsMap.keys (nodes g)) ∧
  reportEdgeCount (auditCausality g) =
    sum_list ((λ e, length (parents e.2)) <$> JsMap.entries (nodes g)) ∧
  rootNodeCount (auditCausality g) =
    length (filter (λ e, parents e.2 = []) (JsMap.entries (nodes g))).
Proof.
  intros Hb. simpl. split_and!.
  - unfold JsMap.size, JsMap.keys. by rewrite length_fmap.
  - by apply builtOnce_edgeCount.
  - rewrite (builtOnce_roots g Hb). by rewrite length_fmap.
Qed.

Lemma auditCausality_counts_witness :
  let mk := λ id ps, mkDKGNode "A" "" 1 id [] "h" ps None None None "message" in
  let g := (addNode (addNode DKG_new (mk "a" []) None).1 (mk "b" ["a"; "a"]) None).1 in
  nodeCount (auditCausality g) = 2 ∧ reportEdgeCount (auditCausality g) = 2 ∧
  rootNodeCount (auditCausality g) = 1.
Proof.
  intros mk g. apply (auditCausality_counts g).
  unfold g. apply builtOnce_add; [apply builtOnce_add; [apply builtOnce_new|]|];
    vm_compute; intros H; repeat (apply elem_of_cons in H as [H|H]; [discriminate|]);
    by apply elem_of_nil in H.
Defined.
(** ** Topological sort, thread root and audit *)

(** An order of stored keys with parents first rules out cycles and dangling
    parents. *)
Lemma parentsFirst_wellformed g order :
  NoDup order → parentsFirst g order →
  (∀ c p, parentOf g c p → c ∈ order) →
  acyclic g ∧ (∀ c p, parentOf g c p → p ∈ order).
Proof.
  intros Hnd Hpf Hkey. split.
  - intros x Htc.
    assert (x ∈ order) as [i Hi]%list_elem_of_lookup.
    { inversion Htc; subst; by eapply Hkey. }
    destruct (parentsFirst_tc g _ x x Hpf Htc i Hi) as (j & Hj & Hjx).
    pose proof (NoDup_lookup _ _ _ _ Hnd Hi Hjx). lia.
  - intros c p Hcp.
    pose proof (Hkey c p Hcp) as [i Hi]%list_elem_of_lookup.
    destruct (Hpf i c p Hi Hcp) as (j & _ & Hj). by eapply list_elem_of_lookup_2.
Qed.

(** The sort succeeds exactly on the graphs without cycle and without
    dangling parent. *)
Lemma sortRun_inr_iff g :
  (∃ st, sortRun g = inr st) ↔ acyclic g ∧ parentsPresent g.
Proof.
  pose proof (sortRun_loop g) as Hloop. split.
  - intros [st Hst]. rewrite Hst in Hloop.
    apply sortLoop_post in Hloop as ([H1 H2 H3 H4] & _ & Hall).
    destruct (parentsFirst_wellformed g (visited st) H1 H3) as [Hacyc Hpres].
    { intros c p (node & Hget & _). by eapply Hall, JsMap_get_Some_key. }
    split; [done|]. intros c p Hcp. by apply (nodesAt_keys g _ _ H2), (Hpres c).
  - intros [Hacyc Hpres]. destruct (sortRun g) as [e|st]; [|by eexists].
    exfalso. apply sortLoop_error in Hloop. destruct e as [q|q].
    + by apply (Hacyc q).
    + destruct Hloop as (Hq & c & Hc). by apply Hq, (Hpres c).
Qed.

(** X5. [topologicalSort] returns a list exactly when the graph has no cycle
    of declared parents and every declared parent is stored; on every other
    graph it throws. *)
Theorem topologicalSort_succeeds_iff (g : DKG) :
  (∃ sorted, topologicalSort g = inr sorted) ↔ acyclic g ∧ parentsPresent g.
Proof.
  rewrite <-sortRun_inr_iff. unfold topologicalSort.
  destruct (sortRun g) as [e|st]; split; intros [x Hx]; try done; eauto.
Qed.

(** X6. The error of a failed [topologicalSort] is truthful: a cycle error
    names a node that is its own ancestor, and a not-found error names an id
    that is not stored and that some stored node declares as a parent. *)
Theorem topologicalSort_error_sound (g : DKG) (e : SortError) :
  topologicalSort g = inl e →
  match e with
  | CycleDetected q => tc (parentOf g) q q
  | NodeNotFound q => (q ∉ JsMap.keys (nodes g)) ∧ (∃ c, parentOf g c q)
  end.
Proof.
  unfold topologicalSort. pose proof (sortRun_loop g) as Hloop.
  destruct (sortRun g) as [e'|st]; [|done]. intros [= ->].
  by apply sortLoop_error in Hloop.
Qed.

Lemma topologicalSort_error_sound_witness :
  let mk := λ id ps, mkDKGNode "A" "" 1 id [] "h" ps None None None "message" in
  let g := (addNode (addNode DKG_new (mk "n1" ["n2"]) None).1 (mk "n2" ["n1"]) None).1 in
  tc (parentOf g) "n1" "n1".
Proof.
  intros mk g. exact (topologicalSort_error_sound g (CycleDetected "n1") eq_refl).
Defined.

Lemma forEach_cons {E S A} (f : A → S → Run E S) x l st :
  forEach f (x :: l) st =
  match f x st with
  | Some (inr st') => forEach f l st'
  | r => r
  end.
Proof. done. Qed.

(** A parent that is visited and not in progress is left alone. *)
Lemma forEach_visit_visited g fuel ps st :
  (∀ p, p ∈ ps → p ∈ visited st ∧ p ∉ visiting st) →
  forEach (visit (S fuel) g) ps st = Some (inr st).
Proof.
  induction ps as [|p ps IH]; intros Hps; [done|]. rewrite forEach_cons.
  destruct (Hps p) as [Hv Hw]; [left|]. rewrite visit_S.
  rewrite decide_False, decide_True by done.
  apply IH. intros q Hq. apply Hps. by right.
Qed.

(** The outer loop on a store filled in causal order: each key is appended
    when it is met. *)
Lemma sortLoop_ordered g fuel : ∀ es done st,
  NoDup (JsMap.keys (nodes g)) → done ++ es = nodes g →
  visited st = done.*1 → result st = done.*2 → visiting st = [] →
  insertionOrdered (done.*1) es = true →
  forEach (visitIfNew (S (S fuel)) g) (es.*1) st =
  Some (inr {| visited := JsMap.keys (nodes g); visiting := [];
               result := JsMap.values (nodes g) |}).
Proof.
  induction es as [|[k n] es IH]; intros done st Hnd Heq Hv Hr Hw Hord.
  - rewrite app_nil_r in Heq. subst done. simpl. destruct st. simpl in *. by subst.
  - simpl in Hord. apply andb_true_iff in Hord as [Hps Hrest].
    assert (Hget : JsMap.get (nodes g) k = Some n).
    { apply JsMap_elem_get; [done|]. rewrite <-Heq. apply elem_of_app. right. left. }
    assert (Hk : k ∉ visited st).
    { rewrite Hv. unfold JsMap.keys in Hnd. rewrite <-Heq, fmap_app in Hnd.
      apply NoDup_app in Hnd as (_ & Hdisj & _). intros Hin.
      apply (Hdisj k Hin). left. }
    rewrite fmap_cons. change ((k, n).1) with k.
    rewrite forEach_cons. unfold visitIfNew at 1.
    rewrite decide_False by done. rewrite visit_S, Hw.
    rewrite decide_False by apply not_elem_of_nil. rewrite decide_False by done.
    rewrite Hget. rewrite forEach_visit_visited.
    + apply (IH (done ++ [(k, n)])).
      * done.
      * by rewrite <-app_assoc.
      * cbn [visited]. by rewrite Hv, fmap_app.
      * cbn [result]. by rewrite Hr, fmap_app.
      * cbn [visiting]. rewrite app_nil_l, filter_cons_False by (by intros ?). done.
      * by rewrite fmap_app.
    + intros p Hp. simpl. rewrite forallb_forall in Hps.
      apply list_elem_of_In, Hps, bool_decide_eq_true in Hp. rewrite Hv. split; [done|].
      intros ->%list_elem_of_singleton. apply Hk. by rewrite Hv.
Qed.

(** X7. On a store whose nodes were added after their parents (each id once)
    [topologicalSort] returns the nodes in insertion order. *)
Theorem topologicalSort_insertion_order (g : DKG) :
  NoDup (JsMap.keys (nodes g)) → insertionOrdered [] (nodes g) = true →
  topologicalSort g = inr (JsMap.values (nodes g)).
Proof.
  intros Hnd Hord. unfold topologicalSort, sortRun, sortLoop.
  destruct (decide (nodes g = [])) as [Hn|Hn].
  { unfold sortFuel. by rewrite Hn. }
  assert (sortFuel g = S (S (pred (length (nodes g))))) as ->.
  { unfold sortFuel, JsMap.size. destruct (nodes g); [done | simpl; lia]. }
  unfold JsMap.keys at 1.
  by rewrite (sortLoop_ordered g _ (nodes g) [] sortInit).
Qed.

Lemma topologicalSort_insertion_order_witness :
  let mk := λ id ps, mkDKGNode "A" "" 1 id [] "h" ps None None None "message" in
  let g := (addNode (addNode (addNode DKG_new (mk "a" []) None).1
                       (mk "c" ["a"]) None).1 (mk "b" ["a"; "c"]) None).1 in
  topologicalSort g = inr [mk "a" []; mk "c" ["a"]; mk "b" ["a"; "c"]].
Proof.
  intros mk g. apply (topologicalSort_insertion_order g).
  - apply (bool_decide_unpack _). vm_compute. reflexivity.
  - vm_compute. reflexivity.
Defined.

Section ThreadRootFacts.
Variable keccak256 : string → string.

(** X8. [computeThreadRoot] returns a digest exactly when the graph has no
    cycle and no dangling parent; otherwise it throws the error of the
    sort. *)
Theorem computeThreadRoot_succeeds_iff (g : DKG) :
  ((∃ root, computeThreadRoot keccak256 g = inr root) ↔
   acyclic g ∧ parentsPresent g) ∧
  (∀ e, computeThreadRoot keccak256 g = inl e ↔ topologicalSort g = inl e).
Proof.
  assert (Hinl : ∀ e, computeThreadRoot keccak256 g = inl e ↔ topologicalSort g = inl e).
  { intros e. unfold computeThreadRoot.
    destruct (topologicalSort g) as [e'|sorted]; [split; by intros [= ->]|].
    split; [|done]. repeat case_decide; try done.
    by destruct (reduceLoop _ _ _). }
  split; [|done]. rewrite <-sortRun_inr_iff. split.
  - intros [root Hroot]. destruct (sortRun g) as [e'|st] eqn:Hrun; [|by eauto].
    assert (topologicalSort g = inl e') as Hs by (unfold topologicalSort; by rewrite Hrun).
    apply Hinl in Hs. congruence.
  - intros [st Hst].
    assert (Hne : ∀ e, computeThreadRoot keccak256 g ≠ inl e).
    { intros e He%Hinl. unfold topologicalSort in He. by rewrite Hst in He. }
    destruct (computeThreadRoot keccak256 g) as [e|root]; [by destruct (Hne e) | by eauto].
Qed.

End ThreadRootFacts.

Lemma missingRefs_nil_iff g :
  NoDup (JsMap.keys (nodes g)) → missingRefs g = [] ↔ parentsPresent g.
Proof.
  intros Hnd. split.
  - intros Hnil c p Hcp.
    destruct (decide (p ∈ JsMap.keys (nodes g))) as [|Hnin]; [done|].
    pose proof (missingRefs_elem g c p Hcp Hnin) as Hin. rewrite Hnil in Hin.
    by apply elem_of_nil in Hin.
  - intros Hpres. destruct (missingRefs g) as [|[c p] l] eqn:Hm; [done|]. exfalso.
    assert (Hin : (c, p) ∈ missingRefs g) by (rewrite Hm; left).
    unfold missingRefs in Hin.
    apply list_elem_of_bind in Hin as ([c' node] & Hin & Hentry).
    apply list_elem_of_bind in Hin as (p' & Heq & Hp').
    apply list_elem_of_singleton in Heq. injection Heq as -> ->.
    apply list_elem_of_filter in Hp' as [Hmiss Hp']. simpl in *.
    apply Hmiss, (Hpres c'). exists node. split; [by apply JsMap_elem_get | done].
Qed.

Lemma timestampViolations_nil_iff g :
  NoDup (JsMap.keys (nodes g)) → timestampViolations g = [] ↔ timestampsMonotone g.
Proof.
  intros Hnd. split.
  - intros Hnil c p node parent Hc Hp Hparent.
    destruct (decide (ts parent > ts node)%Z) as [Hgt|]; [|lia]. exfalso.
    assert (Hin : ((c, node), (p, parent)) ∈ timestampViolations g).
    { unfold timestampViolations. apply list_elem_of_bind. exists (c, node).
      split; [|by apply JsMap_get_Some_elem].
      apply list_elem_of_bind. exists p. split; [|done]. simpl. rewrite Hparent.
      rewrite decide_True by done. left. }
    rewrite Hnil in Hin. by apply elem_of_nil in Hin.
  - intros Hmono. destruct (timestampViolations g) as [|v l] eqn:Hm; [done|]. exfalso.
    assert (Hin : v ∈ timestampViolations g) by (rewrite Hm; left).
    unfold timestampViolations in Hin.
    apply list_elem_of_bind in Hin as ([c node] & Hin & Hentry).
    apply list_elem_of_bind in Hin as (p & Hv & Hp). simpl in *.
    destruct (JsMap.get (nodes g) p) as [parent|] eqn:Hparent;
      [|by apply elem_of_nil in Hv].
    destruct (decide (ts parent > ts node)%Z) as [Hgt|]; [|by apply elem_of_nil in Hv].
    pose proof (Hmono c p node parent (JsMap_elem_get _ _ _ Hnd Hentry) Hp Hparent). lia.
Qed.

(** X9. The audit passes exactly on the well-formed graphs: every declared
    parent is stored, no stored parent has a later timestamp than its child,
    and no node is its own ancestor. *)
Theorem auditCausality_passed_iff (g : DKG) :
  NoDup (JsMap.keys (nodes g)) →
  passed (auditCausality g) = true ↔
  parentsPresent g ∧ timestampsMonotone g ∧ acyclic g.
Proof.
  intros Hnd. rewrite auditCausality_passed, auditCausality_issues_list.
  rewrite <-(missingRefs_nil_iff g Hnd), <-(timestampViolations_nil_iff g Hnd).
  split.
  - intros [Hm [Ht Hs]%app_eq_nil]%app_eq_nil.
    apply fmap_nil_inv in Hm, Ht. split_and!; [done..|].
    assert (∃ st, sortRun g = inr st) as [Hacyc _]%sortRun_inr_iff; [|done].
    unfold topologicalSort in Hs. destruct (sortRun g); [done | by eauto].
  - intros (Hm & Ht & Hacyc). rewrite Hm, Ht. simpl.
    assert (∃ st, sortRun g = inr st) as [st Hst].
    { apply sortRun_inr_iff. split; [done|]. by apply missingRefs_nil_iff. }
    unfold topologicalSort. by rewrite Hst.
Qed.

Lemma auditCausality_passed_iff_witness :
  let mk := λ id t ps, mkDKGNode "A" "" t id [] "h" ps None None None "message" in
  let g := (addNode (addNode DKG_new (mk "a" 1%Z []) None).1 (mk "b" 2%Z ["a"]) None).1 in
  parentsPresent g ∧ timestampsMonotone g ∧ acyclic g.
Proof.
  intros mk g. apply (auditCausality_passed_iff g).
  - apply (bool_decide_unpack _). vm_compute. reflexivity.
  - vm_compute. reflexivity.
Defined.

Section AuditThreadRoot.
Variable keccak256 : string → string.

(** X10. When the audit passes, [topologicalSort] and [computeThreadRoot]
    both return: a passed audit is never followed by a thrown sort. *)
Theorem auditCausality_passed_root (g : DKG) :
  passed (auditCausality g) = true →
  ∃ sorted root, topologicalSort g = inr sorted ∧
                 computeThreadRoot keccak256 g = inr root.
Proof.
  rewrite auditCausality_passed, auditCausality_issues_list.
  intros [_ [_ Hs]%app_eq_nil]%app_eq_nil.
  destruct (topologicalSort g) as [e|sorted] eqn:Hsort; [done|].
  exists sorted. destruct sorted as [|n sorted].
  - exists ZeroHash. split; [done|]. unfold computeThreadRoot. by rewrite Hsort.
  - destruct (computeThreadRoot_sorted keccak256 g (n :: sorted) Hsort) as (root & Hr & _);
      [done|]. by exists root.
Qed.

End AuditThreadRoot.

Lemma auditCausality_passed_root_witness :
  let mk := λ id t ps, mkDKGNode "A" "" t id [] "h" ps None None None "message" in
  let g := (addNode (addNode DKG_new (mk "a" 1%Z []) None).1 (mk "b" 2%Z ["a"]) None).1 in
  ∃ sorted root, topologicalSort g = inr sorted ∧
                 computeThreadRoot (λ s, s) g = inr root.
Proof.
  intros mk g. apply (auditCausality_passed_root (λ s, s) g). vm_compute. reflexivity.
Defined.
(** ** Critical nodes *)

Lemma filter_none {A} (P : A → Prop) `{∀ x, Decision (P x)} (l : list A) :
  Forall (λ x, ¬ P x) l → filter P l = [].
Proof.
  induction 1 as [|x l Hx _ IH]; [done|]. by rewrite filter_cons_False by done.
Qed.

Section SortByKey.
Context {A : Type} (key : A → nat).

Lemma insertWith_cons x y l :
  insertWith (byKeyDesc key) x (y :: l) =
  if decide (key y < key x) then x :: y :: l else y :: insertWith (byKeyDesc key) x l.
Proof.
  simpl. unfold byKeyDesc.
  destruct (decide (key y < key x)).
  - by rewrite decide_True by lia.
  - by rewrite decide_False by lia.
Qed.

Lemma insertWith_Permutation x l : insertWith (byKeyDesc key) x l ≡ₚ x :: l.
Proof.
  induction l as [|y l IH]; [done|]. rewrite insertWith_cons.
  case_decide; [done|]. rewrite IH. apply perm_swap.
Qed.

Lemma insertWith_sorted x l :
  StronglySorted (λ a b, key b ≤ key a) l →
  StronglySorted (λ a b, key b ≤ key a) (insertWith (byKeyDesc key) x l).
Proof.
  induction 1 as [|y l Hl IH Hy]; [by repeat constructor|].
  rewrite insertWith_cons. case_decide as Hlt.
  - constructor; [by constructor|]. constructor; [lia|].
    eapply Forall_impl; [exact Hy|]. intros z Hz. simpl in Hz. lia.
  - constructor; [done|]. rewrite insertWith_Permutation.
    constructor; [lia | done].
Qed.

(** An element is inserted after the elements of the same key. *)
Lemma insertWith_filter x l v :
  StronglySorted (λ a b, key b ≤ key a) l →
  filter (λ a, key a = v) (insertWith (byKeyDesc key) x l) =
  filter (λ a, key a = v) l ++ filter (λ a, key a = v) [x].
Proof.
  induction 1 as [|y l Hl IH Hy]; [by rewrite app_nil_l|].
  rewrite insertWith_cons. case_decide as Hlt.
  - destruct (decide (key x = v)) as [Hx|Hx].
    + rewrite (filter_cons_True _ x) by done.
      rewrite (filter_cons_False _ y) by lia.
      assert (filter (λ a, key a = v) l = []) as ->.
      2:{ by rewrite filter_cons_True by done. }
      apply filter_none. eapply Forall_impl; [exact Hy|].
      intros z Hz. simpl in *. lia.
    + rewrite !(filter_cons_False _ x) by done.
      change (filter (λ a, key a = v) []) with (@nil A). by rewrite app_nil_r.
  - destruct (decide (key y = v)) as [Hyv|Hyv].
    + by rewrite !(filter_cons_True _ y), IH by done.
    + by rewrite !(filter_cons_False _ y), IH by done.
Qed.

Lemma sortWith_foldl (acc l : list A) :
  StronglySorted (λ a b, key b ≤ key a) acc →
  foldl (λ acc x, insertWith (byKeyDesc key) x acc) acc l ≡ₚ acc ++ l ∧
  StronglySorted (λ a b, key b ≤ key a)
    (foldl (λ acc x, insertWith (byKeyDesc key) x acc) acc l) ∧
  ∀ v, filter (λ a, key a = v) (foldl (λ acc x, insertWith (byKeyDesc key) x acc) acc l) =
       filter (λ a, key a = v) (acc ++ l).
Proof.
  revert acc. induction l as [|x l IH]; intros acc Hacc; simpl.
  - rewrite app_nil_r. by split_and!.
  - destruct (IH (insertWith (byKeyDesc key) x acc)) as (Hp & Hs & Hf);
      [by apply insertWith_sorted|].
    split_and!; [|done|].
    + rewrite Hp, insertWith_Permutation. by rewrite <-Permutation_middle.
    + intros v. rewrite Hf, !filter_app, insertWith_filter by done.
      by rewrite <-app_assoc, <-filter_app.
Qed.

(** The sort permutes its input, puts larger keys first and keeps elements
    of equal key in their order. *)
Lemma sortWith_byKeyDesc (l : list A) :
  sortWith (byKeyDesc key) l ≡ₚ l ∧
  StronglySorted (λ a b, key b ≤ key a) (sortWith (byKeyDesc key) l) ∧
  ∀ v, filter (λ a, key a = v) (sortWith (byKeyDesc key) l) = filter (λ a, key a = v) l.
Proof. apply (sortWith_foldl [] l). constructor. Qed.

End SortByKey.

Lemma foldl_push_filter {A} (P : A → Prop) `{∀ x, Decision (P x)} (l acc : list A) :
  foldl (λ acc x, if decide (P x) then acc ++ [x] else acc) acc l = acc ++ filter P l.
Proof.
  revert acc. induction l as [|x l IH]; intros acc; simpl.
  - by rewrite app_nil_r.
  - rewrite IH. destruct (decide (P x)).
    + by rewrite filter_cons_True, <-app_assoc by done.
    + by rewrite filter_cons_False by done.
Qed.

Lemma findCriticalNodes_unfold g threshold :
  findCriticalNodes g threshold =
  sortWith (byKeyDesc (countDescendants g))
    (filter (λ k, (Z.of_nat (countDescendants g k) >=
                   match threshold with Some t => t | None => 3 end)%Z)
       (JsMap.keys (nodes g))).
Proof.
  unfold findCriticalNodes.
  by rewrite (foldl_push_filter
    (λ k, (Z.of_nat (countDescendants g k) >=
           match threshold with Some t => t | None => 3 end)%Z)).
Qed.

(** X11. [findCriticalNodes] returns the stored ids whose descendant count
    reaches the threshold (3 when none is given), each as often as it is a
    key, ordered by non-increasing descendant count; ids of equal count keep
    their insertion order. *)
Theorem findCriticalNodes_spec (g : DKG) (threshold : option Z) :
  let t := match threshold with Some t => t | None => 3%Z end in
  let critical := findCriticalNodes g threshold in
  let qualifying :=
    filter (λ k, (Z.of_nat (countDescendants g k) >= t)%Z) (JsMap.keys (nodes g)) in
  critical ≡ₚ qualifying ∧
  (∀ k, k ∈ critical ↔
        k ∈ JsMap.keys (nodes g) ∧ (t ≤ Z.of_nat (countDescendants g k))%Z) ∧
  StronglySorted (λ a b, countDescendants g b ≤ countDescendants g a) critical ∧
  (∀ c, filter (λ k, countDescendants g k = c) critical =
        filter (λ k, countDescendants g k = c) qualifying).
Proof.
  intros t critical qualifying. unfold critical.
  rewrite findCriticalNodes_unfold. fold t. fold qualifying.
  destruct (sortWith_byKeyDesc (countDescendants g) qualifying) as (Hp & Hs & Hf).
  split_and!; [done| |done|done].
  intros k. rewrite Hp. unfold qualifying. rewrite list_elem_of_filter.
  split; intros [? ?]; split; try done; lia.
Qed.
(** ** Paths *)

Lemma chain_app_l g l1 l2 : chain g (l1 ++ l2) → chain g l1.
Proof.
  induction l1 as [|x l1 IH]; [done|]. destruct l1 as [|y l1]; [done|].
  intros [Hxy H]. split; [done|]. by apply IH.
Qed.

Lemma chain_join g l1 x l2 :
  chain g (l1 ++ [x]) → chain g (x :: l2) → chain g (l1 ++ x :: l2).
Proof.
  induction l1 as [|y l1 IH]; [done|]. intros H1 H2.
  destruct l1 as [|z l1].
  - destruct H1 as [Hyx _]. by split.
  - destruct H1 as [Hyz H1]. split; [done|]. by apply IH.
Qed.

Lemma list_dup_split (l : list string) :
  ¬ NoDup l → ∃ l1 x l2 l3, l = l1 ++ x :: l2 ++ x :: l3.
Proof.
  induction l as [|y l IH]; intros Hnd.
  - destruct Hnd. apply NoDup_nil_2.
  - destruct (decide (y ∈ l)) as [Hin|Hnin].
    + apply list_elem_of_split in Hin as (l2 & l3 & ->). by exists [], y, l2, l3.
    + destruct IH as (l1 & x & l2 & l3 & ->).
      { intros Hl. apply Hnd. by constructor. }
      by exists (y :: l1), x, l2, l3.
Qed.

(** Cutting the part of a path between two occurrences of a node. *)
Lemma pathFromTo_cut g a b l1 x l2 l3 :
  pathFromTo g a b (l1 ++ x :: l2 ++ x :: l3) → pathFromTo g a b (l1 ++ x :: l3).
Proof.
  intros (Hh & Hl & Hc). split_and!.
  - by destruct l1.
  - rewrite last_app_cons in Hl. rewrite last_app_cons.
    change (x :: l2 ++ x :: l3) with ((x :: l2) ++ x :: l3) in Hl.
    by rewrite last_app_cons in Hl.
  - apply chain_join.
    + replace (l1 ++ x :: l2 ++ x :: l3) with ((l1 ++ [x]) ++ l2 ++ x :: l3) in Hc
        by (by rewrite <-app_assoc).
      by apply chain_app_l in Hc.
    + apply chain_app_r in Hc.
      change (x :: l2 ++ x :: l3) with ((x :: l2) ++ x :: l3) in Hc.
      by apply chain_app_r in Hc.
Qed.

(** A shortest path does not pass twice through a node. *)
Lemma shortest_path_NoDup g a b path :
  pathFromTo g a b path →
  (∀ π, pathFromTo g a b π → length path ≤ length π) → NoDup path.
Proof.
  intros Hpath Hmin. destruct (decide (NoDup path)) as [|Hdup]; [done|]. exfalso.
  apply list_dup_split in Hdup as (l1 & x & l2 & l3 & ->).
  pose proof (Hmin _ (pathFromTo_cut g a b l1 x l2 l3 Hpath)) as Hlen.
  rewrite !length_app in Hlen. simpl in Hlen. rewrite !length_app in Hlen.
  simpl in Hlen. lia.
Qed.

Lemma tracePath_self g a : a ∈ JsMap.keys (nodes g) → tracePath g a a = [a].
Proof.
  intros Ha. unfold tracePath. apply JsMap_has_true in Ha. rewrite Ha.
  cbn [negb orb]. unfold traceFuel. rewrite bfs_S. by rewrite decide_True.
Qed.

(** X12. The chain [traceCausalChain] returns follows a list of ids in which
    no id occurs twice; from a stored node to itself it is that node alone,
    whether or not the node lies on a cycle. *)
Theorem traceCausalChain_simple (g : DKG) (fromNodeId toNodeId : string) :
  (∃ path, NoDup path ∧
           traceCausalChain g fromNodeId toNodeId = omap (JsMap.get (nodes g)) path) ∧
  (∀ node, getNode g fromNodeId = Some node →
           traceCausalChain g fromNodeId fromNodeId = [node]).
Proof.
  split.
  - exists (tracePath g fromNodeId toNodeId). split; [|done].
    destruct (decide (fromNodeId ∈ JsMap.keys (nodes g))) as [Ha|Ha];
      [|rewrite tracePath_absent; [apply NoDup_nil_2 | by left]].
    destruct (decide (toNodeId ∈ JsMap.keys (nodes g))) as [Hb|Hb];
      [|rewrite tracePath_absent; [apply NoDup_nil_2 | by right]].
    pose proof (tracePath_bfs g _ _ Ha Hb) as Hrun.
    apply (bfs_correct g fromNodeId) in Hrun as [[-> _]|[Hpath Hmin]];
      [apply NoDup_nil_2 | by eapply shortest_path_NoDup | apply bfsInv_init].
  - intros node Hget. unfold traceCausalChain.
    rewrite tracePath_self by (by eapply JsMap_get_Some_key).
    unfold getNode in Hget. simpl. by rewrite Hget.
Qed.
(** ** Descendant count: what is counted *)

Lemma outEdges_cons g x l : outEdges g (x :: l) = length (getChildren g x) + outEdges g l.
Proof. done. Qed.

Lemma outEdges_app g l k : outEdges g (l ++ k) = outEdges g l + outEdges g k.
Proof. unfold outEdges. by rewrite fmap_app, sum_list_append. Qed.

Lemma reachAvoiding_step g V V' x c y :
  childOf g x c → x ∉ V → V ⊆ V' → reachAvoiding g V' c y → reachAvoiding g V x y.
Proof.
  intros Hxc Hx Hsub (path & (Hh & Hl & Hc) & Hav).
  exists (x :: path). split.
  - destruct path as [|c' path]; [done|]. injection Hh as ->.
    split_and!; [done | done | by split].
  - constructor; [done|]. eapply Forall_impl; [exact Hav|].
    intros z Hz Hin. by apply Hz, Hsub.
Qed.

Lemma countLoop_post g fuel id V0 :
  (∀ c V n V', count fuel g c V = Some (n, V') → countPost g c V n V') →
  id ∉ V0 →
  ∀ children total V n V',
    V0 ⊆ V → children ⊆ getChildren g id →
    countLoop (count fuel g) children total V = Some (n, V') →
    ∃ new, V' = V ++ new ∧ NoDup new ∧ (∀ y, y ∈ new → y ∉ V) ∧
           (∀ y, y ∈ new → reachAvoiding g V0 id y) ∧
           (∀ u c, u ∈ new → childOf g u c → c ∈ V') ∧
           (∀ c, c ∈ children → c ∈ V') ∧ n = total + outEdges g new.
Proof.
  intros Hcount Hid children.
  induction children as [|c cs IH]; intros total V n V' HV Hsub Hrun; simpl in Hrun.
  - injection Hrun as <- <-. exists []. rewrite app_nil_r.
    split_and!; try done; try apply NoDup_nil_2;
      try (intros ? H; by apply elem_of_nil in H);
      try (intros ? ? H; by apply elem_of_nil in H);
      try (unfold outEdges; simpl; lia).
  - destruct (count fuel g c V) as [[n1 V1]|] eqn:Hc; [|done].
    apply Hcount in Hc as (new1 & -> & Hnd1 & Hfresh1 & Hreach1 & Hclosed1 & Hc1 & ->).
    apply IH in Hrun as (new2 & -> & Hnd2 & Hfresh2 & Hreach2 & Hclosed2 & Hcs & ->).
    + exists (new1 ++ new2). split_and!.
      * by rewrite app_assoc.
      * apply NoDup_app. split_and!; [done| |done].
        intros y Hy1 Hy2. apply (Hfresh2 y Hy2). apply elem_of_app. by right.
      * intros y [Hy|Hy]%elem_of_app; [by apply Hfresh1|].
        intros HyV. apply (Hfresh2 y Hy). apply elem_of_app. by left.
      * intros y [Hy|Hy]%elem_of_app; [|by apply Hreach2].
        eapply (reachAvoiding_step g V0 V id c); [|done|done|by apply Hreach1].
        apply Hsub. left.
      * intros u c' [Hu|Hu]%elem_of_app Hc'; [|by eapply Hclosed2].
        apply elem_of_app. left. by eapply Hclosed1.
      * intros c' [->|Hc']%elem_of_cons; [|by apply Hcs].
        apply elem_of_app. by left.
      * rewrite outEdges_app. lia.
    + intros y Hy. apply elem_of_app. left. by apply HV.
    + intros y Hy. apply Hsub. by right.
Qed.

Lemma count_post g fuel : ∀ id V n V',
  count fuel g id V = Some (n, V') → countPost g id V n V'.
Proof.
  induction fuel as [|fuel IH]; intros id V n V' Hrun; [done|].
  rewrite count_S in Hrun. destruct (decide (id ∈ V)) as [Hin|Hnin].
  - injection Hrun as <- <-. exists []. rewrite app_nil_r.
    split_and!; try done; try apply NoDup_nil_2;
      try (intros ? H; by apply elem_of_nil in H);
      try (intros ? ? H; by apply elem_of_nil in H).
  - apply (countLoop_post g fuel id V IH Hnin) in Hrun
      as (new & -> & Hnd & Hfresh & Hreach & Hclosed & Hcs & ->).
    + exists (id :: new). split_and!.
      * by rewrite <-app_assoc.
      * constructor; [|done]. intros Hid. apply (Hfresh id Hid), elem_of_snoc. by right.
      * intros y [->|Hy]%elem_of_cons; [done|].
        intros HyV. apply (Hfresh y Hy), elem_of_snoc. by left.
      * intros y [->|Hy]%elem_of_cons; [|by apply Hreach].
        exists [id]. split; [apply pathFromTo_refl|]. by repeat constructor.
      * intros u c [->|Hu]%elem_of_cons Hc; [by apply Hcs | by eapply Hclosed].
      * apply elem_of_app. left. apply elem_of_snoc. by right.
      * by rewrite outEdges_cons.
    + intros y Hy. apply elem_of_snoc. by left.
    + done.
Qed.

(** A path that starts in a set closed under the forward edges stays in it. *)
Lemma chain_closed g (S : list string) path :
  (∀ u c, u ∈ S → childOf g u c → c ∈ S) →
  chain g path → (∀ x, head path = Some x → x ∈ S) → Forall (λ z, z ∈ S) path.
Proof.
  intros Hclosed. induction path as [|x path IH]; intros Hc Hh; [done|].
  assert (Hx : x ∈ S) by (by apply Hh). constructor; [done|].
  destruct path as [|y path]; [done|]. destruct Hc as [Hxy Hc].
  apply IH; [done|]. intros ? [= <-]. by eapply Hclosed.
Qed.

Lemma pathFromTo_tc g a b path : pathFromTo g a b path → b = a ∨ tc (childOf g) a b.
Proof.
  revert a. induction path as [|x path IH]; intros a (Hh & Hl & Hc); [done|].
  injection Hh as ->. destruct path as [|y path].
  - injection Hl as ->. by left.
  - destruct Hc as [Hay Hc]. right.
    destruct (IH y) as [->|Htc]; [by split_and! | by apply tc_once | by eapply tc_l].
Qed.

Lemma tc_pathFromTo g a b : tc (childOf g) a b → ∃ path, pathFromTo g a b path.
Proof.
  induction 1 as [a b Hab|a c b Hac _ (path & Hh & Hl & Hc)].
  - exists [a; b]. by split_and!.
  - exists (a :: path). destruct path as [|c' path]; [done|]. injection Hh as ->.
    by split_and!.
Qed.

Lemma Forall_notin_nil (l : list string) : Forall (λ z, z ∉ []) l.
Proof. apply Forall_forall. intros z _. apply not_elem_of_nil. Qed.

(** The ids [count] visits from [nodeId] are [nodeId] and its descendants. *)
Lemma count_reached g nodeId n V' :
  count (countFuel g) g nodeId [] = Some (n, V') →
  NoDup V' ∧ (∀ y, y ∈ V' ↔ y = nodeId ∨ descendant g nodeId y) ∧ n = outEdges g V'.
Proof.
  intros (new & -> & Hnd & _ & Hreach & Hclosed & Hid & ->)%count_post.
  simpl in *. split_and!; [done| |done].
  intros y. split.
  - intros (path & Hpath & _)%Hreach. by eapply pathFromTo_tc.
  - intros Hy.
    assert (∃ path, pathFromTo g nodeId y path) as (path & Hh & Hl & Hc).
    { destruct Hy as [->|Htc]; [eexists; apply pathFromTo_refl | by apply tc_pathFromTo]. }
    assert (Hall : Forall (λ z, z ∈ new) path).
    { apply (chain_closed g); [done|done|]. intros x Hx. congruence. }
    apply last_Some in Hl as (l' & ->).
    rewrite Forall_app, Forall_singleton in Hall. by destruct Hall.
Qed.

(** X13. [countDescendants] returns the number of forward edges that leave the
    node and its descendants: the lengths of the children lists of these ids,
    each id taken once, added up. *)
Theorem countDescendants_edges (g : DKG) (nodeId : string) :
  ∃ reached, NoDup reached ∧
             (∀ y, y ∈ reached ↔ y = nodeId ∨ descendant g nodeId y) ∧
             countDescendants g nodeId = outEdges g reached.
Proof.
  unfold countDescendants.
  destruct (count_fuel g nodeId) as [[n V'] Hrun]. rewrite Hrun.
  exists V'. by apply count_reached.
Qed.
Lemma outEdges_concat g l : outEdges g l = length (concat (getChildren g <$> l)).
Proof.
  induction l as [|x l IH]; [done|].
  rewrite outEdges_cons, fmap_cons. simpl. by rewrite length_app, IH.
Qed.

(** A descendant is a child of the node or of one of its descendants. *)
Lemma descendant_last g x y :
  descendant g x y → ∃ u, (u = x ∨ descendant g x u) ∧ childOf g u y.
Proof.
  induction 1 as [x y Hxy|x z y Hxz Hzy (u & Hu & Huy)].
  - exists x. split; [by left | done].
  - exists u. split; [|done]. right.
    destruct Hu as [->|Hzu]; [by apply tc_once | by eapply tc_l].
Qed.

Lemma descendant_children g (reached : list string) x :
  (∀ y, y ∈ reached ↔ y = x ∨ descendant g x y) →
  ∀ y, y ∈ concat (getChildren g <$> reached) ↔ descendant g x y.
Proof.
  intros Hreached y. rewrite list_elem_of_In, in_concat. split.
  - intros (cs & Hcs & Hy). apply list_elem_of_In, list_elem_of_fmap in Hcs as (u & -> & Hu).
    apply list_elem_of_In in Hy. apply Hreached in Hu as [->|Hxu].
    + by apply tc_once.
    + eapply tc_r; [exact Hxu | exact Hy].
  - intros (u & Hu & Huy)%descendant_last. exists (getChildren g u). split.
    + apply list_elem_of_In, list_elem_of_fmap. exists u. split; [done|]. by apply Hreached.
    + by apply list_elem_of_In.
Qed.

Lemma sum_list_cons (a : nat) l : sum_list (a :: l) = a + sum_list l.
Proof. done. Qed.

Lemma sum_list_indicator (k : string) (n : nat) l :
  NoDup l → sum_list ((λ y, if decide (y = k) then n else 0) <$> l) ≤ n.
Proof.
  induction 1 as [|x l Hx Hnd IH]; [simpl; lia|].
  rewrite fmap_cons, sum_list_cons.
  destruct (decide (x = k)) as [->|Hne]; [|done].
  assert (Hz : sum_list ((λ y, if decide (y = k) then n else 0) <$> l) = 0).
  { clear IH Hnd. induction l as [|z l IHl]; [done|].
    apply not_elem_of_cons in Hx as [Hkz Hx].
    rewrite fmap_cons, sum_list_cons, decide_False by done. by apply IHl. }
  rewrite Hz. lia.
Qed.

Lemma sum_children_le (es : JsMap.t (list string)) l :
  NoDup l →
  sum_list ((λ y, length (default [] (JsMap.get es y))) <$> l) ≤ totalLength es.
Proof.
  intros Hnd. induction es as [|[k v] es IH].
  - clear Hnd. induction l as [|x l IHl]; [done|].
    by rewrite fmap_cons, sum_list_cons.
  - rewrite totalLength_cons.
    pose proof (sum_list_indicator k (length v) l Hnd) as Hk.
    assert (Hle : sum_list ((λ y, length (default [] (JsMap.get ((k, v) :: es) y))) <$> l) ≤
                  sum_list ((λ y, if decide (y = k) then length v else 0) <$> l) +
                  sum_list ((λ y, length (default [] (JsMap.get es y))) <$> l)).
    { clear.
      set (f := λ y, length (default [] (JsMap.get ((k, v) :: es) y))).
      set (i := λ y : string, if decide (y = k) then length v else 0).
      set (h := λ y, length (default [] (JsMap.get es y))).
      assert (Hf : ∀ x, f x ≤ i x + h x).
      { intros x. unfold f, i, h. simpl. destruct (decide (k = x)) as [->|Hne].
        - rewrite decide_True by done. simpl. lia.
        - rewrite decide_False by (by intros ->). lia. }
      clearbody f i h.
      induction l as [|x l IHl]; [done|]. rewrite !fmap_cons, !sum_list_cons.
      specialize (Hf x). lia. }
    lia.
Qed.

Lemma outEdges_le g l : NoDup l → outEdges g l ≤ edgeCount g.
Proof.
  intros Hnd. unfold outEdges, edgeCount.
  exact (sum_children_le (edges g) l Hnd).
Qed.

(** X14. The number [countDescendants] returns is at least the number of
    distinct descendants of the node and at most the number of edges of the
    store; it is 0 exactly when the node has no children. *)
Theorem countDescendants_bounds (g : DKG) (nodeId : string) :
  (∀ ds, NoDup ds → (∀ y, y ∈ ds → descendant g nodeId y) →
         length ds ≤ countDescendants g nodeId) ∧
  countDescendants g nodeId ≤ edgeCount g ∧
  (countDescendants g nodeId = 0 ↔ getChildren g nodeId = []).
Proof.
  unfold countDescendants.
  destruct (count_fuel g nodeId) as [[n V'] Hrun]. rewrite Hrun.
  apply count_reached in Hrun as (Hnd & Hreached & ->). split_and!.
  - intros ds Hds Hdesc. rewrite outEdges_concat.
    apply submseteq_length, NoDup_submseteq; [done|].
    intros y Hy. by apply (descendant_children g V' nodeId Hreached), Hdesc.
  - by apply outEdges_le.
  - rewrite outEdges_concat, length_zero_iff_nil. split.
    + intros Hnil. destruct (getChildren g nodeId) as [|c cs] eqn:Hcs; [done|].
      assert (Hc : c ∈ concat (getChildren g <$> V')).
      { apply (descendant_children g V' nodeId Hreached), tc_once.
        unfold childOf. rewrite Hcs. left. }
      rewrite Hnil in Hc. by apply elem_of_nil in Hc.
    + intros Hnil. destruct (concat (getChildren g <$> V')) as [|c cs] eqn:Hcs; [done|].
      assert (Hc : descendant g nodeId c).
      { apply (descendant_children g V' nodeId Hreached). rewrite Hcs. left. }
      assert (Hz : ∃ z, childOf g nodeId z)
        by (inversion Hc; by eexists).
      destruct Hz as [z Hz]. unfold childOf in Hz. rewrite Hnil in Hz.
      by apply elem_of_nil in Hz.
Qed.

Lemma occurrences_le_NoDup (l : list string) : (∀ c, occurrences c l ≤ 1) → NoDup l.
Proof.
  induction l as [|x l IH]; intros Hocc; [apply NoDup_nil_2|].
  constructor.
  - intros Hx%occurrences_pos. specialize (Hocc x). rewrite occurrences_cons in Hocc.
    rewrite decide_True in Hocc by done. lia.
  - apply IH. intros c. specialize (Hocc c). rewrite occurrences_cons in Hocc. lia.
Qed.

Lemma NoDup_concat_fmap (f : string → list string) l :
  NoDup l → (∀ p, NoDup (f p)) → (∀ p q c, c ∈ f p → c ∈ f q → p = q) →
  NoDup (concat (f <$> l)).
Proof.
  intros Hnd Hf Hinj. induction Hnd as [|x l Hx Hnd IH]; [apply NoDup_nil_2|].
  rewrite fmap_cons. simpl. apply NoDup_app. split_and!; [done| |done].
  intros c Hc Hin. apply list_elem_of_In, in_concat in Hin as (cs & Hcs & Hin).
  apply list_elem_of_In, list_elem_of_fmap in Hcs as (q & -> & Hq).
  apply list_elem_of_In in Hin. by rewrite (Hinj x q c Hc Hin) in Hx.
Qed.

(** With at most one declared parent per node, a child has one parent in the
    edge map and occurs once in its children list. *)
Lemma single_parent_children g :
  builtOnce g → (∀ id n, getNode g id = Some n → length (parents n) ≤ 1) →
  (∀ p, NoDup (getChildren g p)) ∧
  (∀ p q c, c ∈ getChildren g p → c ∈ getChildren g q → p = q).
Proof.
  intros Hb Hone. pose proof (builtOnce_children g Hb) as Hocc.
  assert (Hpar : ∀ p c, c ∈ getChildren g p →
                        ∃ n, getNode g c = Some n ∧ parents n = [p]).
  { intros p c Hc%occurrences_pos. rewrite Hocc in Hc.
    destruct (getNode g c) as [n|] eqn:Hget; [|lia]. exists n. split; [done|].
    specialize (Hone c n Hget). destruct (parents n) as [|q [|q' ps]]; simpl in Hone.
    - unfold occurrences in Hc. simpl in Hc. lia.
    - rewrite occurrences_cons in Hc. destruct (decide (q = p)) as [->|]; [done|].
      unfold occurrences in Hc. simpl in Hc. lia.
    - lia. }
  split.
  - intros p. apply occurrences_le_NoDup. intros c. rewrite Hocc.
    destruct (getNode g c) as [n|] eqn:Hget; [|lia].
    specialize (Hone c n Hget). destruct (parents n) as [|q [|q' ps]]; simpl in Hone.
    + unfold occurrences. simpl. lia.
    + rewrite occurrences_cons. unfold occurrences. simpl. destruct (decide (q = p)); lia.
    + lia.
  - intros p q c (n & Hn & Hp)%Hpar (n' & Hn' & Hq)%Hpar. congruence.
Qed.

(** X15. In a store built without adding an id twice in which every node
    declares at most one parent, [countDescendants] returns the number of
    descendants of the node. *)
Theorem countDescendants_single_parent (g : DKG) (nodeId : string) :
  builtOnce g →
  (∀ id n, getNode g id = Some n → length (parents n) ≤ 1) →
  ∃ ds, NoDup ds ∧ (∀ y, y ∈ ds ↔ descendant g nodeId y) ∧
        countDescendants g nodeId = length ds.
Proof.
  intros Hb Hone. destruct (single_parent_children g Hb Hone) as [Hnd Hinj].
  unfold countDescendants.
  destruct (count_fuel g nodeId) as [[n V'] Hrun]. rewrite Hrun.
  apply count_reached in Hrun as (HV' & Hreached & ->).
  exists (concat (getChildren g <$> V')). split_and!.
  - by apply NoDup_concat_fmap.
  - by apply descendant_children.
  - apply outEdges_concat.
Qed.

Lemma countDescendants_single_parent_witness :
  let mk := λ id ps, mkDKGNode "A" "" 1 id [] "h" ps None None None "message" in
  let g := (addNode (addNode (addNode DKG_new (mk "a" []) None).1
                       (mk "b" ["a"]) None).1 (mk "c" ["a"]) None).1 in
  ∃ ds, NoDup ds ∧ (∀ y, y ∈ ds ↔ descendant g "a" y) ∧
        countDescendants g "a" = length ds.
Proof.
  intros mk g. apply (countDescendants_single_parent g "a").
  - unfold g. repeat (apply builtOnce_add; [|
      vm_compute; intros H; repeat (apply elem_of_cons in H as [H|H]; [discriminate|]);
      by apply elem_of_nil in H]). apply builtOnce_new.
  - intros id n Hget. unfold getNode in Hget.
    apply JsMap_get_Some_elem in Hget. vm_compute in Hget.
    repeat (apply elem_of_cons in Hget as [Hget|Hget]; [injection Hget as _ ->; simpl; lia|]).
    by apply elem_of_nil in Hget.
Defined.
(** ** Node depth *)

Lemma computeNodeDepth_S fuel g node :
  computeNodeDepth (S fuel) g node =
  if decide (length (parents node) = 0) then Some 1
  else match depthLoop (computeNodeDepth fuel g) g (parents node) 0 with
       | Some maxParentDepth => Some (maxParentDepth + 1)
       | None => None
       end.
Proof. done. Qed.

(** The loop returns the largest of the start value and the depths of the
    stored parents. *)
Lemma depthLoop_max (depth : DKGNode → option nat) g ps : ∀ m0 m,
  depthLoop depth g ps m0 = Some m →
  m0 ≤ m ∧
  (∀ p pn, p ∈ ps → JsMap.get (nodes g) p = Some pn → ∃ d, depth pn = Some d ∧ d ≤ m) ∧
  (m = m0 ∨ ∃ p pn, p ∈ ps ∧ JsMap.get (nodes g) p = Some pn ∧ depth pn = Some m).
Proof.
  induction ps as [|p ps IH]; intros m0 m Hrun; simpl in Hrun.
  - injection Hrun as <-. split_and!; [done| |by left].
    intros p pn Hp. by apply elem_of_nil in Hp.
  - destruct (JsMap.get (nodes g) p) as [pn|] eqn:Hget.
    + destruct (depth pn) as [d|] eqn:Hd; [|done].
      apply IH in Hrun as (Hle & Hall & Hex). split_and!.
      * lia.
      * intros q qn [->|Hq]%elem_of_cons Hq'; [|by eapply Hall].
        rewrite Hget in Hq'. injection Hq' as <-. exists d. split; [done|lia].
      * destruct Hex as [->|(q & qn & Hq & Hq' & Hqd)].
        -- destruct (Nat.max_spec m0 d) as [[_ ->]|[_ ->]].
           ++ right. exists p, pn. split_and!; [left|done|done].
           ++ by left.
        -- right. exists q, qn. split_and!; [by right|done|done].
    + apply IH in Hrun as (Hle & Hall & Hex). split_and!.
      * done.
      * intros q qn [->|Hq]%elem_of_cons Hq'; [congruence|by eapply Hall].
      * destruct Hex as [->|(q & qn & Hq & Hq' & Hqd)]; [by left|].
        right. exists q, qn. split_and!; [by right|done|done].
Qed.

Lemma depthLoop_some (depth : DKGNode → option nat) g ps B :
  (∀ p pn, p ∈ ps → JsMap.get (nodes g) p = Some pn → ∃ d, depth pn = Some d ∧ d ≤ B) →
  ∀ m0, m0 ≤ B → ∃ m, depthLoop depth g ps m0 = Some m ∧ m ≤ B.
Proof.
  induction ps as [|p ps IH]; intros Hdepth m0 Hm0; simpl.
  - by exists m0.
  - assert (Hrest : ∀ q qn, q ∈ ps → JsMap.get (nodes g) q = Some qn →
                            ∃ d, depth qn = Some d ∧ d ≤ B)
      by (intros q qn Hq; apply Hdepth; by right).
    destruct (JsMap.get (nodes g) p) as [pn|] eqn:Hget; [|by apply IH].
    destruct (Hdepth p pn) as (d & -> & Hd); [left|done|].
    apply IH; [done|lia].
Qed.

(** When [computeNodeDepth] returns, it returns the number of ids on the
    longest chain of stored ancestors that starts at the node. *)
Lemma computeNodeDepth_sound g fuel : ∀ id node d,
  JsMap.get (nodes g) id = Some node → computeNodeDepth fuel g node = Some d →
  (∃ l, ancestry g (id :: l) ∧ S (length l) = d) ∧
  (∀ l, ancestry g (id :: l) → S (length l) ≤ d).
Proof.
  induction fuel as [|fuel IH]; intros id node d Hget Hrun; [done|].
  rewrite computeNodeDepth_S in Hrun.
  destruct (decide (length (parents node) = 0)) as [Hlen|Hlen].
  - injection Hrun as <-. apply length_zero_iff_nil in Hlen. split.
    + by exists [].
    + intros [|p l] Hl; [done|]. destruct Hl as [(node' & Hget' & Hp) _].
      rewrite Hget in Hget'. injection Hget' as <-. rewrite Hlen in Hp.
      by apply elem_of_nil in Hp.
  - destruct (depthLoop _ g (parents node) 0) as [m|] eqn:Hloop; [|done].
    injection Hrun as <-. apply depthLoop_max in Hloop as (_ & Hall & Hex). split.
    + destruct Hex as [->|(p & pn & Hp & Hgetp & Hd)]; [by exists []|].
      destruct (IH p pn m Hgetp Hd) as [(l & Hl & Hlen') _].
      exists (p :: l). split; [|simpl; lia].
      split_and!; [by exists node | by eapply JsMap_get_Some_key | done].
    + intros [|p l] Hl; [simpl; lia|].
      destruct Hl as ((node' & Hget' & Hp) & Hstored & Hl).
      rewrite Hget in Hget'. injection Hget' as <-.
      apply JsMap_key_get in Hstored as [pn Hgetp].
      destruct (Hall p pn Hp Hgetp) as (d & Hd & Hdm).
      destruct (IH p pn d Hgetp Hd) as [_ Hmax]. specialize (Hmax l Hl). simpl. lia.
Qed.

Lemma NoDup_keys_length g (l : list string) :
  NoDup l → l ⊆ JsMap.keys (nodes g) → length l ≤ JsMap.size (nodes g).
Proof.
  intros Hnd Hsub. unfold JsMap.size.
  rewrite <-(length_fmap fst (nodes g)). by apply submseteq_length, NoDup_submseteq.
Qed.

(** On an acyclic store the nesting of the calls is bounded by the number of
    stored nodes: [anc] holds the ids of the calls in progress. *)
Lemma computeNodeDepth_some g :
  acyclic g →
  ∀ fuel id node anc,
    JsMap.get (nodes g) id = Some node →
    NoDup (id :: anc) → anc ⊆ JsMap.keys (nodes g) →
    (∀ a, a ∈ anc → tc (parentOf g) a id) →
    JsMap.size (nodes g) ≤ fuel + length anc →
    ∃ d, computeNodeDepth fuel g node = Some d ∧ 1 ≤ d ∧
         d + length anc ≤ JsMap.size (nodes g).
Proof.
  intros Hacyc fuel.
  induction fuel as [|fuel IH]; intros id node anc Hget Hnd Hsub Hanc Hfuel.
  - assert (Hlen : length (id :: anc) ≤ JsMap.size (nodes g)).
    { apply NoDup_keys_length; [done|].
      intros x [->|Hx]%elem_of_cons; [by eapply JsMap_get_Some_key | by apply Hsub]. }
    simpl in Hlen. lia.
  - assert (Hlen : length (id :: anc) ≤ JsMap.size (nodes g)).
    { apply NoDup_keys_length; [done|].
      intros x [->|Hx]%elem_of_cons; [by eapply JsMap_get_Some_key | by apply Hsub]. }
    simpl in Hlen. rewrite computeNodeDepth_S.
    destruct (decide (length (parents node) = 0)) as [Hp|Hp].
    { exists 1. split_and!; [done|lia|lia]. }
    destruct (depthLoop_some (computeNodeDepth fuel g) g (parents node)
                (JsMap.size (nodes g) - S (length anc))) with (m0 := 0)
      as (m & -> & Hm).
    + intros p pn Hpin Hgetp.
      assert (Hpar : parentOf g id p) by (by exists node).
      destruct (IH p pn (id :: anc) Hgetp) as (d & Hd & _ & Hbound).
      * constructor; [|done]. intros [->|Hin]%elem_of_cons.
        -- by apply (Hacyc id), tc_once.
        -- apply (Hacyc p). eapply tc_r; [by apply Hanc | done].
      * intros x [->|Hx]%elem_of_cons; [by eapply JsMap_get_Some_key | by apply Hsub].
      * intros a [->|Ha]%elem_of_cons; [by apply tc_once|].
        eapply tc_r; [by apply Hanc | done].
      * simpl. lia.
      * exists d. split; [done|]. simpl in Hbound. lia.
    + lia.
    + exists (m + 1). split_and!; [done|lia|lia].
Qed.

(** X17. On a store without parent cycles [computeNodeDepth] returns, for a
    stored node and whenever more nested calls are allowed than there are
    stored nodes, the number of ids on the longest chain of stored ancestors
    that starts at the node; this depth is at least 1 and at most the number
    of stored nodes. *)
Theorem computeNodeDepth_longest_chain (g : DKG) (id : string) (node : DKGNode) :
  acyclic g → getNode g id = Some node →
  ∃ d, (∀ fuel, JsMap.size (nodes g) ≤ fuel → computeNodeDepth fuel g node = Some d) ∧
       1 ≤ d ≤ JsMap.size (nodes g) ∧
       (∃ l, ancestry g (id :: l) ∧ length (id :: l) = d) ∧
       (∀ l, ancestry g (id :: l) → length (id :: l) ≤ d).
Proof.
  intros Hacyc Hget. unfold getNode in Hget.
  assert (Hsome : ∀ fuel, JsMap.size (nodes g) ≤ fuel →
            ∃ d, computeNodeDepth fuel g node = Some d ∧ 1 ≤ d ∧
                 d + 0 ≤ JsMap.size (nodes g)).
  { intros fuel Hfuel.
    apply (computeNodeDepth_some g Hacyc fuel id node []); [done| | | |simpl; lia].
    - constructor; [apply not_elem_of_nil | apply NoDup_nil_2].
    - intros x Hx. by apply elem_of_nil in Hx.
    - intros a Ha. by apply elem_of_nil in Ha. }
  destruct (Hsome (JsMap.size (nodes g))) as (d & Hd & Hd1 & HdN); [done|].
  destruct (computeNodeDepth_sound g _ id node d Hget Hd) as [Hex Hmax].
  exists d. split_and!; [|done|lia|done|done].
  intros fuel Hfuel. destruct (Hsome fuel Hfuel) as (d' & Hd' & _).
  destruct (computeNodeDepth_sound g _ id node d' Hget Hd') as [(l' & Hl' & Hlen') Hmax'].
  destruct Hex as (l & Hl & Hlen).
  specialize (Hmax l' Hl'). specialize (Hmax' l Hl). rewrite Hd'. f_equal. lia.
Qed.

Lemma computeNodeDepth_longest_chain_witness :
  let mk := λ a id t ps, mkDKGNode a "" t id [] "h" ps None None None "message" in
  let g := (addNode (addNode (addNode DKG_new (mk "A" "root" 1000%Z []) None).1
                       (mk "B" "mid" 2000%Z ["root"]) None).1
              (mk "A" "leaf" 3000%Z ["mid"; "root"]) None).1 in
  ∃ d, (∀ fuel, JsMap.size (nodes g) ≤ fuel →
                computeNodeDepth fuel g (mk "A" "leaf" 3000%Z ["mid"; "root"]) = Some d) ∧
       1 ≤ d ≤ JsMap.size (nodes g) ∧
       (∃ l, ancestry g ("leaf" :: l) ∧ length ("leaf" :: l) = d) ∧
       (∀ l, ancestry g ("leaf" :: l) → length ("leaf" :: l) ≤ d).
Proof.
  intros mk g.
  assert (Hnd : NoDup (JsMap.keys (nodes g))).
  { apply (bool_decide_unpack _). vm_compute. reflexivity. }
  destruct (insertionOrdered_acyclic g Hnd) as [Hacyc _].
  { vm_compute. reflexivity. }
  exact (computeNodeDepth_longest_chain g "leaf" (mk "A" "leaf" 3000%Z ["mid"; "root"])
           Hacyc eq_refl).
Defined.
Lemma ancestry_join g l1 x l2 :
  ancestry g (l1 ++ [x]) → ancestry g (x :: l2) → ancestry g (l1 ++ x :: l2).
Proof.
  induction l1 as [|y l1 IH]; [done|]. intros H1 H2.
  destruct l1 as [|z l1].
  - destruct H1 as (Hyx & Hx & _). by split_and!.
  - destruct H1 as (Hyz & Hz & H1). split_and!; [done|done|]. by apply IH.
Qed.

Lemma parentOf_stored g c p : parentOf g c p → c ∈ JsMap.keys (nodes g).
Proof. intros (node & Hget & _). by eapply JsMap_get_Some_key. Qed.

Lemma tc_parentOf_stored g a b : tc (parentOf g) a b → a ∈ JsMap.keys (nodes g).
Proof. intros H. inversion H; by eapply parentOf_stored. Qed.

Lemma tc_ancestry g a b :
  tc (parentOf g) a b → b ∈ JsMap.keys (nodes g) → ∃ l, ancestry g ((a :: l) ++ [b]).
Proof.
  induction 1 as [a b Hab|a c b Hac Hcb IH]; intros Hb.
  - exists []. by split_and!.
  - destruct (IH Hb) as [l Hl]. exists (c :: l).
    split_and!; [done | by eapply tc_parentOf_stored | done].
Qed.

(** Around a cycle there are chains of stored ancestors of every length. *)
Lemma cycle_ancestry g x :
  tc (parentOf g) x x → ∀ n, ∃ l, n ≤ length l ∧ ancestry g ((x :: l) ++ [x]).
Proof.
  intros Hcyc. pose proof (tc_parentOf_stored g x x Hcyc) as Hx.
  destruct (tc_ancestry g x x Hcyc Hx) as [l0 Hl0].
  induction n as [|n (l & Hlen & Hl)].
  - exists l0. split; [lia|done].
  - exists (l ++ x :: l0). split; [rewrite length_app; simpl; lia|].
    replace ((x :: l ++ x :: l0) ++ [x]) with ((x :: l) ++ x :: l0 ++ [x])
      by (simpl; by rewrite <-app_assoc).
    by apply ancestry_join.
Qed.

(** X18. [computeNodeDepth] has no guard against cycles: for a stored node
    that lies on a parent cycle, or has an ancestor that does, the recursion
    does not return, however many nested calls are allowed. *)
Theorem computeNodeDepth_cycle (g : DKG) (id x : string) (node : DKGNode) :
  getNode g id = Some node → rtc (parentOf g) id x → tc (parentOf g) x x →
  ∀ fuel, computeNodeDepth fuel g node = None.
Proof.
  intros Hget Hreach Hcyc fuel. unfold getNode in Hget.
  destruct (computeNodeDepth fuel g node) as [d|] eqn:Hd; [exfalso|done].
  destruct (computeNodeDepth_sound g fuel id node d Hget Hd) as [_ Hmax].
  destruct (cycle_ancestry g x Hcyc d) as (l & Hlen & Hl).
  apply rtc_tc in Hreach as [->|Htc].
  - specialize (Hmax (l ++ [x]) Hl). rewrite length_app in Hmax. simpl in Hmax. lia.
  - destruct (tc_ancestry g id x Htc (tc_parentOf_stored g x x Hcyc)) as [l1 Hl1].
    specialize (Hmax (l1 ++ x :: l ++ [x])).
    rewrite !length_app in Hmax. simpl in Hmax. rewrite length_app in Hmax.
    simpl in Hmax. enough (S (length l1 + S (length l + 1)) ≤ d) by lia.
    apply Hmax. by apply (ancestry_join g (id :: l1) x (l ++ [x])).
Qed.

Lemma computeNodeDepth_cycle_witness :
  let mk := λ id ps, mkDKGNode "A" "" 1 id [] "h" ps None None None "message" in
  let g := (addNode (addNode (addNode DKG_new (mk "a" ["b"]) None).1
                       (mk "b" ["a"]) None).1 (mk "c" ["b"]) None).1 in
  computeNodeDepth 1000 g (mk "c" ["b"]) = None.
Proof.
  intros mk g.
  assert (Hab : parentOf g "a" "b") by (exists (mk "a" ["b"]); split; [done|left]).
  assert (Hba : parentOf g "b" "a") by (exists (mk "b" ["a"]); split; [done|left]).
  assert (Hcb : parentOf g "c" "b") by (exists (mk "c" ["b"]); split; [done|left]).
  apply (computeNodeDepth_cycle g "c" "b" (mk "c" ["b"])).
  - reflexivity.
  - by apply rtc_once.
  - eapply tc_l; [exact Hba|]. by apply tc_once.
Defined.
(** ** Causal chains and declared ancestors *)

Lemma builtOnce_childOf g p c : builtOnce g → childOf g p c ↔ parentOf g c p.
Proof.
  intros Hb. pose proof (builtOnce_children g Hb) as Hocc.
  unfold childOf, parentOf. split.
  - intros Hc%occurrences_pos. rewrite Hocc in Hc. unfold getNode in Hc.
    destruct (JsMap.get (nodes g) c) as [n|]; [|lia].
    exists n. split; [done|].
    destruct (decide (p ∈ parents n)) as [|Hnin]; [done|].
    rewrite occurrences_not_elem in Hc by done. lia.
  - intros (n & Hget & Hp%occurrences_pos).
    destruct (decide (c ∈ getChildren g p)) as [|Hnin]; [done|].
    pose proof (Hocc p c) as H. unfold getNode in H. rewrite Hget in H.
    rewrite occurrences_not_elem in H by done. lia.
Qed.

Lemma tc_converse {A} (R R' : relation A) a b :
  (∀ x y, R x y → R' y x) → tc R a b → tc R' b a.
Proof.
  intros HR. induction 1 as [a b Hab|a c b Hac _ IH].
  - by apply tc_once, HR.
  - eapply tc_r; [exact IH | by apply HR].
Qed.

(** X19. In a store built without adding an id twice, and for stored ids,
    [traceCausalChain] returns a non-empty chain from [fromNodeId] to
    [toNodeId] exactly when [fromNodeId] is [toNodeId] or one of its declared
    ancestors. *)
Theorem traceCausalChain_ancestor (g : DKG) (fromNodeId toNodeId : string) :
  builtOnce g →
  fromNodeId ∈ JsMap.keys (nodes g) → toNodeId ∈ JsMap.keys (nodes g) →
  traceCausalChain g fromNodeId toNodeId ≠ [] ↔ rtc (parentOf g) toNodeId fromNodeId.
Proof.
  intros Hb Ha Hb'. pose proof (tracePath_bfs g _ _ Ha Hb') as Hrun.
  unfold traceCausalChain.
  apply (bfs_correct g fromNodeId) in Hrun as [[-> Hno]|[Hpath _]];
    [| |apply bfsInv_init].
  - split; [done|]. intros Hrtc. exfalso.
    apply rtc_tc in Hrtc as [->|Htc].
    + by apply (Hno [fromNodeId]), pathFromTo_refl.
    + apply (tc_converse _ (childOf g)) in Htc.
      * apply tc_pathFromTo in Htc as [π Hπ]. by apply (Hno π).
      * intros x y Hxy. by apply builtOnce_childOf.
  - split.
    + intros _. apply pathFromTo_tc in Hpath as [->|Htc]; [done|].
      apply tc_rtc. apply (tc_converse (childOf g)); [|done].
      intros x y Hxy. by apply builtOnce_childOf.
    + intros _ Hnil.
      pose proof (path_stored g _ _ _ (built_childrenStored g (builtOnce_built g Hb))
                    Ha Hpath) as Hst.
      apply omap_get_nodesAt in Hst. rewrite Hnil in Hst.
      apply Forall2_length in Hst. apply pathFromTo_length in Hpath.
      simpl in Hst. lia.
Qed.

Lemma traceCausalChain_ancestor_witness :
  let mk := λ id ps, mkDKGNode "A" "" 1 id [] "h" ps None None None "message" in
  let g := (addNode (addNode (addNode DKG_new (mk "a" []) None).1
                       (mk "b" ["a"]) None).1 (mk "c" ["b"]) None).1 in
  traceCausalChain g "a" "c" ≠ [] ↔ rtc (parentOf g) "c" "a".
Proof.
  intros mk g. apply (traceCausalChain_ancestor g "a" "c").
  - unfold g. repeat (apply builtOnce_add; [|
      vm_compute; intros H; repeat (apply elem_of_cons in H as [H|H]; [discriminate|]);
      by apply elem_of_nil in H]). apply builtOnce_new.
  - vm_compute. repeat constructor.
  - vm_compute. repeat constructor.
Defined.

(** * Binary64 arithmetic and the contribution weights *)

(** ** Rounding *)

Section Rounding.
Local Open Scope Q_scope.

Lemma rne_bounds x :
  inject_Z (rne x) - (1 # 2) <= x /\ x <= inject_Z (rne x) + (1 # 2).
Proof.
  unfold rne. pose proof (Qfloor_le x) as Hlo. pose proof (Qlt_floor x) as Hhi.
  rewrite inject_Z_plus in Hhi. change (inject_Z 1) with 1 in Hhi.
  destruct (Qcompare_spec (x - inject_Z (Qfloor x)) (1 # 2)) as [He|Hl|Hg].
  - destruct (Z.even (Qfloor x)).
    + split; lra.
    + rewrite inject_Z_plus. change (inject_Z 1) with 1. split; lra.
  - split; lra.
  - rewrite inject_Z_plus. change (inject_Z 1) with 1. split; lra.
Qed.

Lemma rne_comp x y : x == y -> rne x = rne y.
Proof.
  intros Hxy. unfold rne. rewrite (Qfloor_comp x y Hxy).
  assert (Hc : (x - inject_Z (Qfloor y) ?= 1 # 2) = (y - inject_Z (Qfloor y) ?= 1 # 2)).
  { apply Qcompare_comp; [|reflexivity]. rewrite Hxy. reflexivity. }
  by rewrite Hc.
Qed.

Lemma rne_Z n : rne (inject_Z n) = n.
Proof.
  unfold rne. rewrite Qfloor_Z.
  destruct (Qcompare_spec (inject_Z n - inject_Z n) (1 # 2)) as [He|Hl|Hg].
  - exfalso. lra.
  - done.
  - exfalso. lra.
Qed.

Lemma inject_Z_succ_le (a b : Z) : (a < b)%Z -> inject_Z a + 1 <= inject_Z b.
Proof.
  intros Hab. change 1 with (inject_Z 1). rewrite <-inject_Z_plus, <-Zle_Qle. lia.
Qed.

Lemma rne_mono x y : x <= y -> (rne x <= rne y)%Z.
Proof.
  intros Hxy. destruct (Z.le_gt_cases (rne x) (rne y)) as [|Hlt]; [done|exfalso].
  pose proof (rne_bounds x) as [Hx1 Hx2]. pose proof (rne_bounds y) as [Hy1 Hy2].
  pose proof (inject_Z_succ_le _ _ Hlt) as Hs.
  assert (Heq : x == y) by lra.
  apply rne_comp in Heq. lia.
Qed.

Lemma rne_ge n x : inject_Z n <= x -> (n <= rne x)%Z.
Proof. intros H%rne_mono. by rewrite rne_Z in H. Qed.

Lemma rne_le n x : x <= inject_Z n -> (rne x <= n)%Z.
Proof. intros H%rne_mono. by rewrite rne_Z in H. Qed.

Lemma pow2_pos e : 0 < pow2 e.
Proof. apply Qpower_0_lt. lra. Qed.

Lemma pow2_add a b : pow2 (a + b) == pow2 a * pow2 b.
Proof. apply Qpower_plus. lra. Qed.

Lemma pow2_sub a b : pow2 (a - b) == pow2 a / pow2 b.
Proof. apply Qpower_minus. lra. Qed.

Lemma pow2_le a b : (a <= b)%Z -> pow2 a <= pow2 b.
Proof. intros H. apply Qpower_le_compat_l; [done|lra]. Qed.

Lemma pow2_lt a b : (a < b)%Z -> pow2 a < pow2 b.
Proof. intros H. apply Qpower_lt_compat_l; [done|lra]. Qed.

Lemma pow2_lt_inv a b : pow2 a < pow2 b -> (a < b)%Z.
Proof. intros H. eapply Qpower_lt_compat_l_inv; [exact H|lra]. Qed.

Lemma pow2_Z n : (0 <= n)%Z -> inject_Z (2 ^ n) == pow2 n.
Proof. intros H. by rewrite Zpower_Qpower. Qed.

Lemma pow2_succ a : pow2 (a + 1) == 2 * pow2 a.
Proof. rewrite pow2_add. change (pow2 1) with 2. lra. Qed.

Lemma ilog2_spec x : 0 < x -> pow2 (ilog2 x) <= x /\ x < pow2 (ilog2 x + 1).
Proof.
  intros Hx. unfold ilog2. destruct x as [n d].
  assert (Hn : (0 < n)%Z) by (unfold Qlt in Hx; simpl in Hx; lia).
  cbn [Qnum Qden].
  set (a := Z.log2 n). set (b := Z.log2 (Z.pos d)).
  destruct (Z.log2_spec n Hn) as [Ha1 Ha2]. fold a in Ha1, Ha2.
  destruct (Z.log2_spec (Z.pos d) eq_refl) as [Hb1 Hb2]. fold b in Hb1, Hb2.
  assert (Ha0 : (0 <= a)%Z) by apply Z.log2_nonneg.
  assert (Hb0 : (0 <= b)%Z) by apply Z.log2_nonneg.
  rewrite Zle_Qle, pow2_Z in Ha1, Hb1 by done.
  rewrite Zlt_Qlt, pow2_Z in Ha2, Hb2 by lia.
  replace (Z.succ a) with (a + 1)%Z in Ha2 by lia.
  replace (Z.succ b) with (b + 1)%Z in Hb2 by lia.
  rewrite pow2_succ in Ha2, Hb2.
  pose proof (pow2_pos a) as Hpa. pose proof (pow2_pos b) as Hpb.
  assert (Hq : (n # d) * inject_Z (Z.pos d) == inject_Z n).
  { rewrite Qmake_Qdiv. field. intros H0. unfold Qeq in H0. simpl in H0. lia. }
  assert (Hk : pow2 (a - b) * pow2 b == pow2 a).
  { rewrite pow2_sub. field. lra. }
  assert (Hd : 0 < inject_Z (Z.pos d)) by (rewrite <-(Zlt_Qlt 0); lia).
  set (x := n # d) in *. set (D := inject_Z (Z.pos d)) in *. set (N := inject_Z n) in *.
  destruct (Qle_bool (pow2 (a - b)) x) eqn:Hle.
  - apply Qle_bool_iff in Hle. split; [done|].
    rewrite pow2_succ. apply (Qmult_lt_r _ _ D Hd).
    assert (2 * pow2 (a - b) * pow2 b <= 2 * pow2 (a - b) * D).
    { apply Qmult_le_l; [pose proof (pow2_pos (a - b)); lra | done]. }
    lra.
  - assert (Hlt : x < pow2 (a - b)).
    { apply Qnot_le_lt. intros H. apply Qle_bool_iff in H. congruence. }
    replace (a - b - 1 + 1)%Z with (a - b)%Z by lia. split; [|done].
    assert (H2 : pow2 (a - b) == 2 * pow2 (a - b - 1)).
    { rewrite <-pow2_succ. by replace (a - b - 1 + 1)%Z with (a - b)%Z by lia. }
    apply (Qmult_le_r _ _ D Hd).
    assert (pow2 (a - b - 1) * D <= pow2 (a - b - 1) * (2 * pow2 b)).
    { apply Qmult_le_l; [apply pow2_pos | lra]. }
    assert (pow2 (a - b - 1) * (2 * pow2 b) == pow2 a) by (rewrite <-Hk, H2; ring).
    lra.
Qed.

Lemma ilog2_unique x k : 0 < x -> pow2 k <= x -> x < pow2 (k + 1) -> ilog2 x = k.
Proof.
  intros Hx Hlo Hhi. destruct (ilog2_spec x Hx) as [Hlo' Hhi'].
  assert (H1 : (k < ilog2 x + 1)%Z) by (apply pow2_lt_inv; lra).
  assert (H2 : (ilog2 x < k + 1)%Z) by (apply pow2_lt_inv; lra).
  lia.
Qed.

Lemma ilog2_mono x y : 0 < x -> x <= y -> (ilog2 x <= ilog2 y)%Z.
Proof.
  intros Hx Hxy. destruct (ilog2_spec x Hx) as [Hlo _].
  destruct (ilog2_spec y) as [_ Hhi]; [lra|].
  assert (H : (ilog2 x < ilog2 y + 1)%Z) by (apply pow2_lt_inv; lra). lia.
Qed.

Lemma ilog2_ge x k : pow2 k <= x -> (k <= ilog2 x)%Z.
Proof.
  intros Hk. pose proof (pow2_pos k).
  destruct (ilog2_spec x) as [_ Hhi]; [lra|].
  assert (H' : (k < ilog2 x + 1)%Z) by (apply pow2_lt_inv; lra). lia.
Qed.

Lemma Qabs_nonneg_eq x : 0 <= x -> Qabs x = x.
Proof.
  destruct x as [n d]. intros H. unfold Qabs. f_equal. apply Z.abs_eq.
  unfold Qle in H. simpl in H. lia.
Qed.

Lemma pow2_le_inv a b : pow2 a <= pow2 b -> (a <= b)%Z.
Proof. intros H. eapply Qpower_le_compat_l_inv; [exact H|lra]. Qed.

Lemma round_eq x : round x == inject_Z (rne (x / pow2 (ulpExp x))) * pow2 (ulpExp x).
Proof. unfold round. apply Qred_correct. Qed.

Lemma div_pow2 x e : x / pow2 e * pow2 e == x.
Proof. field. pose proof (pow2_pos e). lra. Qed.

Lemma ulpExp_pos x : 0 < x -> ulpExp x = Z.max (ilog2 x - 52) (-1074).
Proof. intros Hx. unfold ulpExp. rewrite Qabs_nonneg_eq by lra. done. Qed.

Lemma ulpExp_normal x : pow2 (-1022) <= x -> ulpExp x = (ilog2 x - 52)%Z.
Proof.
  intros Hx. pose proof (pow2_pos (-1022)). rewrite ulpExp_pos by lra.
  apply ilog2_ge in Hx. lia.
Qed.

Lemma round_comp x y : 0 < x -> x == y -> round x = round y.
Proof.
  intros Hx Hxy. assert (Hy : 0 < y) by lra.
  assert (He : ulpExp x = ulpExp y).
  { rewrite !ulpExp_pos by done. f_equal. f_equal.
    destruct (ilog2_spec y Hy) as [Hlo Hhi]. apply ilog2_unique; lra. }
  unfold round. apply Qred_complete. rewrite He.
  set (p := pow2 (ulpExp y)). clearbody p.
  rewrite (rne_comp (x / p) (y / p)); [reflexivity|].
  by rewrite Hxy.
Qed.

Lemma round_zero x : x == 0 -> round x == 0.
Proof.
  intros Hx. rewrite round_eq. pose proof (pow2_pos (ulpExp x)) as Hp.
  set (p := pow2 (ulpExp x)) in *. clearbody p.
  rewrite (rne_comp _ (inject_Z 0)), rne_Z; [change (inject_Z 0) with 0; lra|].
  rewrite Hx. change (inject_Z 0) with 0. field. lra.
Qed.

Lemma round_nonneg x : 0 <= x -> 0 <= round x.
Proof.
  intros Hx. rewrite round_eq. pose proof (pow2_pos (ulpExp x)) as Hp.
  apply Qmult_le_0_compat; [|lra].
  change 0 with (inject_Z 0). rewrite <-Zle_Qle. apply rne_ge.
  change (inject_Z 0) with 0. apply Qle_shift_div_l; [done|]. lra.
Qed.

(** In the normal range the significand has 53 bits. *)
Lemma round_normal x :
  pow2 (-1022) <= x ->
  let e := (ilog2 x - 52)%Z in
  let m := rne (x / pow2 e) in
  round x == inject_Z m * pow2 e /\ (2 ^ 52 <= m)%Z /\ (m <= 2 ^ 53)%Z /\
  (-1074 <= e)%Z /\
  inject_Z m - (1 # 2) <= x / pow2 e /\ x / pow2 e <= inject_Z m + (1 # 2) /\
  pow2 52 <= x / pow2 e /\ x / pow2 e < pow2 53.
Proof.
  intros Hx e m. pose proof (pow2_pos (-1022)) as H0.
  assert (Hxpos : 0 < x) by lra.
  destruct (ilog2_spec x Hxpos) as [Hlo Hhi].
  pose proof (ilog2_ge _ _ Hx) as Hk.
  pose proof (pow2_pos e) as Hpe.
  assert (H52 : pow2 52 * pow2 e == pow2 (ilog2 x)).
  { rewrite <-pow2_add. by replace (52 + e)%Z with (ilog2 x) by (unfold e; lia). }
  assert (H53 : pow2 53 * pow2 e == pow2 (ilog2 x + 1)).
  { rewrite <-pow2_add. by replace (53 + e)%Z with (ilog2 x + 1)%Z by (unfold e; lia). }
  assert (Hy1 : pow2 52 <= x / pow2 e) by (apply Qle_shift_div_l; [done|lra]).
  assert (Hy2 : x / pow2 e < pow2 53) by (apply Qlt_shift_div_r; [done|lra]).
  destruct (rne_bounds (x / pow2 e)) as [Hm1 Hm2]. fold m in Hm1, Hm2.
  split_and!; try done.
  - rewrite round_eq, ulpExp_normal by done. reflexivity.
  - apply rne_ge. by rewrite pow2_Z.
  - apply rne_le. rewrite pow2_Z by done. lra.
  - unfold e. lia.
Qed.

(** The relative error of rounding in the normal range is at most [2^-53]. *)
Lemma round_rel x :
  pow2 (-1022) <= x ->
  (1 - pow2 (-53)) * x <= round x /\ round x <= (1 + pow2 (-53)) * x.
Proof.
  intros Hx.
  destruct (round_normal x Hx) as (Hr & _ & _ & _ & Hm1 & Hm2 & Hy1 & _).
  set (e := (ilog2 x - 52)%Z) in *. set (m := rne (x / pow2 e)) in *.
  pose proof (pow2_pos e) as Hpe. pose proof (div_pow2 x e) as Hxy.
  set (y := x / pow2 e) in *.
  assert (Hu : (1 # 2) <= pow2 (-53) * y).
  { assert (H1 : pow2 (-53) * pow2 52 == 1 # 2) by (vm_compute; reflexivity).
    assert (pow2 (-53) * pow2 52 <= pow2 (-53) * y)
      by (apply Qmult_le_l; [apply pow2_pos | done]).
    lra. }
  rewrite Hr. split.
  - assert ((1 - pow2 (-53)) * y * pow2 e <= inject_Z m * pow2 e)
      by (apply Qmult_le_r; [done|lra]).
    assert ((1 - pow2 (-53)) * x == (1 - pow2 (-53)) * y * pow2 e)
      by (rewrite <-Hxy; ring).
    lra.
  - assert (inject_Z m * pow2 e <= (1 + pow2 (-53)) * y * pow2 e)
      by (apply Qmult_le_r; [done|lra]).
    assert ((1 + pow2 (-53)) * x == (1 + pow2 (-53)) * y * pow2 e)
      by (rewrite <-Hxy; ring).
    lra.
Qed.

(** A significand of at most 53 bits at an admissible exponent is a fixed
    point of rounding. *)
Lemma round_fix m e :
  (0 < m)%Z -> (m <= 2 ^ 53)%Z -> (-1074 <= e)%Z ->
  round (inject_Z m * pow2 e) == inject_Z m * pow2 e.
Proof.
  intros Hm0 Hm He. set (v := inject_Z m * pow2 e).
  pose proof (pow2_pos e) as Hpe.
  assert (Hm0' : 0 < inject_Z m) by (by rewrite <-(Zlt_Qlt 0)).
  assert (Hv : 0 < v) by (apply Qmult_lt_0_compat; done).
  assert (Hint : exists j, v / pow2 (ulpExp v) == inject_Z j).
  { rewrite (ulpExp_pos v Hv). destruct (ilog2_spec v Hv) as [Hlo Hhi].
    set (k := ilog2 v) in *.
    destruct (Z.le_gt_cases (Z.max (k - 52) (-1074)) e) as [Hle|Hgt].
    - set (e' := Z.max (k - 52) (-1074)) in *.
      exists (m * 2 ^ (e - e'))%Z. rewrite inject_Z_mult, pow2_Z by lia.
      rewrite pow2_sub. unfold v. field. pose proof (pow2_pos e'). lra.
    - assert (Hk : (e + 53 <= k)%Z) by lia.
      assert (Hm' : inject_Z m <= pow2 53) by (rewrite <-pow2_Z, <-Zle_Qle; done).
      assert (Hv53 : v <= pow2 (e + 53)).
      { rewrite pow2_add. unfold v. rewrite (Qmult_comm (pow2 e)).
        apply Qmult_le_r; done. }
      assert (Hk' : (k <= e + 53)%Z) by (apply pow2_le_inv; lra).
      assert (Hkeq : k = (e + 53)%Z) by lia.
      replace (Z.max (k - 52) (-1074)) with (e + 1)%Z by lia.
      exists (2 ^ 52)%Z. rewrite pow2_Z by done.
      assert (Hveq : v == pow2 (e + 53)) by (rewrite Hkeq in Hlo; lra).
      rewrite Hveq. replace (e + 53)%Z with (52 + (e + 1))%Z by lia.
      rewrite pow2_add. field. pose proof (pow2_pos (e + 1)). lra. }
  destruct Hint as [j Hj]. rewrite round_eq.
  rewrite (rne_comp _ _ Hj), rne_Z, <-Hj. apply div_pow2.
Qed.

Lemma round_idem x : pow2 (-1022) <= x -> round (round x) == round x.
Proof.
  intros Hx. destruct (round_normal x Hx) as (Hr & Hm1 & Hm2 & He & _).
  set (e := (ilog2 x - 52)%Z) in *. set (m := rne (x / pow2 e)) in *.
  assert (Hpos : 0 < inject_Z m * pow2 e).
  { apply Qmult_lt_0_compat; [|apply pow2_pos]. rewrite <-(Zlt_Qlt 0). lia. }
  rewrite (round_comp (round x) (inject_Z m * pow2 e)); [|lra|done].
  rewrite Hr. apply round_fix; [lia|done|done].
Qed.

Lemma round_mono x y : pow2 (-1022) <= x -> x <= y -> round x <= round y.
Proof.
  intros Hx Hxy. assert (Hy : pow2 (-1022) <= y) by lra.
  pose proof (pow2_pos (-1022)) as H0.
  destruct (round_normal x Hx) as (Hrx & Hmx1 & Hmx2 & _).
  destruct (round_normal y Hy) as (Hry & Hmy1 & Hmy2 & _).
  pose proof (ilog2_mono x y) as Hk. specialize (Hk ltac:(lra) Hxy).
  rewrite Hrx, Hry.
  destruct (Z.eq_dec (ilog2 x) (ilog2 y)) as [Heq|Hne].
  - rewrite Heq. apply Qmult_le_r; [apply pow2_pos|]. rewrite <-Zle_Qle.
    apply rne_mono. apply Qmult_le_r; [apply Qinv_lt_0_compat, pow2_pos | done].
  - set (ex := (ilog2 x - 52)%Z) in *. set (ey := (ilog2 y - 52)%Z) in *.
    rewrite Zle_Qle, pow2_Z in Hmx2, Hmy1 by done.
    pose proof (pow2_pos ex) as Hpx. pose proof (pow2_pos ey) as Hpy.
    assert (H1 : inject_Z (rne (x / pow2 ex)) * pow2 ex <= pow2 53 * pow2 ex)
      by (apply Qmult_le_r; done).
    assert (H2 : pow2 52 * pow2 ey <= inject_Z (rne (y / pow2 ey)) * pow2 ey)
      by (apply Qmult_le_r; done).
    assert (H3 : pow2 53 * pow2 ex <= pow2 52 * pow2 ey).
    { rewrite <-!pow2_add. apply pow2_le. unfold ex, ey. lia. }
    lra.
Qed.

Lemma round_one : round 1 == 1.
Proof. vm_compute. reflexivity. Qed.

(** No overflow: a rounded value below [2^1024] is the number returned. *)
Lemma ofQ_Fin x : 0 <= x -> round x < pow2 1024 -> ofQ x = Fin (round x).
Proof.
  intros Hx Hr. unfold ofQ. cbv zeta.
  destruct (Qle_bool (pow2 1024) (round x)) eqn:H1.
  { apply Qle_bool_iff in H1. lra. }
  destruct (Qle_bool (round x) (- pow2 1024)) eqn:H2; [|done].
  apply Qle_bool_iff in H2. pose proof (round_nonneg x Hx). pose proof (pow2_pos 1024). lra.
Qed.

End Rounding.

(** ** Comparison with the machine's binary64 arithmetic *)

Section Hardware.
Import PrimFloat.

(** The operations agree with the machine's binary64 arithmetic on the
    computations of the examples: 2/3, the literal 0.1, a node weight, the
    sum of six sixths and a weight of the three-node scenario. *)
Example binary64_agrees_with_hardware :
  ofSpec (FloatOps.Prim2SF (2 / 3)%float) = fdiv (Fin 2) (Fin 3) ∧
  ofSpec (FloatOps.Prim2SF (1 / 10)%float) = tenth ∧
  ofSpec (FloatOps.Prim2SF (1 + 3 * (1 / 10))%float) = fadd (Fin 1) (fmul (ofNat 3) tenth) ∧
  ofSpec (FloatOps.Prim2SF (0 + 1 / 6 + 1 / 6 + 1 / 6 + 1 / 6 + 1 / 6 + 1 / 6)%float) =
    foldl fadd (Fin 0) (replicate 6 (fdiv (Fin 1) (Fin 6))) ∧
  ofSpec (FloatOps.Prim2SF (11 / 10 / (22 / 10 + 11 / 10))%float) =
    fdiv (ofQ (11 # 10)) (fadd (ofQ (22 # 10)) (ofQ (11 # 10))).
Proof. vm_compute. done. Qed.

End Hardware.

(** ** Sums of binary64 values *)

Section Summation.
Local Open Scope Q_scope.

Lemma Qmult_le_compat_l' (x y z : Q) : x <= y -> 0 <= z -> z * x <= z * y.
Proof. intros. rewrite !(Qmult_comm z). by apply Qmult_le_compat_r. Qed.

Lemma step_upper (u a q r K A : Q) :
  0 <= u -> 0 <= a -> 0 <= q -> 0 <= K -> (K + 1) * u <= 1 ->
  r <= (1 + u) * (a + q) -> a * (1 - K * u) <= A ->
  r * (1 - (K + 1) * u) <= A + q.
Proof.
  intros Hu Ha Hq HK HKu Hr HA.
  assert (H1 : r * (1 - (K + 1) * u) <= (1 + u) * (a + q) * (1 - (K + 1) * u))
    by (apply Qmult_le_compat_r; lra).
  assert (H2 : 0 <= (K + 1) * u * u * (a + q)).
  { apply Qmult_le_0_compat; [|lra]. apply Qmult_le_0_compat; [|done].
    apply Qmult_le_0_compat; lra. }
  assert (H3 : 0 <= K * u * q).
  { apply Qmult_le_0_compat; [|done]. apply Qmult_le_0_compat; lra. }
  assert (H4 : (1 + u) * (a + q) * (1 - (K + 1) * u) ==
               a * (1 - K * u) + q - K * u * q - (K + 1) * u * u * (a + q)) by ring.
  lra.
Qed.

Lemma step_lower (u a q r K A : Q) :
  0 <= u -> u <= 1 -> 0 <= A -> 0 <= q -> 0 <= K -> K * u <= 1 ->
  (1 - u) * (a + q) <= r -> (1 - K * u) * A <= a ->
  (1 - (K + 1) * u) * (A + q) <= r.
Proof.
  intros Hu Hu1 HA Hq HK HKu Hr Ha.
  assert (H1 : (1 - u) * ((1 - K * u) * A + q) <= (1 - u) * (a + q))
    by (apply Qmult_le_compat_l'; lra).
  assert (H2 : 0 <= K * u * u * A).
  { apply Qmult_le_0_compat; [|done]. apply Qmult_le_0_compat; [|done].
    apply Qmult_le_0_compat; lra. }
  assert (H3 : 0 <= K * u * q).
  { apply Qmult_le_0_compat; [|done]. apply Qmult_le_0_compat; lra. }
  assert (H4 : (1 - u) * ((1 - K * u) * A + q) ==
               (1 - (K + 1) * u) * (A + q) + K * u * u * A + K * u * q) by ring.
  lra.
Qed.

Lemma unitRoundoff_val : unitRoundoff == 1 # 9007199254740992.
Proof. reflexivity. Qed.

Lemma natQ_S n : natQ (S n) == natQ n + 1.
Proof.
  unfold natQ. rewrite Nat2Z.inj_succ. unfold Z.succ. rewrite inject_Z_plus. reflexivity.
Qed.

Lemma natQ_nonneg n : 0 <= natQ n.
Proof. unfold natQ. change 0 with (inject_Z 0). rewrite <-Zle_Qle. lia. Qed.

Lemma natQ_le n (z : Z) : (Z.of_nat n <= z)%Z -> natQ n <= inject_Z z.
Proof. intros H. unfold natQ. by rewrite <-Zle_Qle. Qed.

Lemma natQ_bound n : (Z.of_nat n <= 2 ^ 32)%Z -> natQ n * unitRoundoff <= 1 # 2097152.
Proof.
  intros H%natQ_le. rewrite unitRoundoff_val.
  assert (inject_Z (2 ^ 32) == 4294967296) by reflexivity. lra.
Qed.

Lemma round_min : round (pow2 (-1022)) == pow2 (-1022).
Proof. vm_compute. reflexivity. Qed.

(** A sum in the normal range that stays below [2^1023] is rounded, with a
    relative error of at most the unit roundoff. *)
Lemma ofQ_normal x :
  pow2 (-1022) <= x -> x <= pow2 1023 ->
  ofQ x = Fin (round x) /\
  (1 - unitRoundoff) * x <= round x /\ round x <= (1 + unitRoundoff) * x /\
  pow2 (-1022) <= round x /\ representable (round x).
Proof.
  intros Hlo Hhi. destruct (round_rel x Hlo) as [Hr1 Hr2].
  fold unitRoundoff in Hr1, Hr2. pose proof (pow2_pos (-1022)) as H0.
  split_and!; [|done|done| |by apply round_idem].
  - apply ofQ_Fin; [lra|].
    assert (H1 : (1 + unitRoundoff) * pow2 1023 < pow2 1024) by (vm_compute; reflexivity).
    assert (H2 : (1 + unitRoundoff) * x <= (1 + unitRoundoff) * pow2 1023).
    { apply Qmult_le_compat_l'; [done|]. rewrite unitRoundoff_val. lra. }
    lra.
  - rewrite <-round_min. by apply round_mono.
Qed.

Lemma round_ge c x :
  pow2 (-1022) <= c -> representable c -> c <= x -> c <= round x.
Proof.
  intros Hc Hr Hcx. pose proof (round_mono c x Hc Hcx). unfold representable in Hr. lra.
Qed.

Lemma round_le c x :
  pow2 (-1022) <= x -> representable c -> x <= c -> round x <= c.
Proof.
  intros Hx Hr Hcx. pose proof (round_mono x c Hx Hcx). unfold representable in Hr. lra.
Qed.

Lemma sumQ_nonneg (lo : Q) qs :
  0 <= lo -> Forall (fun q => lo <= q /\ representable q) qs -> 0 <= sumQ qs.
Proof.
  intros Hlo. induction 1 as [|q qs [Hq _] _ IH]; [done|].
  change (sumQ (q :: qs)) with (q + sumQ qs). lra.
Qed.

Lemma half_le (a K : Q) :
  0 <= a -> K * unitRoundoff <= 1 # 2 -> a * (1 # 2) <= a * (1 - K * unitRoundoff).
Proof. intros Ha HK. apply Qmult_le_compat_l'; lra. Qed.

(** Adding up binary64 values from the left: with [a] the value reached after
    [k] additions whose exact sum is [A], the value reached at the end is
    within the relative error [n * unitRoundoff] of the exact sum, [n] being
    the number of additions, and is not below any of the values added. *)
Lemma fsum_acc (lo : Q) (qs : list Q) :
  pow2 (-1022) <= lo ->
  Forall (fun q => lo <= q /\ representable q) qs ->
  forall (k : nat) (a A : Q),
    (Z.of_nat (k + length qs) <= 2 ^ 32)%Z ->
    0 <= A -> A + sumQ qs <= pow2 1000 ->
    (1 - natQ k * unitRoundoff) * A <= a ->
    a * (1 - natQ k * unitRoundoff) <= A ->
    (a == 0 \/ (pow2 (-1022) <= a /\ representable a)) ->
    exists s,
      foldl fadd (Fin a) (Fin <$> qs) = Fin s /\
      (1 - natQ (k + length qs) * unitRoundoff) * (A + sumQ qs) <= s /\
      s * (1 - natQ (k + length qs) * unitRoundoff) <= A + sumQ qs /\
      a <= s /\ Forall (fun q => q <= s) qs /\
      ((pow2 (-1022) <= a /\ representable a) \/ qs <> [] ->
       pow2 (-1022) <= s /\ representable s).
Proof.
  intros Hlo Hqs. pose proof (pow2_pos (-1022)) as Hmin.
  induction Hqs as [|q qs [Hq Hrep] Hqs IH]; intros k a A Hn HA Hsum Hlow Hupp Ha.
  - exists a. simpl. rewrite Nat.add_0_r. split_and!; try done; try lra.
    intros [H|H]; done.
  - cbn [length] in Hn.
    change (sumQ (q :: qs)) with (q + sumQ qs) in Hsum. pose proof (sumQ_nonneg lo qs ltac:(lra) Hqs) as Hrest.
    assert (HK : natQ k * unitRoundoff <= 1 # 2097152) by (apply natQ_bound; lia).
    assert (HK1 : natQ (S k) * unitRoundoff <= 1 # 2097152) by (apply natQ_bound; lia).
    pose proof (natQ_nonneg k) as HK0. pose proof (natQ_S k) as HS.
    pose proof unitRoundoff_val as Hu.
    assert (Ha0 : 0 <= a) by (destruct Ha as [Ha|[Ha _]]; lra).
    pose proof (half_le a (natQ k) Ha0 ltac:(lra)) as Hhalf.
    assert (Hbig : pow2 1000 + pow2 1000 + pow2 1000 <= pow2 1023) by (vm_compute; discriminate).
    destruct (ofQ_normal (a + q)) as (Hfin & Hr1 & Hr2 & Hrmin & Hrrep); [lra|lra|].
    set (a' := round (a + q)) in *.
    destruct (IH (S k) a' (A + q)) as (s & Hfold & Hs1 & Hs2 & Has & Hall & Hnorm).
    + lia.
    + lra.
    + lra.
    + rewrite HS. apply (step_lower unitRoundoff a q a' (natQ k) A); lra.
    + rewrite HS. apply (step_upper unitRoundoff a q a' (natQ k) A); lra.
    + right. done.
    + exists s. rewrite fmap_cons. cbn [foldl].
      change (fadd (Fin a) (Fin q)) with (ofQ (a + q)). rewrite Hfin.
      replace (k + length (q :: qs))%nat with (S k + length qs)%nat by (simpl; lia).
      assert (Hsumeq : A + sumQ (q :: qs) == A + q + sumQ qs)
        by (change (sumQ (q :: qs)) with (q + sumQ qs); ring).
      assert (Haa' : a <= a').
      { destruct Ha as [Ha|[Ha1 Ha2]]; [lra|]. apply round_ge; [done|done|lra]. }
      assert (Hqa' : q <= a') by (apply round_ge; [lra|done|lra]).
      split_and!; [done| | |lra| |].
      * rewrite Hsumeq. done.
      * rewrite Hsumeq. done.
      * constructor; [lra|done].
      * intros _. apply Hnorm. by left.
Qed.

Lemma natQ_0 : natQ 0 == 0.
Proof. reflexivity. Qed.

Lemma fsum_spec (lo : Q) (qs : list Q) :
  pow2 (-1022) <= lo ->
  Forall (fun q => lo <= q /\ representable q) qs ->
  (Z.of_nat (length qs) <= 2 ^ 32)%Z -> sumQ qs <= pow2 1000 ->
  exists s,
    foldl fadd (Fin 0) (Fin <$> qs) = Fin s /\
    (1 - natQ (length qs) * unitRoundoff) * sumQ qs <= s /\
    s * (1 - natQ (length qs) * unitRoundoff) <= sumQ qs /\
    Forall (fun q => q <= s) qs /\
    (qs <> [] -> pow2 (-1022) <= s /\ representable s).
Proof.
  intros Hlo Hqs Hn Hsum.
  destruct (fsum_acc lo qs Hlo Hqs 0 0 0) as (s & Hfold & Hs1 & Hs2 & _ & Hall & Hnorm).
  - done.
  - lra.
  - lra.
  - lra.
  - lra.
  - left. reflexivity.
  - exists s. simpl in Hs1, Hs2. split_and!; [done| | |done|].
    + lra.
    + lra.
    + intros H. apply Hnorm. by right.
Qed.

End Summation.

(** ** Contribution weights in binary64 *)

Lemma countDescendants_le g nodeId : countDescendants g nodeId ≤ edgeCount g.
Proof.
  unfold countDescendants.
  destruct (count_fuel g nodeId) as [[n V'] Hrun]. rewrite Hrun.
  apply count_reached in Hrun as (Hnd & _ & ->). by apply outEdges_le.
Qed.

Section NodeWeights.
Local Open Scope Q_scope.

Lemma tenth_val : tenth = Fin (3602879701896397 # 36028797018963968).
Proof. vm_compute. reflexivity. Qed.

Lemma pow2_52 : pow2 52 == 4503599627370496.
Proof. reflexivity. Qed.

Lemma pow2_53 : pow2 53 == 9007199254740992.
Proof. reflexivity. Qed.

(** A count below [2^53] is a binary64 value. *)
Lemma ofNat_exact d :
  (Z.of_nat d <= 2 ^ 53)%Z -> exists r, ofNat d = Fin r /\ r == natQ d.
Proof.
  intros Hd. destruct d as [|d].
  { exists 0. split; [vm_compute|]; reflexivity. }
  set (m := Z.of_nat (S d)) in *.
  assert (Hm : (0 < m)%Z) by (unfold m; lia).
  assert (Hx : 0 < inject_Z m) by (by rewrite <-(Zlt_Qlt 0)).
  assert (Heq : inject_Z m == inject_Z m * pow2 0) by (change (pow2 0) with 1; ring).
  assert (Hr : round (inject_Z m) == inject_Z m).
  { rewrite (round_comp _ _ Hx Heq).
    pose proof (round_fix m 0 Hm Hd ltac:(lia)) as Hfix. lra. }
  exists (round (inject_Z m)). split; [|done].
  unfold ofNat. fold m. apply ofQ_Fin; [lra|].
  assert (inject_Z m <= pow2 53) by (rewrite <-pow2_Z, <-Zle_Qle; done).
  assert (pow2 53 < pow2 1024) by (by apply pow2_lt). lra.
Qed.

(** The weight of a node is a binary64 value between 1 and [2^52] as long as
    counts stay below [2^53]. *)
Lemma nodeWeight_range g nodeId :
  (Z.of_nat (edgeCount g) < 2 ^ 53)%Z -> finiteIn 1 (pow2 52) (nodeWeight g nodeId).
Proof.
  intros HE. pose proof (countDescendants_le g nodeId) as Hd.
  set (d := countDescendants g nodeId) in *.
  destruct (ofNat_exact d) as (r & Hr & Hrd); [lia|].
  assert (Hr0 : 0 <= r) by (rewrite Hrd; apply natQ_nonneg).
  assert (Hr53 : r <= 9007199254740992).
  { rewrite Hrd, <-pow2_53, <-pow2_Z by done. apply natQ_le. lia. }
  unfold nodeWeight. fold d. rewrite Hr, tenth_val.
  set (t := 3602879701896397 # 36028797018963968).
  pose proof unitRoundoff_val as Hu.
  assert (Hmin : pow2 (-1022) <= 1 # 16) by (vm_compute; discriminate).
  assert (Hmax : 4503599627370496 + 4503599627370496 <= pow2 1023) by (vm_compute; discriminate).
  assert (Hp : exists p, fmul (Fin r) (Fin t) = Fin p /\ 0 <= p /\ p <= 2251799813685248).
  { change (fmul (Fin r) (Fin t)) with (ofQ (r * t)).
    destruct (Qlt_le_dec 0 r) as [Hpos|Hzero].
    - assert (Hr1 : 1 <= r).
      { rewrite Hrd. rewrite Hrd in Hpos. unfold natQ in *.
        change 1 with (inject_Z 1). change 0 with (inject_Z 0) in Hpos.
        rewrite <-Zlt_Qlt in Hpos. rewrite <-Zle_Qle. lia. }
      destruct (ofQ_normal (r * t)) as (Hfin & _ & Hr2 & _); [unfold t; lra|unfold t; lra|].
      exists (round (r * t)). split_and!; [done| |].
      + apply round_nonneg. unfold t. lra.
      + rewrite Hu in Hr2. unfold t in *. lra.
    - assert (Hz : r * t == 0) by (assert (r == 0) by lra; unfold t; lra).
      pose proof (round_zero _ Hz) as Hrz.
      exists (round (r * t)). split_and!; [|lra|lra].
      apply ofQ_Fin; [lra|]. pose proof (pow2_pos 1024). lra. }
  destruct Hp as (p & -> & Hp0 & Hp1).
  change (fadd (Fin 1) (Fin p)) with (ofQ (1 + p)).
  destruct (ofQ_normal (1 + p)) as (Hfin & _ & Hr2 & _ & Hrep); [lra|lra|].
  rewrite Hu in Hr2.
  exists (round (1 + p)). rewrite pow2_52. split_and!; [done| |lra|done].
  apply round_ge; [lra|apply round_one|lra].
Qed.

End NodeWeights.

Lemma JsMap_set_length {V} (m : JsMap.t V) k v :
  length (JsMap.set m k v) ≤ S (length m).
Proof.
  induction m as [|[k0 v0] m IH]; simpl; [done|].
  destruct (decide (k0 = k)); simpl; lia.
Qed.

Lemma agentContributions_inv g (es : list (string * DKGNode)) (acc : JsMap.t number) :
  NoDup (JsMap.keys acc) →
  NoDup (JsMap.keys (foldl (addContribution g) acc es)) ∧
  length (foldl (addContribution g) acc es) ≤ length acc + length es ∧
  (es ≠ [] → foldl (addContribution g) acc es ≠ []).
Proof.
  revert acc. induction es as [|e es IH]; intros acc Hnd; simpl.
  - split_and!; [done|lia|done].
  - assert (Hnd' : NoDup (JsMap.keys (addContribution g acc e)))
      by (by apply JsMap_set_NoDup).
    destruct (IH _ Hnd') as (H1 & H2 & H3). split_and!; [done| |].
    + assert (Hlen : length (addContribution g acc e) ≤ S (length acc))
        by apply JsMap_set_length.
      etrans; [exact H2|]. cbn [length]. lia.
    + intros _. destruct es as [|e' es]; [apply JsMap_set_nonempty|]. by apply H3.
Qed.

Lemma computeContributionWeights_values g :
  JsMap.values (computeContributionWeights g) =
  (λ c, fdiv c (sumValues (agentContributions g))) <$> JsMap.values (agentContributions g).
Proof.
  unfold computeContributionWeights, JsMap.entries, JsMap.empty.
  destruct (agentContributions_inv g (nodes g) [] (NoDup_nil_2)) as (Hnd & _).
  fold (agentContributions g) in Hnd.
  rewrite (JsMap_rebuild (λ c, fdiv c (sumValues (agentContributions g)))) by done.
  simpl. unfold JsMap.values.
  rewrite <-!list_fmap_compose. done.
Qed.

Lemma Forall_Fin (P : Q → Prop) (vs : list number) :
  Forall (λ v, ∃ q, v = Fin q ∧ P q) vs → ∃ qs, vs = Fin <$> qs ∧ Forall P qs.
Proof.
  induction 1 as [|v vs (q & -> & Hq) _ (qs & -> & Hqs)].
  - by exists [].
  - exists (q :: qs). split; [done|]. by constructor.
Qed.

Section Contributions.
Local Open Scope Q_scope.

Lemma boundedContribution_S k v :
  (Z.of_nat (S k) <= 2 ^ 32)%Z -> boundedContribution k v -> boundedContribution (S k) v.
Proof.
  intros Hk (q & -> & Hq1 & Hrep & Hb). exists q. split_and!; [done..|].
  pose proof (natQ_S k) as HS. pose proof (natQ_nonneg k) as HK.
  pose proof unitRoundoff_val as Hu. rewrite HS. rewrite pow2_52 in *.
  assert (0 <= q * unitRoundoff) by (apply Qmult_le_0_compat; lra).
  lra.
Qed.

Lemma addContribution_bounded g acc e k :
  (Z.of_nat (edgeCount g) < 2 ^ 53)%Z -> (Z.of_nat (S k) <= 2 ^ 32)%Z ->
  Forall (boundedContribution k) (JsMap.values acc) ->
  Forall (boundedContribution (S k)) (JsMap.values (addContribution g acc e)).
Proof.
  intros HE Hk Hacc. unfold addContribution. cbv zeta.
  apply JsMap_set_values_Forall.
  { eapply Forall_impl; [exact Hacc|]. intros v. by apply boundedContribution_S. }
  destruct (nodeWeight_range g e.1 HE) as (w & -> & Hw1 & Hw2 & Hwrep).
  pose proof (natQ_S k) as HS. pose proof (natQ_nonneg k) as HK.
  pose proof unitRoundoff_val as Hu. rewrite pow2_52 in Hw2.
  assert (HKu : natQ k * unitRoundoff <= 1 # 2097152) by (apply natQ_bound; lia).
  assert (HK32 : natQ k <= 4294967296) by (apply (natQ_le k (2 ^ 32)); lia).
  assert (Hmin : pow2 (-1022) <= 1) by (vm_compute; discriminate).
  assert (Hmax : 4503599627370496 * 4294967296 * 4 <= pow2 1023) by (vm_compute; discriminate).
  assert (Hcur : exists a,
            match JsMap.get acc (agentKey e.2) with
            | Some c => orZero c | None => Fin 0 end = Fin a /\
            0 <= a /\ a * (1 - natQ k * unitRoundoff) <= natQ k * 4503599627370496).
  { destruct (JsMap.get acc (agentKey e.2)) as [c|] eqn:Hget.
    - apply (JsMap_get_values_Forall _ _ _ _ Hacc) in Hget as (q & -> & Hq1 & _ & Hb).
      rewrite pow2_52 in Hb. exists q. split_and!; [|lra|done].
      simpl. destruct (Qeq_bool q 0) eqn:Hz; [|done].
      apply Qeq_bool_iff in Hz. lra.
    - exists 0. split_and!; [done|lra|lra]. }
  destruct Hcur as (a & -> & Ha0 & Hab).
  change (fadd (Fin a) (Fin w)) with (ofQ (a + w)).
  pose proof (half_le a (natQ k) Ha0 ltac:(lra)) as Hhalf.
  destruct (ofQ_normal (a + w)) as (Hfin & _ & Hr2 & _ & Hrep); [lra|lra|].
  exists (round (a + w)). split_and!; [done| |done|].
  - apply round_ge; [lra|apply round_one|lra].
  - rewrite HS, pow2_52.
    pose proof (step_upper unitRoundoff a w (round (a + w)) (natQ k)
                  (natQ k * 4503599627370496)) as Hstep.
    assert ((natQ k + 1) * unitRoundoff <= 1).
    { rewrite <-HS. pose proof (natQ_bound (S k) Hk). lra. }
    lra.
Qed.

Lemma contributions_bounded g (es : list (string * DKGNode)) :
  (Z.of_nat (edgeCount g) < 2 ^ 53)%Z ->
  forall acc (k : nat),
    (Z.of_nat (k + length es) <= 2 ^ 32)%Z ->
    Forall (boundedContribution k) (JsMap.values acc) ->
    Forall (boundedContribution (k + length es))
           (JsMap.values (foldl (addContribution g) acc es)).
Proof.
  intros HE. induction es as [|e es IH]; intros acc k Hk Hacc.
  - simpl. by rewrite Nat.add_0_r.
  - cbn [foldl length] in *.
    replace (k + S (length es))%nat with (S k + length es)%nat by lia.
    apply IH; [lia|]. apply addContribution_bounded; [done|lia|done].
Qed.

End Contributions.

Section Normalisation.
Local Open Scope Q_scope.

Lemma sumQ_cons q qs : sumQ (q :: qs) = q + sumQ qs.
Proof. done. Qed.

Lemma sumQ_le_const (c : Q) qs :
  Forall (fun q => q <= c) qs -> sumQ qs <= natQ (length qs) * c.
Proof.
  induction 1 as [|q qs Hq _ IH].
  - change (sumQ []) with 0. change (natQ (length [])) with 0. lra.
  - rewrite sumQ_cons. cbn [length]. rewrite natQ_S. lra.
Qed.

Lemma sumQ_ge_0 qs : Forall (fun q => 0 <= q) qs -> 0 <= sumQ qs.
Proof.
  induction 1 as [|q qs Hq _ IH]; [done|]. rewrite sumQ_cons. lra.
Qed.

(** The quotient of a contribution by the total, rounded. *)
Lemma weight_props (q t : Q) :
  1 <= q -> q <= t -> t <= pow2 200 ->
  fdiv (Fin q) (Fin t) = Fin (round (q / t)) /\
  (1 - unitRoundoff) * (q / t) <= round (q / t) /\
  round (q / t) <= (1 + unitRoundoff) * (q / t) /\
  0 < round (q / t) /\ round (q / t) <= 1 /\
  pow2 (-1022) <= round (q / t) /\ representable (round (q / t)).
Proof.
  intros Hq Hqt Ht.
  assert (Ht0 : 0 < t) by lra.
  assert (Hlo : pow2 (-1022) <= q / t).
  { apply Qle_shift_div_l; [done|].
    assert (pow2 (-1022) * t <= pow2 (-1022) * pow2 200)
      by (apply Qmult_le_compat_l'; [done|apply Qlt_le_weak, pow2_pos]).
    assert (pow2 (-1022) * pow2 200 <= 1) by (vm_compute; discriminate). lra. }
  assert (Hhi : q / t <= 1) by (apply Qle_shift_div_r; [done|lra]).
  assert (H1023 : 1 <= pow2 1023) by (vm_compute; discriminate).
  destruct (ofQ_normal (q / t)) as (Hfin & Hr1 & Hr2 & Hmin & Hrep); [done|lra|].
  pose proof (pow2_pos (-1022)) as Hp.
  split_and!; try done; [|lra|].
  - unfold fdiv. destruct (Qeq_bool t 0) eqn:Hz; [|done].
    apply Qeq_bool_iff in Hz. lra.
  - apply round_le; [done|apply round_one|done].
Qed.

Lemma sumQ_weights (t : Q) qs :
  0 < t ->
  Forall (fun q => (1 - unitRoundoff) * (q / t) <= round (q / t) /\
                   round (q / t) <= (1 + unitRoundoff) * (q / t)) qs ->
  (1 - unitRoundoff) * (sumQ qs / t) <= sumQ ((fun q => round (q / t)) <$> qs) /\
  sumQ ((fun q => round (q / t)) <$> qs) <= (1 + unitRoundoff) * (sumQ qs / t).
Proof.
  intros Ht. induction 1 as [|q qs [Hq1 Hq2] _ [IH1 IH2]].
  - change (sumQ []) with 0. rewrite fmap_nil. change (sumQ []) with 0.
    assert (H0 : 0 / t == 0) by (field; lra). rewrite H0. split; lra.
  - rewrite fmap_cons, !sumQ_cons.
    assert (Hd : (q + sumQ qs) / t == q / t + sumQ qs / t) by (field; lra).
    rewrite Hd. split; lra.
Qed.

(** C2. [computeContributionWeights] returns the empty mapping on the empty
    graph.  On every other graph of at most [2^32] nodes and fewer than
    [2^53] edges (bounds that keep counts exact and exclude overflow; no
    JavaScript array or Map reaches them) every weight it returns is a
    finite binary64 value in (0, 1], and the weights sum to 1 within 1e-6:
    both their exact sum and the binary64 sum obtained by adding them up in
    the order of the mapping lie within 1e-6 of 1. *)
Theorem computeContributionWeights_normalised (g : DKG) :
  (nodes g = [] -> computeContributionWeights g = []) /\
  (nodes g <> [] ->
   (Z.of_nat (JsMap.size (nodes g)) <= 2 ^ 32)%Z ->
   (Z.of_nat (edgeCount g) < 2 ^ 53)%Z ->
   exists (ws : list Q) (total : Q),
     JsMap.values (computeContributionWeights g) = Fin <$> ws /\
     Forall (fun w => 0 < w /\ w <= 1) ws /\
     1 - (1 # 1000000) <= sumQ ws /\ sumQ ws <= 1 + (1 # 1000000) /\
     sumValues (computeContributionWeights g) = Fin total /\
     1 - (1 # 1000000) <= total /\ total <= 1 + (1 # 1000000)).
Proof.
  split.
  { intros Hn. unfold computeContributionWeights, agentContributions. by rewrite Hn. }
  intros Hne Hsize HE. unfold JsMap.size in Hsize.
  destruct (agentContributions_inv g (nodes g) [] NoDup_nil_2) as (_ & Hlen & Hne').
  specialize (Hne' Hne).
  pose proof (contributions_bounded g (nodes g) HE [] 0%nat Hsize (Forall_nil_2 _)) as Hb.
  fold (agentContributions g) in Hlen, Hne', Hb. cbn [length] in Hlen.
  rewrite Nat.add_0_l in Hb, Hlen.
  set (n := length (nodes g)) in *.
  pose proof unitRoundoff_val as Hu.
  assert (Hnu : natQ n * unitRoundoff <= 1 # 2097152) by (by apply natQ_bound).
  assert (Hn32 : natQ n <= 4294967296) by (by apply (natQ_le n (2 ^ 32))).
  pose proof (natQ_nonneg n) as Hn0.
  (* the contributions *)
  assert (Hqs : exists qs, JsMap.values (agentContributions g) = Fin <$> qs /\
             Forall (fun q => 1 <= q /\ representable q) qs /\
             Forall (fun q => q <= 38685626227668133590597632) qs).
  { destruct (Forall_Fin _ _ Hb) as (qs & Heq & Hqs). exists qs. split; [done|].
    split; (eapply Forall_impl; [exact Hqs|]); intros q (Hq1 & Hrep & Hq2); [done|].
    simpl. rewrite pow2_52 in Hq2.
    pose proof (half_le q (natQ n) ltac:(lra) ltac:(lra)). lra. }
  destruct Hqs as (qs & Hvals & Hqs & Hqmax).
  assert (Hqn : (length qs <= n)%nat).
  { rewrite <-(length_fmap Fin qs), <-Hvals. unfold JsMap.values. by rewrite length_fmap. }
  assert (Hqne : qs <> []).
  { intros ->. apply Hne'. unfold JsMap.values in Hvals. by apply fmap_nil_inv in Hvals. }
  set (na := length qs) in *.
  assert (Hna32 : natQ na <= 4294967296) by (apply (natQ_le na (2 ^ 32)); lia).
  pose proof (natQ_nonneg na) as Hna0.
  assert (Hxa : natQ na * unitRoundoff <= 1 # 2097152) by (apply natQ_bound; lia).
  pose proof (sumQ_le_const _ qs Hqmax) as HS. fold na in HS.
  assert (HS0 : 0 <= sumQ qs).
  { apply sumQ_ge_0. eapply Forall_impl; [exact Hqs|]. intros q [Hq _]. simpl. lra. }
  assert (Hp1000 : 38685626227668133590597632 * 4294967296 <= pow2 1000)
    by (vm_compute; discriminate).
  assert (Hp200 : 38685626227668133590597632 * 4294967296 * 2 <= pow2 200)
    by (vm_compute; discriminate).
  assert (Hmin1 : pow2 (-1022) <= 1) by (vm_compute; discriminate).
  (* the total *)
  destruct (fsum_spec 1 qs Hmin1 Hqs) as (t & Ht & Ht1 & Ht2 & Htq & _); [lia|lra|].
  fold na in Ht1, Ht2.
  assert (Htotal : sumValues (agentContributions g) = Fin t).
  { unfold sumValues. by rewrite Hvals. }
  assert (Ht1' : 1 <= t).
  { destruct qs as [|q qs']; [done|].
    apply Forall_cons in Hqs as [[Hq _] _]. apply Forall_cons in Htq as [Hqt _]. lra. }
  pose proof (half_le t (natQ na) ltac:(lra) ltac:(lra)) as Hthalf.
  assert (Ht200 : t <= pow2 200) by lra.
  (* the weights *)
  assert (Hw : Forall (fun q => fdiv (Fin q) (Fin t) = Fin (round (q / t)) /\
             ((1 - unitRoundoff) * (q / t) <= round (q / t) /\
              round (q / t) <= (1 + unitRoundoff) * (q / t)) /\
             (0 < round (q / t) /\ round (q / t) <= 1) /\
             (pow2 (-1022) <= round (q / t) /\ representable (round (q / t)))) qs).
  { apply Forall_forall. intros q Hq.
    rewrite Forall_forall in Hqs, Htq.
    destruct (Hqs q Hq) as [Hq1 _]. specialize (Htq q Hq).
    destruct (weight_props q t Hq1 Htq Ht200) as (H1 & H2 & H3 & H4 & H5 & H6 & H7).
    done. }
  set (ws := (fun q => round (q / t)) <$> qs).
  assert (Hwvals : JsMap.values (computeContributionWeights g) = Fin <$> ws).
  { rewrite computeContributionWeights_values, Htotal, Hvals. unfold ws.
    rewrite <-!list_fmap_compose. apply Forall_fmap_ext.
    eapply Forall_impl; [exact Hw|]. intros q (H1 & _). exact H1. }
  assert (Hws01 : Forall (fun w => 0 < w /\ w <= 1) ws).
  { unfold ws. apply Forall_fmap. eapply Forall_impl; [exact Hw|].
    intros q (_ & _ & H & _). exact H. }
  assert (Hwsrep : Forall (fun w => pow2 (-1022) <= w /\ representable w) ws).
  { unfold ws. apply Forall_fmap. eapply Forall_impl; [exact Hw|].
    intros q (_ & _ & _ & H). exact H. }
  destruct (sumQ_weights t qs ltac:(lra)) as [Hsw1 Hsw2].
  { eapply Forall_impl; [exact Hw|]. intros q (_ & H & _). exact H. }
  fold ws in Hsw1, Hsw2.
  (* the ratio of the exact total to the rounded one *)
  set (rho := sumQ qs / t) in *.
  assert (Hrho1 : (2097151 # 2097152) <= rho).
  { apply Qle_shift_div_l; [lra|].
    assert (t * (2097151 # 2097152) <= t * (1 - natQ na * unitRoundoff))
      by (apply Qmult_le_compat_l'; lra).
    lra. }
  assert (Hrho2 : rho <= 2097152 # 2097151).
  { apply Qle_shift_div_r; [lra|].
    assert ((2097151 # 2097152) * sumQ qs <= (1 - natQ na * unitRoundoff) * sumQ qs)
      by (apply Qmult_le_compat_r; lra).
    lra. }
  rewrite Hu in Hsw1, Hsw2.
  assert (Hlenws : length ws = na) by (unfold ws; by rewrite length_fmap).
  assert (Hws1 : sumQ ws <= natQ na * 1).
  { rewrite <-Hlenws. apply sumQ_le_const.
    eapply Forall_impl; [exact Hws01|]. intros w [_ H]. exact H. }
  assert (H1000 : 4294967296 <= pow2 1000) by (vm_compute; discriminate).
  destruct (fsum_spec (pow2 (-1022)) ws (Qle_refl _) Hwsrep)
    as (total & Htot & Htot1 & Htot2 & _); [lia|lra|].
  rewrite Hlenws in Htot1, Htot2.
  assert (Hsw0 : 0 <= sumQ ws) by lra.
  assert (Hc1 : (2097151 # 2097152) * sumQ ws <= (1 - natQ na * unitRoundoff) * sumQ ws)
    by (apply Qmult_le_compat_r; lra).
  assert (Htot0 : 0 <= total) by lra.
  assert (Hc2 : total * (2097151 # 2097152) <= total * (1 - natQ na * unitRoundoff))
    by (apply Qmult_le_compat_l'; lra).
  exists ws, total. split_and!; [done|done|lra|lra| |lra|lra].
  unfold sumValues. by rewrite Hwvals.
Qed.

End Normalisation.

(** Six authors of one parentless node each: every weight is the binary64
    value nearest to 1/6, and their binary64 sum is [1 - 2^-53], the number
    JavaScript prints as 0.9999999999999999. *)
Example computeContributionWeights_six_authors :
  let mk := λ a, mkDKGNode a "" 1 a [] "h" [] None None None "message" in
  let g := foldl (λ g a, (addNode g (mk a) None).1) DKG_new
                 ["a"; "b"; "c"; "d"; "e"; "f"] in
  JsMap.get (computeContributionWeights g) "a" =
    Some (Fin (6004799503160661 # 36028797018963968)) ∧
  sumValues (computeContributionWeights g) =
    Fin (9007199254740991 # 9007199254740992).
Proof. vm_compute. done. Qed.

Lemma computeContributionWeights_normalised_witness :
  let mk := λ a id t ps, mkDKGNode a "" t id [] "h" ps None None None "message" in
  let g := (addNode (addNode (addNode DKG_new (mk "A" "root" 1000%Z []) None).1
                       (mk "B" "mid" 2000%Z ["root"]) None).1
              (mk "A" "leaf" 3000%Z ["mid"]) None).1 in
  ∃ (ws : list Q) (total : Q),
    JsMap.values (computeContributionWeights g) = Fin <$> ws ∧
    Forall (λ w, (0 < w)%Q ∧ (w <= 1)%Q) ws ∧
    (1 - (1 # 1000000) <= sumQ ws)%Q ∧ (sumQ ws <= 1 + (1 # 1000000))%Q ∧
    sumValues (computeContributionWeights g) = Fin total ∧
    (1 - (1 # 1000000) <= total)%Q ∧ (total <= 1 + (1 # 1000000))%Q.
Proof.
  intros mk g.
  apply (proj2 (computeContributionWeights_normalised g)).
  - discriminate.
  - vm_compute. discriminate.
  - vm_compute. reflexivity.
Defined.

(** ** Contribution weights: the share of each agent *)

Lemma JsMap_get_set {V} (m : JsMap.t V) k k' v :
  JsMap.get (JsMap.set m k v) k' = if decide (k = k') then Some v else JsMap.get m k'.
Proof.
  destruct (decide (k = k')) as [->|Hne].
  - apply JsMap_get_set_eq.
  - by apply JsMap_get_set_ne.
Qed.

Lemma JsMap_get_fmap {V W} (f : V → W) (m : JsMap.t V) k :
  JsMap.get ((λ e, (e.1, f e.2)) <$> m) k = f <$> JsMap.get m k.
Proof.
  induction m as [|[k0 v0] m IH]; [done|]. rewrite fmap_cons. simpl.
  by destruct (decide (k0 = k)).
Qed.

(** A map with distinct keys lists, for each key, the value [get] returns. *)
Lemma JsMap_values_get {V} (m : JsMap.t V) (f : string → V) :
  NoDup (JsMap.keys m) → (∀ k, k ∈ JsMap.keys m → JsMap.get m k = Some (f k)) →
  JsMap.values m = f <$> JsMap.keys m.
Proof.
  unfold JsMap.keys, JsMap.values.
  induction m as [|[k v] m IH]; intros Hnd Hget; [done|].
  rewrite !fmap_cons. cbn [fst snd]. apply NoDup_cons in Hnd as [Hk Hnd]. f_equal.
  - specialize (Hget k ltac:(left)). simpl in Hget. rewrite decide_True in Hget by done.
    by injection Hget.
  - apply IH; [done|]. intros k' Hk'. specialize (Hget k' ltac:(by right)).
    simpl in Hget. rewrite decide_False in Hget; [done|]. by intros ->.
Qed.

Lemma computeContributionWeights_map g :
  computeContributionWeights g =
  (λ e, (e.1, fdiv e.2 (sumValues (agentContributions g)))) <$> agentContributions g.
Proof.
  unfold computeContributionWeights, JsMap.entries, JsMap.empty.
  destruct (agentContributions_inv g (nodes g) [] (NoDup_nil_2)) as (Hnd & _).
  fold (agentContributions g) in Hnd.
  by rewrite (JsMap_rebuild (λ c, fdiv c (sumValues (agentContributions g)))).
Qed.

Section Shares.
Local Open Scope Q_scope.

Lemma ofQ_atLeastOne x : 1 <= x -> atLeastOne (ofQ x).
Proof.
  intros Hx. assert (Hmin : pow2 (-1022) <= 1) by (vm_compute; discriminate).
  assert (Hr : 1 <= round x) by (apply round_ge; [done|apply round_one|done]).
  unfold ofQ. cbv zeta. destruct (Qle_bool (pow2 1024) (round x)); [by right|].
  destruct (Qle_bool (round x) (- pow2 1024)) eqn:H2.
  - apply Qle_bool_iff in H2. pose proof (pow2_pos 1024). lra.
  - left. by exists (round x).
Qed.

Lemma ofQ_nonneg x :
  0 <= x -> (exists r, ofQ x = Fin r /\ 0 <= r) \/ ofQ x = PosInf.
Proof.
  intros Hx. pose proof (round_nonneg x Hx) as Hr.
  unfold ofQ. cbv zeta. destruct (Qle_bool (pow2 1024) (round x)); [by right|].
  destruct (Qle_bool (round x) (- pow2 1024)) eqn:H2.
  - apply Qle_bool_iff in H2. pose proof (pow2_pos 1024). lra.
  - left. by exists (round x).
Qed.

Lemma nodeWeight_atLeastOne g nodeId : atLeastOne (nodeWeight g nodeId).
Proof.
  unfold nodeWeight. rewrite tenth_val.
  set (t := 3602879701896397 # 36028797018963968).
  assert (Hd : 0 <= inject_Z (Z.of_nat (countDescendants g nodeId))).
  { change 0 with (inject_Z 0). rewrite <-Zle_Qle. lia. }
  unfold ofNat. destruct (ofQ_nonneg _ Hd) as [(r & -> & Hr)| ->].
  - change (fmul (Fin r) (Fin t)) with (ofQ (r * t)).
    destruct (ofQ_nonneg (r * t)) as [(p & -> & Hp)| ->].
    + apply Qmult_le_0_compat; [done|]. unfold t. lra.
    + change (fadd (Fin 1) (Fin p)) with (ofQ (1 + p)). apply ofQ_atLeastOne. lra.
    + by right.
  - by right.
Qed.

Lemma fadd_atLeastOne a v :
  a = Fin 0 \/ atLeastOne a -> atLeastOne v -> atLeastOne (fadd a v).
Proof.
  intros Ha [(w & -> & Hw)| ->].
  - destruct Ha as [->|[(q & -> & Hq)| ->]].
    + change (fadd (Fin 0) (Fin w)) with (ofQ (0 + w)). apply ofQ_atLeastOne. lra.
    + change (fadd (Fin q) (Fin w)) with (ofQ (q + w)). apply ofQ_atLeastOne. lra.
    + by right.
  - destruct Ha as [->|[(q & -> & Hq)| ->]]; by right.
Qed.

Lemma orZero_atLeastOne v : atLeastOne v -> orZero v = v.
Proof.
  intros [(q & -> & Hq)| ->]; [|done]. simpl.
  destruct (Qeq_bool q 0) eqn:Hz; [|done]. apply Qeq_bool_iff in Hz. lra.
Qed.

End Shares.

Lemma addContribution_get g acc e k :
  Forall atLeastOne (JsMap.values acc) →
  JsMap.get (addContribution g acc e) k =
  if decide (agentKey e.2 = k)
  then Some (fadd (default (Fin 0) (JsMap.get acc k)) (nodeWeight g e.1))
  else JsMap.get acc k.
Proof.
  intros Hacc. unfold addContribution. cbv zeta. rewrite JsMap_get_set.
  destruct (decide (agentKey e.2 = k)) as [<-|Hne]; [|done].
  destruct (JsMap.get acc (agentKey e.2)) as [c|] eqn:Hget; [|done].
  simpl. rewrite orZero_atLeastOne; [done|].
  by eapply (JsMap_get_values_Forall atLeastOne).
Qed.

Lemma addContribution_atLeastOne g acc e :
  Forall atLeastOne (JsMap.values acc) →
  Forall atLeastOne (JsMap.values (addContribution g acc e)).
Proof.
  intros Hacc. unfold addContribution. cbv zeta.
  apply JsMap_set_values_Forall; [done|].
  apply fadd_atLeastOne; [|apply nodeWeight_atLeastOne].
  destruct (JsMap.get acc (agentKey e.2)) as [c|] eqn:Hget; [|by left].
  right. apply (JsMap_get_values_Forall atLeastOne) in Hget; [|done].
  by rewrite orZero_atLeastOne.
Qed.

(** Accumulating into the map by agent key adds up, for each key, the
    weights of the entries of that key, in order. *)
Lemma contributions_get g k (es : list (string * DKGNode)) : ∀ acc,
  Forall atLeastOne (JsMap.values acc) →
  JsMap.get (foldl (addContribution g) acc es) k =
  if decide (k ∈ (agentKey ∘ snd) <$> es)
  then Some (foldl fadd (default (Fin 0) (JsMap.get acc k))
                   ((λ e, nodeWeight g e.1) <$> filter (λ e, agentKey e.2 = k) es))
  else JsMap.get acc k.
Proof.
  induction es as [|e es IH]; intros acc Hacc; [done|].
  cbn [foldl]. rewrite IH by (by apply addContribution_atLeastOne).
  rewrite addContribution_get by done. rewrite fmap_cons.
  destruct (decide (agentKey e.2 = k)) as [Heq|Hne].
  - rewrite (decide_True (P := k ∈ _ :: _)) by (rewrite <-Heq; left).
    rewrite filter_cons_True by done. rewrite fmap_cons. cbn [foldl default].
    destruct (decide (k ∈ (agentKey ∘ snd) <$> es)) as [Hin|Hnin]; [done|].
    rewrite (filter_none (λ e, agentKey e.2 = k) es); [done|].
    apply Forall_forall. intros e' He' Hk. apply Hnin, list_elem_of_fmap. by exists e'.
  - rewrite filter_cons_False by done.
    destruct (decide (k ∈ (agentKey ∘ snd) <$> es)) as [Hin|Hnin].
    + by rewrite decide_True by (by right).
    + rewrite decide_False; [done|]. intros [Hk|Hk]%elem_of_cons; [|done].
      by apply Hne.
Qed.

Lemma agentContributions_get g agent :
  JsMap.get (agentContributions g) agent =
  if decide (agent ∈ agentKey <$> JsMap.values (nodes g))
  then Some (agentWeight g agent) else None.
Proof.
  unfold agentContributions. rewrite contributions_get by constructor.
  unfold JsMap.entries, JsMap.values. rewrite list_fmap_compose. done.
Qed.

(** X16. [computeContributionWeights] has one entry for each agent key of a
    stored node (the decimal [agentId] when present and not zero, else the
    author) and no other.  The weight of an agent is the binary64 sum of the
    weights [1 + descendants * 0.1] of its nodes, added in insertion order,
    divided by the binary64 sum of these per-agent sums, added in the order
    of the mapping. *)
Theorem computeContributionWeights_shares (g : DKG) :
  NoDup (JsMap.keys (computeContributionWeights g)) ∧
  (∀ agent, agent ∈ JsMap.keys (computeContributionWeights g) ↔
            agent ∈ agentKey <$> JsMap.values (nodes g)) ∧
  (∀ agent, JsMap.get (computeContributionWeights g) agent =
            if decide (agent ∈ agentKey <$> JsMap.values (nodes g))
            then Some (fdiv (agentWeight g agent)
                            (foldl fadd (Fin 0)
                               (agentWeight g <$> JsMap.keys (computeContributionWeights g))))
            else None).
Proof.
  destruct (agentContributions_inv g (nodes g) [] (NoDup_nil_2)) as (Hnd & _).
  fold (agentContributions g) in Hnd.
  assert (Hkeys : JsMap.keys (computeContributionWeights g) =
                  JsMap.keys (agentContributions g)).
  { rewrite computeContributionWeights_map. unfold JsMap.keys.
    by rewrite <-list_fmap_compose. }
  assert (Hmem : ∀ agent, agent ∈ JsMap.keys (agentContributions g) ↔
                          agent ∈ agentKey <$> JsMap.values (nodes g)).
  { intros agent. pose proof (agentContributions_get g agent) as Hget. split.
    - intros [v Hv]%JsMap_key_get. rewrite Hv in Hget.
      by destruct (decide (agent ∈ agentKey <$> JsMap.values (nodes g))).
    - intros Hin. rewrite decide_True in Hget by done.
      by eapply JsMap_get_Some_key. }
  assert (Hvals : JsMap.values (agentContributions g) =
                  agentWeight g <$> JsMap.keys (agentContributions g)).
  { apply JsMap_values_get; [done|]. intros k Hk.
    rewrite agentContributions_get. by rewrite decide_True by (by apply Hmem). }
  rewrite Hkeys. split_and!; [done|done|].
  intros agent. rewrite computeContributionWeights_map.
  rewrite (JsMap_get_fmap (λ c, fdiv c (sumValues (agentContributions g)))).
  rewrite agentContributions_get. unfold sumValues. rewrite Hvals.
  by destruct (decide (agent ∈ agentKey <$> JsMap.values (nodes g))).
Qed.
